(** * Verification of the configuration reconciliation core of [scripts/config.py]

    The development embeds the pure core of [ConfigManager] (stack naming,
    the shell-like tokenizer behind the samconfig parsers, the parameter
    validator, the tag merger, the defaults resolver, the differ and the
    stage ordering of the serializer) and settles the properties the
    specification states about them.

    Conventions.  A Python [str] is a [string]; its characters are code
    points below 256.  A Python [dict] is an association list in insertion
    order whose keys are pairwise distinct.  A Python call that may raise
    returns a [result]. *)

From Stdlib Require Import ZArith Lia Bool Ascii String List Permutation Sorted.
From Stdlib Require Import DecimalString.
From stdpp Require Import base list strings.
Import ListNotations.
Local Open Scope string_scope.
Local Open Scope list_scope.

(** ** Python preliminaries *)

(** Exceptions the embedded code can raise. *)
Inductive exn : Type :=
| ValueError (msg : string)
| KeyError (key : string)
| TypeError
| AttributeError
| IndexError
| RuntimeError
| RecursionError
| JSONDecodeError.

Inductive result (A : Type) : Type :=
| Ok (a : A)
| Raise (e : exn).
Arguments Ok {A} a.
Arguments Raise {A} e.

#[global] Instance result_ret : MRet result := fun _ a => Ok a.
#[global] Instance result_bind : MBind result := fun _ _ k r =>
  match r with
  | Ok a => k a
  | Raise e => Raise e
  end.

(** [not s] for a string. *)
Definition str_empty (s : string) : bool :=
  match s with
  | EmptyString => true
  | String _ _ => false
  end.

(** [s.startswith(p)]. *)
Definition startswith (p s : string) : bool := String.prefix p s.

(** [sep.join(parts)]. *)
Definition join (sep : string) (parts : list string) : string :=
  String.concat sep parts.

(** ** Stack names: [generate_stack_name] *)

(** The attributes of a [ConfigManager] the core reads.  [project_id] is
    [None] for a service role created without a project. *)
Record ConfigManager : Type := {
  prefix : string;
  infra_type : string;
  project_id : option string;
  stage_id : string
}.

(** Truth value of an [Optional[str]]. *)
Definition truthy (o : option string) : bool :=
  match o with
  | Some s => negb (str_empty s)
  | None => false
  end.

Definition str_of (o : option string) : string :=
  match o with
  | Some s => s
  | None => "None"
  end.

Definition generate_stack_name (self : ConfigManager)
    (prefix_arg project_id_arg stage_id_arg : string) : string :=
  let prefix := if str_empty prefix_arg then prefix self else prefix_arg in
  let project_id :=
    if str_empty project_id_arg then project_id self else Some project_id_arg in
  let stage_id := if str_empty stage_id_arg then stage_id self else stage_id_arg in
  let stack_name := prefix +:+ "-" in
  let stack_name :=
    if truthy project_id then stack_name +:+ str_of project_id +:+ "-"
    else stack_name in
  let stack_name :=
    if negb (str_empty stage_id) && negb (String.eqb stage_id "default")
    then stack_name +:+ stage_id +:+ "-"
    else stack_name in
  stack_name +:+ infra_type self.

(** The segments the name is made of, after the fall-back to the instance
    values: the prefix, the project when it is not empty, the stage when it
    is neither empty nor ['default'], the infrastructure type. *)
Definition stack_name_segments (self : ConfigManager)
    (prefix_arg project_id_arg stage_id_arg : string) : list string :=
  let p := if str_empty prefix_arg then prefix self else prefix_arg in
  let proj :=
    if str_empty project_id_arg then
      match project_id self with Some s => s | None => "" end
    else project_id_arg in
  let stage := if str_empty stage_id_arg then stage_id self else stage_id_arg in
  [p] ++ (if str_empty proj then [] else [proj])
      ++ (if str_empty stage || String.eqb stage "default" then [] else [stage])
      ++ [infra_type self].

(** ** Stage ordering of the serializer: [save_config] *)

(** The sort key [lambda x: (x[0] != 'd', x[0] != 't', x[0] != 'b',
    x[0] != 's', x[0] != 'p')]; [x[0]] raises on the empty string. *)
Definition stage_key (x : string) : result (bool * bool * bool * bool * bool) :=
  match x with
  | EmptyString => Raise IndexError
  | String c _ =>
      Ok (negb (Ascii.eqb c "d"), negb (Ascii.eqb c "t"), negb (Ascii.eqb c "b"),
          negb (Ascii.eqb c "s"), negb (Ascii.eqb c "p"))
  end.

(** [a < b] on [bool], where [False < True]. *)
Definition bool_lt (a b : bool) : bool := negb a && b.

(** Lexicographic [<] on the five-component key. *)
Definition key_lt (k1 k2 : bool * bool * bool * bool * bool) : bool :=
  let '(a1, b1, c1, d1, e1) := k1 in
  let '(a2, b2, c2, d2, e2) := k2 in
  if negb (Bool.eqb a1 a2) then bool_lt a1 a2
  else if negb (Bool.eqb b1 b2) then bool_lt b1 b2
  else if negb (Bool.eqb c1 c2) then bool_lt c1 c2
  else if negb (Bool.eqb d1 d2) then bool_lt d1 d2
  else bool_lt e1 e2.

Section Sorted.
Context {A K : Type} (lt : K -> K -> bool).

(** Stable insertion of an element that preceded all of [l] in the input:
    it passes the elements whose key is strictly smaller. *)
Fixpoint insert_keyed (x : A * K) (l : list (A * K)) : list (A * K) :=
  match l with
  | [] => [x]
  | y :: ys => if lt (snd y) (snd x) then y :: insert_keyed x ys else x :: y :: ys
  end.

Definition sort_keyed (l : list (A * K)) : list (A * K) :=
  fold_right insert_keyed [] l.

(** Every key is computed first, so one failing key fails the call. *)
Fixpoint decorate (key : A -> result K) (l : list A) : result (list (A * K)) :=
  match l with
  | [] => Ok []
  | x :: xs =>
      k ← key x;
      r ← decorate key xs;
      Ok ((x, k) :: r)
  end.

(** [sorted(l, key=key)]: a stable sort. *)
Definition sorted (key : A -> result K) (l : list A) : result (list A) :=
  d ← decorate key l;
  Ok (map fst (sort_keyed d)).
End Sorted.

(** The order in which [save_config] writes the deployment sections, given
    the stage identifiers in the insertion order of [config['deployments']]. *)
Definition save_config_stage_order (stages : list string) : result (list string) :=
  sorted key_lt stage_key stages.

(** The priority class of a stage: 0 for [d], 1 for [t], 2 for [b], 3 for
    [s], 4 for [p] and 5 for any other first character. *)
Definition stage_class (x : string) : nat :=
  match x with
  | EmptyString => 5
  | String c _ =>
      if Ascii.eqb c "d" then 0
      else if Ascii.eqb c "t" then 1
      else if Ascii.eqb c "b" then 2
      else if Ascii.eqb c "s" then 3
      else if Ascii.eqb c "p" then 4
      else 5
  end.

Definition in_class (n : nat) (x : string) : bool := Nat.eqb (stage_class x) n.

Definition by_class (stages : list string) : list string :=
  List.filter (in_class 0) stages ++ List.filter (in_class 1) stages
  ++ List.filter (in_class 2) stages ++ List.filter (in_class 3) stages
  ++ List.filter (in_class 4) stages ++ List.filter (in_class 5) stages.

(** The key of a stage of class [n]. *)
Definition key_of_class (n : nat) : bool * bool * bool * bool * bool :=
  (negb (Nat.eqb n 0), negb (Nat.eqb n 1), negb (Nat.eqb n 2),
   negb (Nat.eqb n 3), negb (Nat.eqb n 4)).

(** A decorated entry carries the key of its stage. *)
Definition keyed (p : string * (bool * bool * bool * bool * bool)) : Prop :=
  snd p = key_of_class (stage_class (fst p)).

(** Decorated entries compared by class. *)
Definition class_le (p q : string * (bool * bool * bool * bool * bool)) : Prop :=
  stage_class (fst p) <= stage_class (fst q).

Definition by_class_keyed (d : list (string * (bool * bool * bool * bool * bool))) :=
  List.filter (fun p => in_class 0 (fst p)) d
  ++ List.filter (fun p => in_class 1 (fst p)) d
  ++ List.filter (fun p => in_class 2 (fst p)) d
  ++ List.filter (fun p => in_class 3 (fst p)) d
  ++ List.filter (fun p => in_class 4 (fst p)) d
  ++ List.filter (fun p => in_class 5 (fst p)) d.

(** ** Dictionaries with string keys *)

Section Dict.
Context {V : Type}.

(** [d.get(k)]. *)
Fixpoint dict_get (d : list (string * V)) (k : string) : option V :=
  match d with
  | [] => None
  | (k', v) :: d' => if String.eqb k' k then Some v else dict_get d' k
  end.

(** [k in d]. *)
Definition dict_mem (k : string) (d : list (string * V)) : bool :=
  match dict_get d k with
  | Some _ => true
  | None => false
  end.

(** [d[k] = v]: a present key keeps its position, a new key is appended. *)
Fixpoint dict_set (d : list (string * V)) (k : string) (v : V) : list (string * V) :=
  match d with
  | [] => [(k, v)]
  | (k', v') :: d' =>
      if String.eqb k' k then (k', v) :: d' else (k', v') :: dict_set d' k v
  end.

(** The value of the last entry for [k] in a list of pairs. *)
Fixpoint assoc_last (l : list (string * V)) (k : string) : option V :=
  match l with
  | [] => None
  | (k', v) :: l' =>
      match assoc_last l' k with
      | Some w => Some w
      | None => if String.eqb k' k then Some v else None
      end
  end.
End Dict.

(** ** JSON values, as [json.load] returns them

    Numbers are integers: a JSON number with a fraction or an exponent is
    outside the model. *)
#[local] Unset Elimination Schemes.
Inductive json : Type :=
| JNull
| JBool (b : bool)
| JNum (n : Z)
| JStr (s : string)
| JList (l : list json)
| JDict (d : list (string * json)).
#[local] Set Elimination Schemes.

(** Structural induction through the nested lists. *)
Section JsonInd.
Context (P : json -> Prop).
Context (HNull : P JNull) (HBool : forall b, P (JBool b))
        (HNum : forall n, P (JNum n)) (HStr : forall s, P (JStr s))
        (HList : forall l, Forall P l -> P (JList l))
        (HDict : forall d, Forall (fun kv => P (snd kv)) d -> P (JDict d)).

Fixpoint json_ind (j : json) : P j :=
  match j with
  | JNull => HNull
  | JBool b => HBool b
  | JNum n => HNum n
  | JStr s => HStr s
  | JList l =>
      HList l ((fix go (l : list json) : Forall P l :=
                  match l with
                  | [] => @List.Forall_nil _ P
                  | x :: xs => @List.Forall_cons _ P x xs (json_ind x) (go xs)
                  end) l)
  | JDict d =>
      HDict d ((fix go (d : list (string * json))
                  : Forall (fun kv => P (snd kv)) d :=
                  match d with
                  | [] => @List.Forall_nil _ _
                  | kv :: xs =>
                      @List.Forall_cons _ (fun kv => P (snd kv)) kv xs
                        (json_ind (snd kv)) (go xs)
                  end) d)
  end.
End JsonInd.

(** [obj[key]] for a string subscript. *)
Definition getitem (obj : json) (key : string) : result json :=
  match obj with
  | JDict d =>
      match dict_get d key with
      | Some v => Ok v
      | None => Raise (KeyError key)
      end
  | _ => Raise TypeError
  end.

(** Lists and dictionaries cannot be dictionary keys. *)
Definition hashable (k : json) : bool :=
  match k with
  | JList _ | JDict _ => false
  | _ => true
  end.

(** [a == b] on hashable values; [True == 1] and [False == 0]. *)
Definition key_eqb (a b : json) : bool :=
  match a, b with
  | JNull, JNull => true
  | JBool x, JBool y => Bool.eqb x y
  | JBool x, JNum n | JNum n, JBool x => Z.eqb n (if x then 1 else 0)
  | JNum m, JNum n => Z.eqb m n
  | JStr x, JStr y => String.eqb x y
  | _, _ => false
  end.

(** The local [tag_dict] of [merge_tags]: keys are whatever ['Key'] held. *)
Fixpoint tag_dict_get (d : list (json * json)) (k : json) : option json :=
  match d with
  | [] => None
  | (k', v) :: d' => if key_eqb k' k then Some v else tag_dict_get d' k
  end.

Definition tag_dict_mem (k : json) (d : list (json * json)) : bool :=
  match tag_dict_get d k with
  | Some _ => true
  | None => false
  end.

Fixpoint tag_dict_set (d : list (json * json)) (k v : json) : list (json * json) :=
  match d with
  | [] => [(k, v)]
  | (k', v') :: d' =>
      if key_eqb k' k then (k', v) :: d' else (k', v') :: tag_dict_set d' k v
  end.

(** ** The tag merger: [merge_tags] *)

(** [key.startswith('atlantis:') or key.startswith('Atlantis')] on a string. *)
Definition protected (key : string) : bool :=
  startswith "atlantis:" key || startswith "Atlantis" key.

(** The same test on a dynamic value: only a [str] has [startswith]. *)
Definition key_protected (key : json) : result bool :=
  match key with
  | JStr s => Ok (protected s)
  | _ => Raise AttributeError
  end.

(** One step of [{tag['Key']: tag['Value'] for tag in original_tags}]. *)
Definition tag_dict_add (tag_dict : list (json * json)) (tag : json)
  : result (list (json * json)) :=
  k ← getitem tag "Key";
  v ← getitem tag "Value";
  if hashable k then Ok (tag_dict_set tag_dict k v) else Raise TypeError.

(** The body of [for new_tag in new_tags]. *)
Definition merge_step (tag_dict : list (json * json)) (new_tag : json)
  : result (list (json * json)) :=
  key ← getitem new_tag "Key";
  if negb (hashable key) then Raise TypeError
  else if tag_dict_mem key tag_dict then
    p ← key_protected key;
    if negb p then
      v ← getitem new_tag "Value";
      Ok (tag_dict_set tag_dict key v)
    else Ok tag_dict
  else
    v ← getitem new_tag "Value";
    Ok (tag_dict_set tag_dict key v).

(** A loop whose body may raise. *)
Fixpoint foldM {A B : Type} (f : A -> B -> result A) (l : list B) (a : A) : result A :=
  match l with
  | [] => Ok a
  | x :: xs => a' ← f a x; foldM f xs a'
  end.

Definition tag_of (kv : json * json) : json :=
  JDict [("Key", fst kv); ("Value", snd kv)].

Definition merge_tags (original_tags new_tags : list json) : result (list json) :=
  tag_dict ← foldM tag_dict_add original_tags [];
  tag_dict ← foldM merge_step new_tags tag_dict;
  Ok (map tag_of (tag_dict)).

(** *** Tags with string keys and values, the type [parse_tags] produces *)

Definition tag_obj (t : string * string) : json :=
  JDict [("Key", JStr (fst t)); ("Value", JStr (snd t))].

(** The value of the first entry for [k] in a list of pairs. *)
Definition assoc_first {V : Type} (l : list (string * V)) (k : string) : option V :=
  dict_get l k.

(** The merge on typed tags: what [merge_tags] computes on them. *)
Definition merge_pair (d : list (string * string)) (t : string * string)
  : list (string * string) :=
  if dict_mem (fst t) d && protected (fst t) then d
  else dict_set d (fst t) (snd t).

Definition merge_pairs (base overlay : list (string * string))
  : list (string * string) :=
  fold_left merge_pair overlay
    (fold_left (fun d t => dict_set d (fst t) (snd t)) base []).

(** The entry of [tag_dict] a typed tag gives. *)
Definition emb (t : string * string) : json * json := (JStr (fst t), JStr (snd t)).

(** ** Strings: [strip] and [split] *)

(** [c.isspace()] for a code point below 256. *)
Definition is_space (c : ascii) : bool :=
  match c with
  | "009" | "010" | "011" | "012" | "013" | "028" | "029" | "030" | "031"
  | " " | "133" | "160" => true
  | _ => false
  end%char.

(** [s.lstrip()]. *)
Fixpoint lstrip (s : string) : string :=
  match s with
  | EmptyString => EmptyString
  | String c s' => if is_space c then lstrip s' else s
  end.

(** [s.rstrip()]. *)
Fixpoint rstrip (s : string) : string :=
  match s with
  | EmptyString => EmptyString
  | String c s' =>
      match rstrip s' with
      | EmptyString => if is_space c then EmptyString else String c EmptyString
      | r => String c r
      end
  end.

(** [s.strip()]. *)
Definition strip (s : string) : string := rstrip (lstrip s).

(** [s.split(sep)] for a one-character separator: the fields between the
    separators, at least one. *)
Fixpoint split_chr (sep : ascii) (s : string) : list string :=
  match s with
  | EmptyString => [EmptyString]
  | String c s' =>
      if Ascii.eqb c sep then EmptyString :: split_chr sep s'
      else match split_chr sep s' with
           | [] => [String c EmptyString]
           | f :: fs => String c f :: fs
           end
  end.

(** [s.split(sep, 1)]: [None] when [sep] does not occur. *)
Fixpoint split_first (sep : ascii) (s : string) : option (string * string) :=
  match s with
  | EmptyString => None
  | String c s' =>
      if Ascii.eqb c sep then Some (EmptyString, s')
      else match split_first sep s' with
           | Some (a, b) => Some (String c a, b)
           | None => None
           end
  end.

(** ** Regular expressions: the part of [re] the validator relies on

    A compiled pattern of the regular fragment (no groups, back-references
    or look-around).  [re.match] anchors at the start of the value only. *)
Inductive regex : Type :=
| RNone                       (* matches nothing *)
| REps                        (* the empty pattern *)
| RChr (c : ascii)            (* a literal character *)
| RAny                        (* [.]: any character but a newline *)
| RSet (cs : list ascii)      (* [[...]]: one of the characters *)
| RNotSet (cs : list ascii)   (* [[^...]]: none of the characters *)
| RBol                        (* [^] *)
| REol                        (* [$] *)
| RCat (r1 r2 : regex)
| RAlt (r1 r2 : regex)
| RStar (r : regex).

Definition newline : ascii := "010"%char.

(** [$] matches at the end and before a final newline. *)
Definition eol_at (s : list ascii) : bool :=
  match s with
  | [] => true
  | [c] => Ascii.eqb c newline
  | _ => false
  end.

(** Whether [r] matches the empty string at a position. *)
Fixpoint nullable (bol eol : bool) (r : regex) : bool :=
  match r with
  | RNone | RChr _ | RAny | RSet _ | RNotSet _ => false
  | REps => true
  | RBol => bol
  | REol => eol
  | RCat r1 r2 => nullable bol eol r1 && nullable bol eol r2
  | RAlt r1 r2 => nullable bol eol r1 || nullable bol eol r2
  | RStar _ => true
  end.

(** What remains to be matched after [r] consumed [c] at a position. *)
Fixpoint deriv (bol eol : bool) (c : ascii) (r : regex) : regex :=
  match r with
  | RNone | REps | RBol | REol => RNone
  | RChr a => if Ascii.eqb a c then REps else RNone
  | RAny => if Ascii.eqb c newline then RNone else REps
  | RSet cs => if existsb (Ascii.eqb c) cs then REps else RNone
  | RNotSet cs => if existsb (Ascii.eqb c) cs then RNone else REps
  | RCat r1 r2 =>
      if nullable bol eol r1
      then RAlt (RCat (deriv bol eol c r1) r2) (deriv bol eol c r2)
      else RCat (deriv bol eol c r1) r2
  | RAlt r1 r2 => RAlt (deriv bol eol c r1) (deriv bol eol c r2)
  | RStar r1 => RCat (deriv bol eol c r1) (RStar r1)
  end.

(** Some prefix of [s] matches [r]. *)
Fixpoint match_prefix (bol : bool) (r : regex) (s : list ascii) : bool :=
  nullable bol (eol_at s) r
  || match s with
     | [] => false
     | c :: s' => match_prefix false (deriv bol (eol_at s) c r) s'
     end.

(** All of [s] matches [r]. *)
Fixpoint match_all (bol : bool) (r : regex) (s : list ascii) : bool :=
  match s with
  | [] => nullable bol true r
  | c :: s' => match_all false (deriv bol (eol_at s) c r) s'
  end.

(** [re.match(r, s) is not None]. *)
Definition re_match (r : regex) (s : string) : bool :=
  match_prefix true r (list_ascii_of_string s).

(** [re.fullmatch(r, s) is not None]. *)
Definition re_fullmatch (r : regex) (s : string) : bool :=
  match_all true r (list_ascii_of_string s).

(** ** The parameter validator: [validate_parameter] *)

(** An [AllowedPattern]: its text and its compiled form. *)
Record pattern : Type := {
  pattern_src : string;
  pattern_re : regex
}.

(** The returned dictionary [{"reason": ..., "valid": ...}]. *)
Record validation : Type := {
  reason : string;
  valid : bool
}.

Section Validator.
(** Python's [float]: the numbers, [float(s)] with [None] for
    [ValueError], [<] and the formatting of a number in an f-string. *)
Context {F : Type}.
Context (float_of_string : string -> option F).
Context (float_lt : F -> F -> bool).
Context (float_str : F -> string).

(** The keys of a CloudFormation parameter definition the validator
    reads; an absent key is [None] (or the empty list). *)
Record param_def : Type := {
  Type_ : option string;
  Default : option string;
  AllowedValues : list string;
  AllowedPattern : option pattern;
  MinLength : option Z;
  MaxLength : option Z;
  MinValue : option F;
  MaxValue : option F
}.

Definition nat_str (n : Z) : string :=
  NilEmpty.string_of_int (Z.to_int n).

Definition invalid (r : string) : validation := {| reason := r; valid := false |}.
Definition is_valid : validation := {| reason := "Valid"; valid := true |}.

Definition str_in (x : string) (l : list string) : bool := existsb (String.eqb x) l.

Definition all_floats (items : list string) : bool :=
  forallb (fun item => match float_of_string item with Some _ => true | None => false end)
    items.

(** The type-specific part; [None] when it lets the value through. *)
Definition type_check (value : string) (param_def : param_def) : option validation :=
  let param_type := match Type_ param_def with Some t => t | None => "String" end in
  if str_in param_type ["String"; "AWS::SSM::Parameter::Value<String>"] then
    let min_length := match MinLength param_def with Some n => n | None => 0%Z end in
    let max_length := MaxLength param_def in
    if (Z.of_nat (String.length value) <? min_length)%Z then
      Some (invalid ("String length must be at least " +:+ nat_str min_length))
    else
      match max_length with
      | Some m =>
          if (m <? Z.of_nat (String.length value))%Z then
            Some (invalid ("String length must be no more than " +:+ nat_str m))
          else None
      | None => None
      end
  else if str_in param_type ["Number"; "AWS::SSM::Parameter::Value<Number>"] then
    match float_of_string value with
    | Some num_value =>
        let above_max :=
          match MaxValue param_def with
          | Some max_value =>
              if float_lt max_value num_value then
                Some (invalid ("Number must be no more than " +:+ float_str max_value))
              else None
          | None => None
          end in
        match MinValue param_def with
        | Some min_value =>
            if float_lt num_value min_value then
              Some (invalid ("Number must be at least " +:+ float_str min_value))
            else above_max
        | None => above_max
        end
    | None => Some (invalid "Value must be a number")
    end
  else if String.eqb param_type "CommaDelimitedList" then
    let items := map strip (split_chr "," value) in
    if negb (forallb (fun item => negb (str_empty item)) items) then
      Some (invalid "CommaDelimitedList cannot contain empty items")
    else None
  else if String.eqb param_type "List<Number>" then
    let items := map strip (split_chr "," value) in
    if all_floats items then None
    else Some (invalid "All items must be valid numbers")
  else if String.eqb param_type "AWS::EC2::KeyPair::KeyName" then
    if str_empty value then Some (invalid "KeyPair name cannot be empty") else None
  else if String.eqb param_type "AWS::EC2::VPC::Id" then
    if negb (startswith "vpc-" value)
    then Some (invalid "VPC ID must start with 'vpc-'") else None
  else if String.eqb param_type "AWS::EC2::Subnet::Id" then
    if negb (startswith "subnet-" value)
    then Some (invalid "Subnet ID must start with 'subnet-'") else None
  else if String.eqb param_type "AWS::EC2::SecurityGroup::Id" then
    if negb (startswith "sg-" value)
    then Some (invalid "Security Group ID must start with 'sg-'") else None
  else None.

Definition validate_parameter (value : string) (param_def : param_def) : validation :=
  if str_empty value && (match Default param_def with Some _ => true | None => false end)
  then is_valid
  else
    let allowed_values := AllowedValues param_def in
    if negb (match allowed_values with [] => true | _ => false end)
       && negb (str_in value allowed_values)
    then invalid ("Value must be one of: " +:+ join ", " allowed_values)
    else
      let allowed_pattern := AllowedPattern param_def in
      match allowed_pattern with
      | Some p =>
          if negb (str_empty (pattern_src p)) && negb (re_match (pattern_re p) value)
          then invalid ("Value must match pattern: " +:+ pattern_src p)
          else match type_check value param_def with
               | Some r => r
               | None => is_valid
               end
      | None =>
          match type_check value param_def with
          | Some r => r
          | None => is_valid
          end
      end.
End Validator.

(** The pattern [^z.*] of the specification's example. *)
Definition z_pattern : pattern :=
  {| pattern_src := "^z.*";
     pattern_re := RCat RBol (RCat (RChr "z") (RStar RAny)) |}.

(** The pattern [a]. *)
Definition a_pattern : pattern := {| pattern_src := "a"; pattern_re := RChr "a" |}.

(** ** The differ: [compare_configurations] *)

(** The values a configuration holds: strings, and the booleans of the
    deploy parameters ([confirm_changeset]). *)
Inductive cfg_value : Type :=
| VStr (s : string)
| VBool (b : bool).

Definition cfg_eqb (a b : cfg_value) : bool :=
  match a, b with
  | VStr x, VStr y => String.eqb x y
  | VBool x, VBool y => Bool.eqb x y
  | _, _ => false
  end.

(** [a == b] where either side may be [None], as [dict.get] returns it. *)
Definition opt_eqb (a b : option cfg_value) : bool :=
  match a, b with
  | Some x, Some y => cfg_eqb x y
  | None, None => true
  | _, _ => false
  end.

(** [format_value]: [str(value) if value is not None else 'None']. *)
Definition format_value (value : option cfg_value) : string :=
  match value with
  | Some (VStr s) => s
  | Some (VBool true) => "True"
  | Some (VBool false) => "False"
  | None => "None"
  end.

(** [config['deployments'][stage]['deploy']['parameters']], as far as the
    differ reads it. *)
Record deploy_parameters : Type := {
  parameter_overrides : list (string * cfg_value);
  tags : list (string * cfg_value)
}.

(** A configuration: [config['atlantis']['deploy']['parameters']] and the
    deployments by stage. *)
Record config : Type := {
  atlantis : list (string * cfg_value);
  deployments : list (string * deploy_parameters)
}.

(** One block printed by [print_comparison]; [same] is the colour. *)
Record comparison : Type := {
  name : string;
  local_str : string;
  stack_str : string;
  same : bool
}.

Definition print_comparison (name : string) (local_val stack_val : option cfg_value)
  : comparison :=
  let local_str := format_value local_val in
  let stack_str := format_value stack_val in
  {| name := name; local_str := local_str; stack_str := stack_str;
     same := String.eqb local_str stack_str |}.

(** Insertion into a strictly increasing list of keys. *)
Fixpoint insert_key (k : string) (l : list string) : list string :=
  match l with
  | [] => [k]
  | x :: xs =>
      if String.eqb k x then l
      else if String.ltb k x then k :: l
      else x :: insert_key k xs
  end.

(** [sorted(set(a.keys()) | set(b.keys()))]. *)
Definition sorted_keys (a b : list (string * cfg_value)) : list string :=
  fold_right insert_key [] (map fst a ++ map fst b).

(** One of the three loops of the differ, threading [differences] and the
    printed comparisons. *)
Definition compare_domain (local stack : list (string * cfg_value))
    (state : bool * list comparison) : bool * list comparison :=
  fold_left
    (fun st key =>
       let local_value := dict_get local key in
       let stack_value := dict_get stack key in
       (if negb (opt_eqb local_value stack_value) then true else fst st,
        snd st ++ [print_comparison key local_value stack_value]))
    (sorted_keys local stack) state.

(** [{tag['Key']: tag['Value'] for tag in tags}]. *)
Definition tags_dict (tags : list (string * cfg_value)) : list (string * cfg_value) :=
  fold_left (fun d t => dict_set d (fst t) (snd t)) tags [].

(** The parameters of a stage; an absent stage reads as empty. *)
Definition stage_parameters (stage : string) (c : config) : deploy_parameters :=
  match dict_get (deployments c) stage with
  | Some p => p
  | None => {| parameter_overrides := []; tags := [] |}
  end.

(** [if key in local: stack[key] = local[key]]. *)
Definition copy_key (key : string) (local stack : list (string * cfg_value))
  : list (string * cfg_value) :=
  match dict_get local key with
  | Some v => dict_set stack key v
  | None => stack
  end.

(** The deploy parameters of the stack after the non-essential keys were
    copied over from the local ones. *)
Definition copy_non_essentials (local stack : list (string * cfg_value))
  : list (string * cfg_value) :=
  copy_key "s3_bucket" local (copy_key "confirm_changeset" local stack).

Definition compare_configurations (stage_id : string) (local_config stack_config : config)
  : bool * list comparison :=
  let differences := false in
  let local_params := stage_parameters stage_id local_config in
  let local_parameter_overrides := parameter_overrides local_params in
  let local_atlantis_params := atlantis local_config in
  let local_tags := tags local_params in
  let stack_params := stage_parameters stage_id stack_config in
  let stack_parameter_overrides := parameter_overrides stack_params in
  let stack_atlantis_params := atlantis stack_config in
  let stack_tags := tags stack_params in
  let stack_atlantis_params :=
    copy_non_essentials local_atlantis_params stack_atlantis_params in
  let local_tags_dict := tags_dict local_tags in
  let stack_tags_dict := tags_dict stack_tags in
  let st := compare_domain local_parameter_overrides stack_parameter_overrides
              (differences, []) in
  let st := compare_domain local_atlantis_params stack_atlantis_params st in
  let st := compare_domain local_tags_dict stack_tags_dict st in
  st.

(** A key of either dictionary on which the two differ, [None] standing
    for an absent key. *)
Definition mismatch (local stack : list (string * cfg_value)) : Prop :=
  exists key, (In key (map fst local) \/ In key (map fst stack))
              /\ dict_get local key <> dict_get stack key.

(** The same after both sides went through [format_value]. *)
Definition mismatch_formatted (local stack : list (string * cfg_value)) : Prop :=
  exists key, (In key (map fst local) \/ In key (map fst stack))
              /\ format_value (dict_get local key) <> format_value (dict_get stack key).

(** ** The tokenizer: [shlex] in POSIX mode

    [shlex.split(s)] and the lexer [parse_tags] configures read tokens with
    the same automaton: POSIX mode, [whitespace_split] set, no comment
    characters, no punctuation characters.  The state is [' '] between
    tokens, ['a'] in a word, a quote character inside quotes, and the
    escape character after a backslash, which remembers the state to
    return to. *)
Inductive lex_state : Type :=
| InSpace
| InWord
| InQuote (q : ascii)
| InEscape (escapedstate : lex_state).

(** The double quote and the backslash. *)
Definition dquote : ascii := "034"%char.
Definition backslash : ascii := "092"%char.

Definition is_whitespace (c : ascii) : bool :=
  match c with
  | " " | "009" | "013" | "010" => true
  | _ => false
  end%char.

Definition is_quote (c : ascii) : bool :=
  match c with
  | "'" | "034" => true
  | _ => false
  end%char.

Definition is_escape (c : ascii) : bool := Ascii.eqb c backslash.

Definition is_escapedquote (c : ascii) : bool := Ascii.eqb c dquote.

(** [token += c]. *)
Definition add_char (token : string) (c : ascii) : string :=
  token +:+ String c EmptyString.

(** The tokens read from [input], given the lexer's [state], the [quoted]
    flag and the [token] read so far. *)
Fixpoint read_tokens (state : lex_state) (quoted : bool) (token : string)
    (input : string) : result (list string) :=
  match input with
  | EmptyString =>
      match state with
      | InQuote _ => Raise (ValueError "No closing quotation")
      | InEscape _ => Raise (ValueError "No escaped character")
      | InSpace | InWord =>
          if negb (str_empty token) || quoted then Ok [token] else Ok []
      end
  | String nextchar rest =>
      match state with
      | InSpace =>
          if is_whitespace nextchar then
            if negb (str_empty token) || quoted then
              toks ← read_tokens InSpace false EmptyString rest; Ok (token :: toks)
            else read_tokens InSpace quoted token rest
          else if is_escape nextchar then
            read_tokens (InEscape InWord) quoted token rest
          else if is_quote nextchar then
            read_tokens (InQuote nextchar) quoted token rest
          else read_tokens InWord quoted (String nextchar EmptyString) rest
      | InQuote q =>
          if Ascii.eqb nextchar q then read_tokens InWord true token rest
          else if is_escape nextchar && is_escapedquote q then
            read_tokens (InEscape (InQuote q)) true token rest
          else read_tokens (InQuote q) true (add_char token nextchar) rest
      | InEscape escapedstate =>
          let token :=
            match escapedstate with
            | InQuote q =>
                if negb (is_escape nextchar) && negb (Ascii.eqb nextchar q)
                then add_char token backslash else token
            | _ => token
            end in
          read_tokens escapedstate quoted (add_char token nextchar) rest
      | InWord =>
          if is_whitespace nextchar then
            if negb (str_empty token) || quoted then
              toks ← read_tokens InSpace false EmptyString rest; Ok (token :: toks)
            else read_tokens InSpace quoted token rest
          else if is_quote nextchar then
            read_tokens (InQuote nextchar) quoted token rest
          else if is_escape nextchar then
            read_tokens (InEscape InWord) quoted token rest
          else read_tokens InWord quoted (add_char token nextchar) rest
      end
  end.

(** [shlex.split(s)]. *)
Definition shlex_split (s : string) : result (list string) :=
  read_tokens InSpace false EmptyString s.

(** ** The samconfig parsers and serializers *)

(** An entry written to the log. *)
Inductive log_entry : Type :=
| LogInfo (msg : string)
| LogWarning (msg : string)
| LogError (msg : string).

(** [str(e)] for an exception: the message where the exception carries
    one, the name of its class otherwise. *)
Definition exn_str (e : exn) : string :=
  match e with
  | ValueError msg => msg
  | KeyError key => "'" +:+ key +:+ "'"
  | TypeError => "TypeError"
  | AttributeError => "AttributeError"
  | IndexError => "IndexError"
  | RuntimeError => "RuntimeError"
  | RecursionError => "RecursionError"
  | JSONDecodeError => "JSONDecodeError"
  end.

(** The body of [for part in parts], on the dictionary and the log. *)
Definition parse_part (st : list (string * string) * list log_entry) (part : string)
  : list (string * string) * list log_entry :=
  match split_first "=" part with
  | Some (key, value) => (dict_set (fst st) (strip key) (strip value), snd st)
  | None =>
      (fst st, snd st ++ [LogWarning ("Skipping invalid parameter format: " +:+ part)])
  end.

(** [parse_parameter_overrides]: the dictionary returned and what was
    logged. *)
Definition parse_parameter_overrides (parameter_string : string)
  : list (string * string) * list log_entry :=
  let parameters : list (string * string) := [] in
  if str_empty parameter_string then (parameters, [])
  else
    match shlex_split parameter_string with
    | Ok parts => fold_left parse_part parts (parameters, [])
    | Raise e =>
        (parameters, [LogError ("Error parsing parameter overrides: " +:+ exn_str e)])
    end.

(** [f'"{key}"="{value}"']. *)
Definition quote_pair (kv : string * string) : string :=
  String dquote (fst kv +:+ String dquote (String "=" (String dquote
    (snd kv +:+ String dquote EmptyString)))).

Definition stringify_parameter_overrides
    (parameter_overrides_as_dict : list (string * string)) : string :=
  join " " (map quote_pair parameter_overrides_as_dict).

(** [s.strip(chars)] for the characters [chars]. *)
Fixpoint lstrip_chars (chars : list ascii) (s : string) : string :=
  match s with
  | EmptyString => EmptyString
  | String c s' => if existsb (Ascii.eqb c) chars then lstrip_chars chars s' else s
  end.

Fixpoint rstrip_chars (chars : list ascii) (s : string) : string :=
  match s with
  | EmptyString => EmptyString
  | String c s' =>
      match rstrip_chars chars s' with
      | EmptyString =>
          if existsb (Ascii.eqb c) chars then EmptyString else String c EmptyString
      | r => String c r
      end
  end.

Definition strip_chars (chars : list ascii) (s : string) : string :=
  rstrip_chars chars (lstrip_chars chars s).

(** The body of the loop of [parse_tags] for one token. *)
Definition parse_tag_token (tags : list (string * string)) (token : string)
  : result (list (string * string)) :=
  if str_empty token then Ok tags
  else
    match split_first "=" token with
    | None =>
        Raise (ValueError
                 ("Invalid tag format. Each tag must be in 'key=value' format: "
                  +:+ token))
    | Some (key, value) =>
        let key := strip_chars [dquote; "'"%char] (strip key) in
        let value := strip_chars [dquote; "'"%char] (strip value) in
        if str_empty key || str_empty value then
          Raise (ValueError ("Empty key or value not allowed: " +:+ token))
        else Ok (tags ++ [(key, value)])
    end.

(** [parse_tags]: every [ValueError] of the body is raised again with the
    prefix of the outer handler. *)
Definition parse_tags (tag_string : string) : result (list (string * string)) :=
  if str_empty tag_string then Ok []
  else
    match (tokens ← read_tokens InSpace false EmptyString tag_string;
           foldM parse_tag_token tokens []) with
    | Ok tags => Ok tags
    | Raise (ValueError msg) => Raise (ValueError ("Error parsing tags: " +:+ msg))
    | Raise e => Raise e
    end.

(** [c in s]. *)
Fixpoint has_char (c : ascii) (s : string) : bool :=
  match s with
  | EmptyString => false
  | String x s' => Ascii.eqb x c || has_char c s'
  end.

(** Text that reads back unchanged between double quotes: no double quote
    and no backslash, and nothing for [strip] to remove. *)
Definition quotable (s : string) : Prop :=
  has_char dquote s = false /\ has_char backslash s = false /\ strip s = s.

(** A pair the serialized form preserves. *)
Definition round_trips (kv : string * string) : Prop :=
  quotable (fst kv) /\ has_char "=" (fst kv) = false /\ quotable (snd kv).

(** ** The defaults resolver: [deep_update] and [load_defaults]

    [json.load] returns a fresh tree for every file, so the layers share no
    object with each other or with [defaults]; on such values the call
    [deep_update(original, update)] is determined by the two trees.  The
    function below gives the contents of [original] when the call ends and
    the exception that ended it, if any: what an earlier iteration wrote
    stays written when a later one raises.  The store semantics, with object
    identity, is [Store.deep_update]. *)
Fixpoint deep_update (original : list (string * json)) (update : json) {struct update}
  : list (string * json) * option exn :=
  match update with
  | JDict items =>
      (fix loop (original : list (string * json)) (items : list (string * json))
           {struct items} : list (string * json) * option exn :=
         match items with
         | [] => (original, None)
         | (key, value) :: rest =>
             match dict_get original key, value with
             | Some (JDict child), JDict _ =>
                 let (child', e) := deep_update child value in
                 let original := dict_set original key (JDict child') in
                 match e with
                 | Some _ => (original, e)
                 | None => loop original rest
                 end
             | Some (JList old), JList new =>
                 match merge_tags old new with
                 | Ok merged => loop (dict_set original key (JList merged)) rest
                 | Raise e => (original, Some e)
                 end
             | _, _ => loop (dict_set original key value) rest
             end
         end) original items
  | _ => (original, Some AttributeError)
  end.

(** What [open] and [json.load] give for a path: no such file, an
    exception, or the parsed value. *)
Inductive layer : Type :=
| Missing
| Failed (e : exn)
| Loaded (new_config : json).

(** The files [load_defaults] looks for, in order. *)
Definition config_files (self : ConfigManager) : list string :=
  let settings_dir := "defaults" in
  [settings_dir +:+ "/defaults.json";
   settings_dir +:+ "/" +:+ prefix self +:+ "-defaults.json"]
  ++ (if truthy (project_id self)
      then [settings_dir +:+ "/" +:+ prefix self +:+ "-" +:+ str_of (project_id self)
            +:+ "-defaults.json"]
      else [])
  ++ [settings_dir +:+ "/" +:+ infra_type self +:+ "/defaults.json";
      settings_dir +:+ "/" +:+ infra_type self +:+ "/" +:+ prefix self
        +:+ "-defaults.json";
      settings_dir +:+ "/" +:+ infra_type self +:+ "/" +:+ prefix self +:+ "-"
        +:+ str_of (project_id self) +:+ "-defaults.json"].

(** The body of [for config_file in config_files], on [defaults] and the
    log. *)
Definition load_layer (fs : string -> layer)
    (st : list (string * json) * list log_entry) (config_file : string)
  : list (string * json) * list log_entry :=
  match fs config_file with
  | Missing => st
  | Failed JSONDecodeError =>
      (fst st, snd st ++ [LogError ("Error parsing JSON from " +:+ config_file
                                    +:+ ": " +:+ exn_str JSONDecodeError)])
  | Failed e =>
      (fst st, snd st ++ [LogError ("Error loading config file " +:+ config_file
                                    +:+ ": " +:+ exn_str e)])
  | Loaded new_config =>
      match deep_update (fst st) new_config with
      | (defaults, None) =>
          (defaults, snd st ++ [LogInfo ("Loaded config from '" +:+ config_file +:+ "'")])
      | (defaults, Some e) =>
          (defaults, snd st ++ [LogError ("Error loading config file " +:+ config_file
                                          +:+ ": " +:+ exn_str e)])
      end
  end.

(** The layers applied in order to an empty [defaults]. *)
Definition resolve (fs : string -> layer) (files : list string)
  : list (string * json) * list log_entry :=
  fold_left (load_layer fs) files ([], []).

Definition load_defaults (self : ConfigManager) (fs : string -> layer)
  : list (string * json) * list log_entry :=
  resolve fs (config_files self).

(** The entries the tokens with an equals sign give, in order. *)
Definition part_pairs (parts : list string) : list (string * string) :=
  flat_map (fun part =>
              match split_first "=" part with
              | Some (key, value) => [(strip key, strip value)]
              | None => []
              end) parts.

(** The warnings the tokens without an equals sign give, in order. *)
Definition part_warnings (parts : list string) : list log_entry :=
  flat_map (fun part =>
              match split_first "=" part with
              | Some _ => []
              | None => [LogWarning ("Skipping invalid parameter format: " +:+ part)]
              end) parts.

(** A tag with a string key, as a dynamic value. *)
Definition tag_entry (t : string * json) : json * json := (JStr (fst t), snd t).

(** A tag list whose keys are strings and pairwise distinct. *)
Definition tag_list (l : list json) : Prop :=
  exists tags : list (string * json),
    l = map tag_of (map tag_entry tags) /\ List.NoDup (map fst tags).

(** A fragment whose dictionaries have pairwise distinct keys, as every
    Python dictionary has, and whose list-valued entries are such tag
    lists. *)
Fixpoint well_formed (j : json) : Prop :=
  match j with
  | JDict d =>
      List.NoDup (map fst d)
      /\ (fix all (d : list (string * json)) : Prop :=
            match d with
            | [] => True
            | kv :: d' => well_formed (snd kv) /\ all d'
            end) d
  | JList l => tag_list l
  | _ => True
  end.

(** The loop of [deep_update] over the items of [update]. *)
Fixpoint update_items (original items : list (string * json))
  : list (string * json) * option exn :=
  match items with
  | [] => (original, None)
  | (key, value) :: rest =>
      match dict_get original key, value with
      | Some (JDict child), JDict _ =>
          let (child', e) := deep_update child value in
          let original := dict_set original key (JDict child') in
          match e with
          | Some _ => (original, e)
          | None => update_items original rest
          end
      | Some (JList old), JList new =>
          match merge_tags old new with
          | Ok merged => update_items (dict_set original key (JList merged)) rest
          | Raise e => (original, Some e)
          end
      | _, _ => update_items (dict_set original key value) rest
      end
  end.

(** The keys of [tag_dict] are hashable and pairwise different. *)
Fixpoint tag_dict_ok (d : list (json * json)) : Prop :=
  match d with
  | [] => True
  | (k, _) :: d' => hashable k = true /\ tag_dict_get d' k = None /\ tag_dict_ok d'
  end.

(** The body of the overlay loop on a tag with a string key. *)
Definition merge_entry (d : list (json * json)) (t : string * json)
  : list (json * json) :=
  if tag_dict_mem (JStr (fst t)) d && protected (fst t) then d
  else tag_dict_set d (JStr (fst t)) (snd t).

(** The entry [w] of [original] is left as it is by an update with [v]. *)
Definition fixed (w v : json) : Prop :=
  match w, v with
  | JDict child, JDict _ => deep_update child v = (child, None)
  | JList old, JList new => merge_tags old new = Ok old
  | _, _ => w = v
  end.

(** Updating twice with [v] is the same as updating once. *)
Definition idempotent (v : json) : Prop :=
  forall original,
    deep_update (fst (deep_update original v)) v = deep_update original v.

(** Two defaults files: the global one and one for the prefix acme. *)
Definition example_layers (path : string) : layer :=
  if String.eqb path "defaults/defaults.json"
  then Loaded (JDict [("atlantis", JDict [("region", JStr "us-east-1")])])
  else if String.eqb path "defaults/acme-defaults.json"
  then Loaded (JDict [("atlantis", JDict [("region", JStr "us-west-2")]);
                      ("tags", JList [tag_of (JStr "Owner", JStr "ops")])])
  else Missing.

(** ** The store semantics of the tag merger and the defaults resolver

    Dictionaries and lists are objects of a store; a value is a scalar or a
    reference to an object, so that two names can denote the same object and
    a write through one is seen through the other.  A location is an index
    into the store and allocation appends. *)
Module Store.

Inductive val : Type :=
| Null
| Bool (b : bool)
| Num (n : Z)
| Str (s : string)
| Ref (l : nat).

Inductive obj : Type :=
| Dict (items : list (string * val))
| List (items : list val).

(** The items of the dictionary [v] refers to, if it is one. *)
Definition dict_items (h : list obj) (v : val) : option (list (string * val)) :=
  match v with
  | Ref l => match h !! l with
             | Some (Dict d) => Some d
             | _ => None
             end
  | _ => None
  end.

(** The items of the list [v] refers to, if it is one. *)
Definition list_items (h : list obj) (v : val) : option (list val) :=
  match v with
  | Ref l => match h !! l with
             | Some (List vs) => Some vs
             | _ => None
             end
  | _ => None
  end.

(** [isinstance(v, dict)] and [isinstance(v, list)]. *)
Definition is_dict (h : list obj) (v : val) : bool :=
  match dict_items h v with Some _ => true | None => false end.

Definition is_list (h : list obj) (v : val) : bool :=
  match list_items h v with Some _ => true | None => false end.

(** [v[key]] for a string subscript. *)
Definition getitem (h : list obj) (v : val) (key : string) : result val :=
  match dict_items h v with
  | Some d =>
      match dict_get d key with
      | Some x => Ok x
      | None => Raise (KeyError key)
      end
  | None => Raise TypeError
  end.

(** [d[key] = value] on the dictionary at [l]. *)
Definition setitem (h : list obj) (l : nat) (key : string) (value : val) : list obj :=
  match h !! l with
  | Some (Dict d) => <[l := Dict (dict_set d key value)]> h
  | _ => h
  end.

Definition hashable (k : val) : bool :=
  match k with
  | Ref _ => false
  | _ => true
  end.

Definition key_eqb (a b : val) : bool :=
  match a, b with
  | Null, Null => true
  | Bool x, Bool y => Bool.eqb x y
  | Bool x, Num n | Num n, Bool x => Z.eqb n (if x then 1 else 0)
  | Num m, Num n => Z.eqb m n
  | Str x, Str y => String.eqb x y
  | _, _ => false
  end.

Fixpoint tag_dict_get (d : list (val * val)) (k : val) : option val :=
  match d with
  | [] => None
  | (k', v) :: d' => if key_eqb k' k then Some v else tag_dict_get d' k
  end.

Definition tag_dict_mem (k : val) (d : list (val * val)) : bool :=
  match tag_dict_get d k with
  | Some _ => true
  | None => false
  end.

Fixpoint tag_dict_set (d : list (val * val)) (k v : val) : list (val * val) :=
  match d with
  | [] => [(k, v)]
  | (k', v') :: d' =>
      if key_eqb k' k then (k', v) :: d' else (k', v') :: tag_dict_set d' k v
  end.

Definition key_protected (key : val) : result bool :=
  match key with
  | Str s => Ok (protected s)
  | _ => Raise AttributeError
  end.

Definition tag_dict_add (h : list obj) (tag_dict : list (val * val)) (tag : val)
  : result (list (val * val)) :=
  k ← getitem h tag "Key";
  v ← getitem h tag "Value";
  if hashable k then Ok (tag_dict_set tag_dict k v) else Raise TypeError.

Definition merge_step (h : list obj) (tag_dict : list (val * val)) (new_tag : val)
  : result (list (val * val)) :=
  key ← getitem h new_tag "Key";
  if negb (hashable key) then Raise TypeError
  else if tag_dict_mem key tag_dict then
    p ← key_protected key;
    if negb p then
      v ← getitem h new_tag "Value";
      Ok (tag_dict_set tag_dict key v)
    else Ok tag_dict
  else
    v ← getitem h new_tag "Value";
    Ok (tag_dict_set tag_dict key v).

(** The new objects of the returned list: one dictionary per entry of
    [tag_dict], then the list that refers to them. *)
Definition new_tags_objects (base : nat) (tag_dict : list (val * val)) : list obj :=
  map (fun kv => Dict [("Key", fst kv); ("Value", snd kv)]) tag_dict
  ++ [List (map Ref (seq base (length tag_dict)))].

(** [merge_tags]: the store after the call and the reference returned.  The
    local [tag_dict] is not an object of the store: it never escapes. *)
Definition merge_tags (original_tags new_tags : val) (h : list obj)
  : list obj * result val :=
  match list_items h original_tags, list_items h new_tags with
  | Some olds, Some news =>
      match (tag_dict ← foldM (tag_dict_add h) olds [];
             foldM (merge_step h) news tag_dict) with
      | Ok tag_dict =>
          (h ++ new_tags_objects (length h) tag_dict,
           Ok (Ref (length h + length tag_dict)))
      | Raise e => (h, Raise e)
      end
  | _, _ => (h, Raise TypeError)
  end.

(** The loop [for key, value in update.items()] of [deep_update], from the
    entry [i] on; [recurse] is the recursive call and [size] the size of
    [update] when the loop began.  The entries are read as the interpreter
    reads them, one by one from the live dictionary, and the loop fails
    when the size of the dictionary changed. *)
Fixpoint update_loop (recurse : val -> val -> list obj -> list obj * result val)
    (original update : val) (size i remaining : nat) (h : list obj)
  : list obj * result val :=
  match dict_items h update with
  | None => (h, Raise RuntimeError)
  | Some items =>
      if negb (Nat.eqb (length items) size) then (h, Raise RuntimeError)
      else
        match remaining, items !! i with
        | S remaining, Some (key, value) =>
            match original with
            | Ref lo =>
                match h !! lo with
                | Some (Dict od) =>
                    match dict_get od key with
                    | Some child =>
                        if is_dict h child && is_dict h value then
                          match recurse child value h with
                          | (h', Ok _) =>
                              update_loop recurse original update size (S i) remaining h'
                          | (h', Raise e) => (h', Raise e)
                          end
                        else if is_list h child && is_list h value then
                          match merge_tags child value h with
                          | (h', Ok merged) =>
                              update_loop recurse original update size (S i) remaining
                                (setitem h' lo key merged)
                          | (h', Raise e) => (h', Raise e)
                          end
                        else
                          update_loop recurse original update size (S i) remaining
                            (setitem h lo key value)
                    | None =>
                        update_loop recurse original update size (S i) remaining
                          (setitem h lo key value)
                    end
                | _ => (h, Raise TypeError)
                end
            | _ => (h, Raise TypeError)
            end
        | _, _ => (h, Ok original)
        end
  end.

(** [deep_update]: the store after the call and the reference returned.
    [fuel] bounds the depth of the recursion, as the interpreter does. *)
Fixpoint deep_update (fuel : nat) (original update : val) (h : list obj)
  : list obj * result val :=
  match fuel with
  | 0 => (h, Raise RecursionError)
  | S fuel =>
      match dict_items h update with
      | None => (h, Raise AttributeError)
      | Some items =>
          update_loop (deep_update fuel) original update (length items) 0
            (length items) h
      end
  end.

(** A tree of [json.load] placed in the store: fresh objects throughout. *)
Fixpoint alloc (j : json) (h : list obj) : list obj * val :=
  match j with
  | JNull => (h, Null)
  | JBool b => (h, Bool b)
  | JNum n => (h, Num n)
  | JStr s => (h, Str s)
  | JList l =>
      let '(h, vs) :=
        (fix go (l : list json) (h : list obj) : list obj * list val :=
           match l with
           | [] => (h, [])
           | x :: xs =>
               let '(h, v) := alloc x h in
               let '(h, vs) := go xs h in
               (h, v :: vs)
           end) l h in
      (h ++ [List vs], Ref (length h))
  | JDict d =>
      let '(h, items) :=
        (fix go (d : list (string * json)) (h : list obj)
           : list obj * list (string * val) :=
           match d with
           | [] => (h, [])
           | kv :: xs =>
               let '(h, v) := alloc (snd kv) h in
               let '(h, items) := go xs h in
               (h, (fst kv, v) :: items)
           end) d h in
      (h ++ [Dict items], Ref (length h))
  end.

(** The tree a value denotes in a store, read to the depth [fuel]. *)
Fixpoint read (fuel : nat) (h : list obj) (v : val) : option json :=
  match v with
  | Null => Some JNull
  | Bool b => Some (JBool b)
  | Num n => Some (JNum n)
  | Str s => Some (JStr s)
  | Ref l =>
      match fuel with
      | 0 => None
      | S fuel =>
          match h !! l with
          | Some (List vs) =>
              option_map JList
                ((fix go (vs : list val) : option (list json) :=
                    match vs with
                    | [] => Some []
                    | x :: xs =>
                        match read fuel h x, go xs with
                        | Some j, Some js => Some (j :: js)
                        | _, _ => None
                        end
                    end) vs)
          | Some (Dict d) =>
              option_map JDict
                ((fix go (d : list (string * val)) : option (list (string * json)) :=
                    match d with
                    | [] => Some []
                    | kv :: xs =>
                        match read fuel h (snd kv), go xs with
                        | Some j, Some js => Some ((fst kv, j) :: js)
                        | _, _ => None
                        end
                    end) d)
          | None => None
          end
      end
  end.

End Store.

(** A defaults dictionary and a layer that exercise the three branches of
    [deep_update]: a nested dictionary, a tag list and a new key. *)
Definition example_original : list (string * json) :=
  [("atlantis", JDict [("region", JStr "us-east-1"); ("confirm_changeset", JBool true)]);
   ("tags", JList [tag_of (JStr "Owner", JStr "alice");
                   tag_of (JStr "atlantis:App", JStr "v1")])].

Definition example_update : json :=
  JDict [("atlantis", JDict [("region", JStr "us-west-2")]);
         ("tags", JList [tag_of (JStr "Owner", JStr "bob");
                         tag_of (JStr "atlantis:App", JStr "v2");
                         tag_of (JStr "Team", JStr "infra")]);
         ("parameter_overrides", JDict [("Prefix", JStr "acme")])].

(** [deep_update] run in a store on fresh copies of two trees: the value
    returned, and the tree [original] denotes afterwards. *)
Definition run_in_store (fuel : nat) (original : list (string * json)) (update : json)
  : result Store.val * Store.val * option json :=
  let '(h, o) := Store.alloc (JDict original) [] in
  let '(h, u) := Store.alloc update h in
  let '(h, r) := Store.deep_update fuel o u h in
  (r, o, Store.read fuel h o).

(** *** Trees in a store

    [repr h j v F]: in the store [h] the value [v] denotes the tree [j], and
    [F] lists the locations of the objects of the tree, the root first.  The
    tree shares no object when [F] has no duplicate. *)
#[local] Unset Elimination Schemes.
Inductive repr (h : list Store.obj) : json -> Store.val -> list nat -> Prop :=
| repr_null : repr h JNull Store.Null []
| repr_bool (b : bool) : repr h (JBool b) (Store.Bool b) []
| repr_num (n : Z) : repr h (JNum n) (Store.Num n) []
| repr_str (s : string) : repr h (JStr s) (Store.Str s) []
| repr_list (l : nat) (js : list json) (vs : list Store.val) (Fs : list (list nat)) :
    h !! l = Some (Store.List vs) ->
    Forall3 (repr h) js vs Fs ->
    repr h (JList js) (Store.Ref l) (l :: concat Fs)
| repr_dict (l : nat) (d : list (string * json)) (items : list (string * Store.val))
    (Fs : list (list nat)) :
    h !! l = Some (Store.Dict items) ->
    Forall3 (fun kj kv F => fst kj = fst kv /\ repr h (snd kj) (snd kv) F) d items Fs ->
    repr h (JDict d) (Store.Ref l) (l :: concat Fs).
#[local] Set Elimination Schemes.

(** The nesting depth of the dictionaries of a tree. *)
Fixpoint depth (j : json) : nat :=
  match j with
  | JDict d =>
      S ((fix go (d : list (string * json)) : nat :=
            match d with
            | [] => 0
            | kv :: d' => Nat.max (depth (snd kv)) (go d')
            end) d)
  | _ => 0
  end.

(** The local [tag_dict] of the store semantics denotes that of the value
    semantics: equal scalar keys, and values that denote the same trees,
    [Fs] listing the locations of each. *)
Definition tag_dict_repr (h : list Store.obj) (std : list (Store.val * Store.val))
    (jtd : list (json * json)) (Fs : list (list nat)) : Prop :=
  Forall3 (fun sv jv F => repr h (fst jv) (fst sv) [] /\ repr h (snd jv) (snd sv) F)
    std jtd Fs.

(** What a step of one of the two loops of [merge_tags] must satisfy: run on
    a tag that shares nothing with [tag_dict], the store step raises when
    the value step does, and otherwise gives a [tag_dict] that denotes the
    one the value step gives, made of objects of the two. *)
Definition step_refines (h : list Store.obj)
    (sstep : list (Store.val * Store.val) -> Store.val
             -> result (list (Store.val * Store.val)))
    (jstep : list (json * json) -> json -> result (list (json * json))) : Prop :=
  forall std jtd Fs jt vt Ft,
    tag_dict_repr h std jtd Fs -> repr h jt vt Ft -> NoDup (concat Fs ++ Ft) ->
    match jstep jtd jt with
    | Ok jtd' =>
        exists std' Fs',
          sstep std vt = Ok std' /\ tag_dict_repr h std' jtd' Fs'
          /\ NoDup (concat Fs') /\ concat Fs' ⊆ concat Fs ++ Ft
    | Raise e => sstep std vt = Raise e
    end.

(** The locations of the tags [merge_tags] allocates from [base] on, each
    followed by the locations of its value. *)
Fixpoint tag_footprints (base : nat) (Fs : list (list nat)) : list (list nat) :=
  match Fs with
  | [] => []
  | F :: Fs' => (base :: concat [[]; F]) :: tag_footprints (S base) Fs'
  end.

(** The locations of the entries of a dictionary after [d[key] = value],
    where [F] are the locations of the value written: the entry for [key]
    is replaced, or a new entry is appended. *)
Fixpoint footprint_set {V : Type} (d : list (string * V)) (Fs : list (list nat))
    (key : string) (F : list nat) : list (list nat) :=
  match d, Fs with
  | (k, _) :: d', F0 :: Fs' =>
      if String.eqb k key then F :: Fs' else F0 :: footprint_set d' Fs' key F
  | _, _ => [F]
  end.

(** [isinstance(j, dict)] and [isinstance(j, list)] on trees. *)
Definition is_jdict (j : json) : bool :=
  match j with JDict _ => true | _ => false end.

Definition is_jlist (j : json) : bool :=
  match j with JList _ => true | _ => false end.

(** An entry of a dictionary in the store denotes an entry of a tree. *)
Definition entry_repr (h : list Store.obj) (kj : string * json)
    (kv : string * Store.val) (F : list nat) : Prop :=
  fst kj = fst kv /\ repr h (snd kj) (snd kv) F.

(** What a call of [deep_update] in the store owes to the value semantics.
    [tree] is the outcome on trees and [store] the outcome in the store [h],
    for the first argument [o]; [F0] lists the locations of the two
    arguments.  The call raises what the value semantics raises and
    otherwise returns [o]; afterwards [o] denotes the updated tree, a tree
    again, made of objects of the arguments and of new objects; and the
    objects of [h] outside the arguments are as they were. *)
Definition refines_post (h : list Store.obj) (o : Store.val) (F0 : list nat)
    (tree : list (string * json) * option exn)
    (store : list Store.obj * result Store.val) : Prop :=
  exists F',
    snd store = match snd tree with None => Ok o | Some e => Raise e end
    /\ repr (fst store) (JDict (fst tree)) o F' /\ NoDup F'
    /\ (forall x, x ∈ F' -> x ∈ F0 \/ length h <= x)
    /\ length h <= length (fst store)
    /\ (forall l, l < length h -> l ∉ F0 -> fst store !! l = h !! l).

(** [recurse] refines [deep_update] for the update [jv], from every store
    in which the two arguments are trees that share nothing. *)
Definition refines (recurse : Store.val -> Store.val -> list Store.obj
                              -> list Store.obj * result Store.val)
    (jv : json) : Prop :=
  forall h d c Fc v Fv,
    repr h (JDict d) c Fc -> repr h jv v Fv -> NoDup (Fc ++ Fv) ->
    refines_post h c (Fc ++ Fv) (deep_update d jv) (recurse c v h).

(** The height of a tree: the nesting depth of its lists and dictionaries,
    which bounds the recursion of [Store.read]. *)
Fixpoint height (j : json) : nat :=
  match j with
  | JList l =>
      S ((fix go (l : list json) : nat :=
            match l with
            | [] => 0
            | x :: l' => Nat.max (height x) (go l')
            end) l)
  | JDict d =>
      S ((fix go (d : list (string * json)) : nat :=
            match d with
            | [] => 0
            | kv :: d' => Nat.max (height (snd kv)) (go d')
            end) d)
  | _ => 0
  end.

(** ** Characters and strings: the [str] methods of the validators *)

(** The code point of a character. *)
Definition code (c : ascii) : nat := nat_of_ascii c.

Definition in_range (lo hi : nat) (c : ascii) : bool :=
  Nat.leb lo (code c) && Nat.leb (code c) hi.

(** [c.isupper()] for a code point below 256: [A-Z] and the capital
    letters of Latin-1. *)
Definition is_upper (c : ascii) : bool :=
  in_range 65 90 c || in_range 192 214 c || in_range 216 222 c.

(** [c.islower()] for a code point below 256. *)
Definition is_lower (c : ascii) : bool :=
  in_range 97 122 c || in_range 170 170 c || in_range 181 181 c
  || in_range 186 186 c || in_range 223 246 c || in_range 248 255 c.

(** [c.isalnum()] for a code point below 256. *)
Definition is_alnum (c : ascii) : bool :=
  in_range 48 57 c || in_range 65 90 c || in_range 97 122 c
  || in_range 170 170 c || in_range 178 179 c || in_range 181 181 c
  || in_range 185 186 c || in_range 188 190 c || in_range 192 214 c
  || in_range 216 246 c || in_range 248 255 c.

(** [s.islower()]: no cased character is upper case and there is a cased
    character. *)
Definition islower (s : string) : bool :=
  forallb (fun c => negb (is_upper c)) (list_ascii_of_string s)
  && existsb is_lower (list_ascii_of_string s).

(** [c.lower()] and [s.lower()]. *)
Definition lower_char (c : ascii) : ascii :=
  if is_upper c then ascii_of_nat (code c + 32) else c.

Fixpoint lower (s : string) : string :=
  match s with
  | EmptyString => EmptyString
  | String c s' => String (lower_char c) (lower s')
  end.

(** [s.endswith(p)]. *)
Definition endswith (p s : string) : bool :=
  Nat.leb (String.length p) (String.length s)
  && String.eqb (substring (String.length s - String.length p) (String.length p) s) p.

(** [sub in s]. *)
Fixpoint contains (sub s : string) : bool :=
  String.prefix sub s
  || match s with
     | EmptyString => false
     | String _ s' => contains sub s'
     end.

(** ** The validators of [gather_atlantis_deploy_parameters] *)

Definition validate_s3_bucket (bucket : string) : bool :=
  if str_empty bucket then false
  else if negb (Nat.leb 3 (String.length bucket) && Nat.leb (String.length bucket) 63)
  then false
  else if negb (islower bucket) then false
  else if negb (forallb (fun c => is_alnum c || Ascii.eqb c "-")
                  (list_ascii_of_string bucket))
  then false
  else if startswith "-" bucket || endswith "-" bucket then false
  else true.

(** The set [valid_regions].  Two commas are missing in the source, after
    ['ca-west-1'] and after ['il-central-1']: the literal on either side of
    each is one string. *)
Definition valid_regions : list string :=
  ["us-east-1"; "us-east-2"; "us-west-1"; "us-west-2";
   "ca-central-1"; "ca-west-1" +:+ "mx-central-1";
   "sa-east-1";
   "ap-south-1"; "ap-east-1"; "ap-northeast-1"; "ap-northeast-2"; "ap-northeast-3";
   "ap-southeast-1"; "ap-southeast-2"; "ap-southeast-3";
   "me-south-1"; "me-central-1";
   "il-central-1" +:+ "af-south-1";
   "eu-north-1"; "eu-south-1"; "eu-south-2"; "eu-west-1"; "eu-west-2"; "eu-west-3";
   "eu-central-1"; "eu-central-2"].

Definition validate_region (region : string) : bool := str_in region valid_regions.

(** The string literals of [valid_regions], one for each region named. *)
Definition region_literals : list string :=
  ["us-east-1"; "us-east-2"; "us-west-1"; "us-west-2";
   "ca-central-1"; "ca-west-1"; "mx-central-1";
   "sa-east-1";
   "ap-south-1"; "ap-east-1"; "ap-northeast-1"; "ap-northeast-2"; "ap-northeast-3";
   "ap-southeast-1"; "ap-southeast-2"; "ap-southeast-3";
   "me-south-1"; "me-central-1";
   "il-central-1"; "af-south-1";
   "eu-north-1"; "eu-south-1"; "eu-south-2"; "eu-west-1"; "eu-west-2"; "eu-west-3";
   "eu-central-1"; "eu-central-2"].

Definition validate_role_arn (arn : string) : bool :=
  if str_empty arn then false
  else startswith "arn:aws:iam::" arn
       && contains ":role/" arn
       && Nat.eqb (length (split_chr ":" arn)) 6.

Definition validate_boolean (value : string) : bool :=
  str_in (lower value) ["true"; "false"].

(** The characters the error message of [validate_s3_bucket] allows:
    lowercase letters, digits and the hyphen. *)
Definition ascii_lower (c : ascii) : bool := in_range 97 122 c.

Definition bucket_char (c : ascii) : bool :=
  ascii_lower c || in_range 48 57 c || Ascii.eqb c "-".

(** A string of ASCII characters. *)
Definition is_ascii (s : string) : bool :=
  forallb (fun c => Nat.ltb (code c) 128) (list_ascii_of_string s).

(** ** Prompts: [get_validated_input] and [gather_atlantis_deploy_parameters]

    [Colorize.prompt] is an oracle: each call takes the next answer, the
    text typed or an interrupt from the keyboard.  What the functions print
    is left out. *)
Inductive answer : Type :=
| Typed (value : string)
| Interrupt.

(** How a function that prompts ends: it returns, it leaves through
    [sys.exit], an exception other than [KeyboardInterrupt] escapes,
    [KeyboardInterrupt] escapes, or it waits for an answer that does not
    come. *)
Inductive outcome (A : Type) : Type :=
| Returned (a : A)
| Exited (status : Z)
| Raised (e : exn)
| Interrupted
| Pending.
Arguments Returned {A} a.
Arguments Exited {A} status.
Arguments Raised {A} e.
Arguments Interrupted {A}.
Arguments Pending {A}.

(** A computation that prompts: from the answers to come, its outcome and
    the answers left. *)
Definition prompting (A : Type) : Type := list answer -> outcome A * list answer.

Definition prompt_ret {A : Type} (a : A) : prompting A :=
  fun answers => (Returned a, answers).

Definition prompt_bind {A B : Type} (m : prompting A) (k : A -> prompting B)
  : prompting B :=
  fun answers =>
    match m answers with
    | (Returned a, rest) => k a rest
    | (Exited status, rest) => (Exited status, rest)
    | (Raised e, rest) => (Raised e, rest)
    | (Interrupted, rest) => (Interrupted, rest)
    | (Pending, rest) => (Pending, rest)
    end.

(** Truth value of a string or a boolean. *)
Definition truthy_value (v : cfg_value) : bool :=
  match v with
  | VStr s => negb (str_empty s)
  | VBool b => b
  end.

(** [get_validated_input], without the prompt and the messages.  [default]
    is what the caller found in the defaults, a string or a boolean;
    [validator_func] may raise on a value that is not a string. *)
Fixpoint get_validated_input (default : cfg_value)
    (validator_func : cfg_value -> result bool) (required : bool)
    (answers : list answer) : outcome cfg_value * list answer :=
  match answers with
  | [] => (Pending, [])
  | Interrupt :: answers => (Interrupted, answers)
  | Typed value :: answers =>
      if String.eqb value "?" then
        get_validated_input default validator_func required answers
      else if String.eqb value "-" then
        if required then get_validated_input default validator_func required answers
        else (Returned (VStr ""), answers)
      else if String.eqb value "^" then (Exited 0, answers)
      else
        let value :=
          if String.eqb value "" && truthy_value default then default
          else VStr value in
        match validator_func value with
        | Ok true => (Returned value, answers)
        | Ok false => get_validated_input default validator_func required answers
        | Raise e => (Raised e, answers)
        end
  end.

(** The validators on what the loop passes them.  On a boolean,
    [validate_s3_bucket] returns at [not bucket] or fails at [len(bucket)],
    [validate_region] finds it in no set of strings, and the other two
    return at [not arn] or fail at a [str] method. *)
Definition validate_s3_bucket_value (bucket : cfg_value) : result bool :=
  match bucket with
  | VStr s => Ok (validate_s3_bucket s)
  | VBool false => Ok false
  | VBool true => Raise TypeError
  end.

Definition validate_region_value (region : cfg_value) : result bool :=
  match region with
  | VStr s => Ok (validate_region s)
  | VBool _ => Ok false
  end.

Definition validate_role_arn_value (arn : cfg_value) : result bool :=
  match arn with
  | VStr s => Ok (validate_role_arn s)
  | VBool false => Ok false
  | VBool true => Raise AttributeError
  end.

Definition validate_boolean_value (value : cfg_value) : result bool :=
  match value with
  | VStr s => Ok (validate_boolean s)
  | VBool _ => Raise AttributeError
  end.

(** [d.get(key, default)]. *)
Definition dict_get_default {V : Type} (d : list (string * V)) (key : string)
    (default : V) : V :=
  match dict_get d key with
  | Some v => v
  | None => default
  end.

(** [gather_atlantis_deploy_parameters]; [getenv] is [os.getenv] with its
    default.  The four prompts are made in order, and an interrupt from the
    keyboard ends in [sys.exit(1)]. *)
Definition gather_atlantis_deploy_parameters (getenv : string -> string -> string)
    (infra_type : string)
    (atlantis_deploy_parameter_defaults : list (string * cfg_value))
  : prompting (list (string * cfg_value)) :=
  fun answers =>
    let atlantis_deploy_params : list (string * cfg_value) := [] in
    let body :=
      prompt_bind
        (get_validated_input
           (dict_get_default atlantis_deploy_parameter_defaults "s3_bucket"
              (VStr (getenv "SAM_DEPLOY_BUCKET" "")))
           validate_s3_bucket_value true)
        (fun s3_bucket =>
           let atlantis_deploy_params :=
             dict_set atlantis_deploy_params "s3_bucket" s3_bucket in
           prompt_bind
             (get_validated_input
                (dict_get_default atlantis_deploy_parameter_defaults "region"
                   (VStr (getenv "AWS_REGION" "us-east-1")))
                validate_region_value true)
             (fun region =>
                let atlantis_deploy_params :=
                  dict_set atlantis_deploy_params "region" region in
                prompt_bind
                  (get_validated_input
                     (VStr (if truthy_value
                                 (dict_get_default atlantis_deploy_parameter_defaults
                                    "confirm_changeset" (VBool true))
                            then "true" else "false"))
                     validate_boolean_value true)
                  (fun confirm_changeset =>
                     let atlantis_deploy_params :=
                       dict_set atlantis_deploy_params "confirm_changeset"
                         confirm_changeset in
                     if String.eqb infra_type "pipeline" then
                       prompt_bind
                         (get_validated_input
                            (dict_get_default atlantis_deploy_parameter_defaults
                               "role_arn" (VStr (getenv "SAM_DEPLOY_ROLE" "")))
                            validate_role_arn_value true)
                         (fun role_arn =>
                            prompt_ret
                              (dict_set atlantis_deploy_params "role_arn" role_arn))
                     else prompt_ret atlantis_deploy_params))) in
    match body answers with
    | (Interrupted, rest) => (Exited 1, rest)
    | r => r
    end.

(** The answers that get the sample pipeline through the four prompts: a
    request for help, a bucket name that is refused, and four good values. *)
Definition example_answers : list answer :=
  [Typed "?"; Typed "My_Bucket"; Typed "acme-deploys"; Typed "";
   Typed "TRUE"; Typed "arn:aws:iam::123456789012:role/deployer"].

(** ** Stage defaults: [calculate_stage_defaults] *)

Definition calculate_stage_defaults (stage_id : string) : list (string * string) :=
  let defaults : list (string * string) := [] in
  let envValue :=
    if startswith "t" stage_id then "TEST"
    else if startswith "d" stage_id then "DEV"
    else "PROD" in
  let defaults := dict_set defaults "DeployEnvironment" envValue in
  let branch := if String.eqb stage_id "prod" then "main" else stage_id in
  let defaults := dict_set defaults "CodeCommitBranch" branch in
  let defaults := dict_set defaults "RepositoryBranch" branch in
  defaults.

(** ** Tags as text: [stringify_tags] *)

(** A comprehension whose element expression may raise. *)
Fixpoint mapM {A B : Type} (f : A -> result B) (l : list A) : result (list B) :=
  match l with
  | [] => Ok []
  | x :: xs => y ← f x; ys ← mapM f xs; Ok (y :: ys)
  end.

Section Formatting.
(** [repr] of a list or a dictionary, which the script never formats. *)
Context (repr_of : json -> string).

(** [str(v)], as an f-string formats a value. *)
Definition py_str (v : json) : string :=
  match v with
  | JNull => "None"
  | JBool true => "True"
  | JBool false => "False"
  | JNum n => nat_str n
  | JStr s => s
  | JList _ | JDict _ => repr_of v
  end.

(** [f'"{tag['Key']}"="{tag['Value']}"']. *)
Definition stringify_tag (tag : json) : result string :=
  key ← getitem tag "Key";
  value ← getitem tag "Value";
  Ok (quote_pair (py_str key, py_str value)).

Definition stringify_tags (tags : list json) : result string :=
  parts ← mapM stringify_tag tags;
  Ok (join " " parts).
End Formatting.

(** A tag the serialized form preserves: a pair that reads back between
    double quotes, with a key and a value that are not empty and have no
    quote at either end for [parse_tags] to strip. *)
Definition tag_round_trips (t : string * string) : Prop :=
  round_trips t
  /\ str_empty (fst t) = false /\ str_empty (snd t) = false
  /\ strip_chars [dquote; "'"%char] (fst t) = fst t
  /\ strip_chars [dquote; "'"%char] (snd t) = snd t.

(** ** Automated tags: [generate_automated_tags] and [generate_tags] *)

(** What [process_template_content] and [get_template_parameters] leave in
    the instance. *)
Record template_info : Type := {
  template_version : string;
  template_hash_id : option string;
  template_file : option string
}.

(** [{"Key": key, "Value": value}]. *)
Definition mk_tag (key : string) (value : json) : json := tag_of (JStr key, value).

(** [parameters.get(key)] as a tag value. *)
Definition opt_json (o : option string) : json :=
  match o with
  | Some s => JStr s
  | None => JNull
  end.

(** [parameters[key]]. *)
Definition param_item (parameters : list (string * string)) (key : string)
  : result string :=
  match dict_get parameters key with
  | Some v => Ok v
  | None => Raise (KeyError key)
  end.

Definition generate_automated_tags (self : ConfigManager) (info : template_info)
    (parameters : list (string * string)) : result (list json) :=
  let tags :=
    [mk_tag "Atlantis" (JStr (infra_type self +:+ "-infrastructure"));
     mk_tag "atlantis:Prefix" (opt_json (dict_get parameters "Prefix"));
     mk_tag "Provisioner" (JStr "CloudFormation");
     mk_tag "DeployedUsing" (JStr "AWS SAM CLI");
     mk_tag "atlantis:TemplateVersion"
       (JStr (template_version info +:+ " " +:+ str_of (template_hash_id info)));
     mk_tag "atlantis:TemplateFile" (opt_json (template_file info))] in
  tags ← (if truthy (dict_get parameters "ProjectId") then
            prefix_value ← param_item parameters "Prefix";
            project ← param_item parameters "ProjectId";
            Ok (tags
                ++ [mk_tag "atlantis:Application"
                      (JStr (prefix_value +:+ "-" +:+ project));
                    mk_tag "Name" (JStr (prefix_value +:+ "-" +:+ project))])
          else Ok tags);
  tags ← (if truthy (dict_get parameters "StageId") then
            prefix_value ← param_item parameters "Prefix";
            project ← param_item parameters "ProjectId";
            stage ← param_item parameters "StageId";
            Ok (tags
                ++ [mk_tag "atlantis:ApplicationDeploymentId"
                      (JStr (prefix_value +:+ "-" +:+ project +:+ "-" +:+ stage));
                    mk_tag "Stage" (JStr stage)])
          else Ok tags);
  tags ← (if truthy (dict_get parameters "DeployEnvironment") then
            environment ← param_item parameters "DeployEnvironment";
            Ok (tags ++ [mk_tag "Environment" (JStr environment)])
          else Ok tags);
  tags ← (if truthy (dict_get parameters "AlarmNotificationEmail") then
            email ← param_item parameters "AlarmNotificationEmail";
            Ok (tags ++ [mk_tag "AlarmNotificationEmail" (JStr email)])
          else Ok tags);
  tags ← (if truthy (dict_get parameters "Repository") then
            repository ← param_item parameters "CodeCommitRepository";
            Ok (tags ++ [mk_tag "CodeCommitRepository" (JStr repository)])
          else Ok tags);
  tags ← (if truthy (dict_get parameters "RepositoryBranch") then
            branch ← param_item parameters "CodeCommitBranch";
            Ok (tags ++ [mk_tag "CodeCommitBranch" (JStr branch)])
          else Ok tags);
  Ok tags.

Definition generate_tags (self : ConfigManager) (info : template_info)
    (parameters : list (string * string)) (custom_tags : list json)
  : result (list json) :=
  automated_tags ← generate_automated_tags self info parameters;
  merge_tags automated_tags custom_tags.

(** The keys [generate_automated_tags] subscripts without a test: a
    parameter that is set asks for others to be there. *)
Definition automated_tags_defined (parameters : list (string * string)) : Prop :=
  (truthy (dict_get parameters "ProjectId") = true ->
   dict_mem "Prefix" parameters = true)
  /\ (truthy (dict_get parameters "StageId") = true ->
      dict_mem "Prefix" parameters = true /\ dict_mem "ProjectId" parameters = true)
  /\ (truthy (dict_get parameters "Repository") = true ->
      dict_mem "CodeCommitRepository" parameters = true)
  /\ (truthy (dict_get parameters "RepositoryBranch") = true ->
      dict_mem "CodeCommitBranch" parameters = true).

(** The automated tags as pairs of a key and a value, block by block; a
    subscript that would raise reads as the empty string. *)
Definition item (parameters : list (string * string)) (key : string) : string :=
  dict_get_default parameters key "".

Definition when_set (parameters : list (string * string)) (key : string)
    (entries : list (string * json)) : list (string * json) :=
  if truthy (dict_get parameters key) then entries else [].

Definition fixed_entries (self : ConfigManager) (info : template_info)
    (parameters : list (string * string)) : list (string * json) :=
  [("Atlantis", JStr (infra_type self +:+ "-infrastructure"));
   ("atlantis:Prefix", opt_json (dict_get parameters "Prefix"));
   ("Provisioner", JStr "CloudFormation");
   ("DeployedUsing", JStr "AWS SAM CLI");
   ("atlantis:TemplateVersion",
    JStr (template_version info +:+ " " +:+ str_of (template_hash_id info)));
   ("atlantis:TemplateFile", opt_json (template_file info))].

Definition application_entries (parameters : list (string * string))
  : list (string * json) :=
  when_set parameters "ProjectId"
    [("atlantis:Application",
      JStr (item parameters "Prefix" +:+ "-" +:+ item parameters "ProjectId"));
     ("Name", JStr (item parameters "Prefix" +:+ "-" +:+ item parameters "ProjectId"))].

Definition stage_entries (parameters : list (string * string))
  : list (string * json) :=
  when_set parameters "StageId"
    [("atlantis:ApplicationDeploymentId",
      JStr (item parameters "Prefix" +:+ "-" +:+ item parameters "ProjectId"
            +:+ "-" +:+ item parameters "StageId"));
     ("Stage", JStr (item parameters "StageId"))].

Definition environment_entries (parameters : list (string * string))
  : list (string * json) :=
  when_set parameters "DeployEnvironment"
    [("Environment", JStr (item parameters "DeployEnvironment"))].

Definition alarm_entries (parameters : list (string * string))
  : list (string * json) :=
  when_set parameters "AlarmNotificationEmail"
    [("AlarmNotificationEmail", JStr (item parameters "AlarmNotificationEmail"))].

Definition repository_entries (parameters : list (string * string))
  : list (string * json) :=
  when_set parameters "Repository"
    [("CodeCommitRepository", JStr (item parameters "CodeCommitRepository"))].

Definition branch_entries (parameters : list (string * string))
  : list (string * json) :=
  when_set parameters "RepositoryBranch"
    [("CodeCommitBranch", JStr (item parameters "CodeCommitBranch"))].

Definition automated_entries (self : ConfigManager) (info : template_info)
    (parameters : list (string * string)) : list (string * json) :=
  fixed_entries self info parameters
  ++ application_entries parameters ++ stage_entries parameters
  ++ environment_entries parameters ++ alarm_entries parameters
  ++ repository_entries parameters ++ branch_entries parameters.

(** Tags with string keys, as a list of tag dictionaries. *)
Definition tag_objects (entries : list (string * json)) : list json :=
  map tag_of (map tag_entry entries).

(** Parameters of a pipeline for the stage [test]. *)
Definition example_parameters : list (string * string) :=
  [("Prefix", "acme"); ("ProjectId", "widget"); ("StageId", "test");
   ("DeployEnvironment", "TEST")].

Definition example_manager : ConfigManager :=
  {| prefix := "acme"; infra_type := "pipeline"; project_id := Some "widget";
     stage_id := "test" |}.

Definition example_template : template_info :=
  {| template_version := "v1.2.0"; template_hash_id := Some "a1b2c3";
     template_file := Some "template-pipeline.yml" |}.

(** ** Keys in order of first appearance *)

(** [k] joins the keys unless it is among them. *)
Definition add_key (keys : list string) (k : string) : list string :=
  if existsb (String.eqb k) keys then keys else keys ++ [k].

(** The distinct elements of [l], each where it first appears. *)
Definition first_occurrences (l : list string) : list string :=
  fold_left add_key l [].

(** ** Template files

    [build_config] stores the template of a deployment, [get_stack_config]
    rebuilds it from the tag [atlantis:TemplateFile] of the deployed stack
    and [main] recovers the name to select from either. *)

(** [template_file] as [build_config] stores it, where [templates_dir] is
    [str(self.templates_dir)]. *)
Definition config_template_file (templates_dir template_file : string) : string :=
  if negb (startswith "s3://" template_file)
  then "../../" +:+ templates_dir +:+ "/" +:+ template_file
  else template_file.

(** [template_file] as [get_stack_config] rebuilds it from the tag. *)
Definition stack_template_file (template_file : string) : string :=
  if negb (startswith "s3://" template_file)
  then "./templates/" +:+ template_file
  else template_file.

(** The template [main] selects, from [template_file] of the local
    configuration (the empty string when there is none). *)
Definition selected_template_file (template_file_from_config : string) : string :=
  if negb (str_empty template_file_from_config)
     && startswith "s3://" template_file_from_config
  then template_file_from_config
  else List.last (split_chr "/" template_file_from_config) "".

(** ** The deployed stack: [get_stack_config] *)

(** What [describe_stacks] answers for a stack, as far as the script reads
    it: parameters and tags as pairs, an absent list as the empty list. *)
Record stack : Type := {
  StackId : string;
  Parameters : list (string * string);
  Tags : list (string * string);
  Capabilities : list string
}.

(** The configuration [get_stack_config] builds for the stage.  An
    exception raised on the way, here the [IndexError] of
    [stack['StackId'].split(':')[3]], is caught by [except Exception], whose
    handler reports it and leaves through [sys.exit(1)]. *)
Definition get_stack_config (stage : string) (s : stack) : outcome config :=
  let overrides :=
    fold_left (fun d param => dict_set d (fst param) (VStr (snd param)))
      (Parameters s) [] in
  let atlantis_parameters : list (string * cfg_value) := [] in
  let atlantis_parameters :=
    dict_set atlantis_parameters "capabilities" (VStr (join " " (Capabilities s))) in
  match nth_error (split_chr ":" (StackId s)) 3 with
  | None => Exited 1
  | Some region =>
      let atlantis_parameters := dict_set atlantis_parameters "region" (VStr region) in
      let atlantis_parameters :=
        fold_left
          (fun a tag =>
             if String.eqb (fst tag) "atlantis:TemplateFile"
             then dict_set a "template_file" (VStr (stack_template_file (snd tag)))
             else a)
          (Tags s) atlantis_parameters in
      Returned
        {| atlantis := atlantis_parameters;
           deployments :=
             [(stage,
               {| parameter_overrides := overrides;
                  tags := map (fun t => (fst t, VStr (snd t))) (Tags s) |})] |}
  end.

(** A stack deployed from a local template. *)
Definition example_stack : stack :=
  {| StackId := "arn:aws:cloudformation:us-east-1:123456789012:stack/acme-widget-test-pipeline/0a1b";
     Parameters := [("Prefix", "acme"); ("ProjectId", "widget")];
     Tags := [("atlantis:TemplateFile", "template-pipeline.yml"); ("Stage", "test")];
     Capabilities := ["CAPABILITY_NAMED_IAM"] |}.

(** The local configuration built for the same template. *)
Definition example_local : config :=
  {| atlantis :=
       [("template_file",
         VStr (config_template_file "local-templates/pipeline" "template-pipeline.yml"));
        ("region", VStr "us-east-1"); ("capabilities", VStr "CAPABILITY_NAMED_IAM")];
     deployments :=
       [("test",
         {| parameter_overrides := [("Prefix", VStr "acme"); ("ProjectId", VStr "widget")];
            tags := [("atlantis:TemplateFile", VStr "template-pipeline.yml");
                     ("Stage", VStr "test")] |})] |}.

(** ** The samconfig file: what [save_config] writes and [read_samconfig] reads

    A deployment section is the table [config['deployments'][stage]];
    [toml.dump] and [toml.load] are taken to give back the tables, strings
    and booleans they were given. *)

(** [section.get('deploy', {}).get('parameters', {})]: a [deploy] that is no
    table has no method [get]. *)
Definition section_deploy_parameters (section : list (string * json)) : result json :=
  match dict_get_default section "deploy" (JDict []) with
  | JDict deploy => Ok (dict_get_default deploy "parameters" (JDict []))
  | _ => Raise AttributeError
  end.

(** [section['deploy']['parameters'][name] = v]. *)
Definition set_deploy_parameter (section : list (string * json)) (name : string)
    (v : json) : result (list (string * json)) :=
  deploy ← getitem (JDict section) "deploy";
  parameters ← getitem deploy "parameters";
  match deploy, parameters with
  | JDict deploy, JDict parameters =>
      Ok (dict_set section "deploy"
            (JDict (dict_set deploy "parameters"
                      (JDict (dict_set parameters name v)))))
  | _, _ => Raise TypeError
  end.

(** The section [section] with [parameters] as its deploy parameters. *)
Definition with_parameters (section deploy parameters : list (string * json))
  : list (string * json) :=
  dict_set section "deploy" (JDict (dict_set deploy "parameters" (JDict parameters))).

(** [v and isinstance(v, str)]. *)
Definition nonempty_str (v : json) : option string :=
  match v with
  | JStr s => if str_empty s then None else Some s
  | _ => None
  end.

(** The dictionary [parse_parameter_overrides] returns and the list
    [parse_tags] returns, as values of a section. *)
Definition parameters_json (parameters : list (string * string)) : json :=
  JDict (map (fun kv => (fst kv, JStr (snd kv))) parameters).

Definition tags_json (tags : list (string * string)) : json :=
  JList (map tag_obj tags).

(** The body of the [try] of [read_samconfig] for one section: [None] when
    the section is not stored. *)
Definition read_section (value : list (string * json))
  : result (option (list (string * json))) :=
  deploy_params ← section_deploy_parameters value;
  match deploy_params with
  | JDict deploy_params =>
      value ←
        match nonempty_str (dict_get_default deploy_params "parameter_overrides"
                              (JStr "")) with
        | Some parameter_overrides =>
            set_deploy_parameter value "parameter_overrides"
              (parameters_json (fst (parse_parameter_overrides parameter_overrides)))
        | None => Ok value
        end;
      value ←
        match nonempty_str (dict_get_default deploy_params "tags" (JStr "")) with
        | Some tags =>
            tags ← parse_tags tags;
            set_deploy_parameter value "tags" (tags_json tags)
        | None => Ok value
        end;
      Ok (Some value)
  | _ => Ok None
  end.

(** The [try] with its handler: [AttributeError] and [TypeError] skip the
    section, any other exception leaves the loop. *)
Definition read_section_guarded (value : list (string * json))
  : result (option (list (string * json))) :=
  match read_section value with
  | Raise AttributeError | Raise TypeError => Ok None
  | r => r
  end.

(** One iteration of [for key, value in samconfig.items()]. *)
Definition read_item (deployments : list (string * json)) (item : string * json)
  : result (list (string * json)) :=
  match snd item with
  | JDict value =>
      if negb (String.eqb (fst item) "atlantis") then
        stored ← read_section_guarded value;
        match stored with
        | Some value => Ok (dict_set deployments (fst item) (JDict value))
        | None => Ok deployments
        end
      else Ok deployments
  | _ => Ok deployments
  end.

(** [read_samconfig] on the file that exists and that [toml.load] read as
    [samconfig]: the configuration, or [None] when an exception reached the
    outer handler. *)
Definition read_samconfig (samconfig : list (string * json)) : option json :=
  let atlantis :=
    match dict_get samconfig "atlantis" with
    | Some (JDict atlantis) => JDict atlantis
    | _ => JDict []
    end in
  match foldM read_item samconfig [] with
  | Ok deployments =>
      Some (JDict [("atlantis", atlantis); ("deployments", JDict deployments)])
  | Raise _ => None
  end.

Section Saving.
Context (repr_of : json -> string).


End Saving.



(** A section whose tags [parse_tags] refuses with [e]. *)
Definition refused_tags (value : list (string * json)) (e : exn) : Prop :=
  exists deploy params text,
    dict_get value "deploy" = Some (JDict deploy)
    /\ dict_get deploy "parameters" = Some (JDict params)
    /\ dict_get params "tags" = Some (JStr text)
    /\ parse_tags text = Raise e.


(** ** Templates kept in S3: [read_template_file] *)

(** The bucket and the key [read_template_file] asks S3 for, when the path
    begins with [s3://]: [template_path.split('/')[2]] and
    ['/'.join(template_path.split('/')[3:])]. *)
Definition s3_location (template_path : string) : result (string * string) :=
  match nth_error (split_chr "/" template_path) 2 with
  | Some bucket_name =>
      Ok (bucket_name, join "/" (skipn 3 (split_chr "/" template_path)))
  | None => Raise IndexError
  end.

(** * Properties *)

(** ** Strings *)

Lemma append_nil (b : string) : "" +:+ b = b.
Proof. reflexivity. Qed.

Lemma append_cons (x : ascii) (a b : string) :
  String x a +:+ b = String x (a +:+ b).
Proof. reflexivity. Qed.

Lemma append_assoc (a b c : string) : (a +:+ b) +:+ c = a +:+ b +:+ c.
Proof.
  induction a as [|x a IH]; [reflexivity|].
  rewrite !append_cons. now rewrite IH.
Qed.

Lemma append_empty_r (a : string) : a +:+ "" = a.
Proof.
  induction a as [|x a IH]; [reflexivity|].
  rewrite append_cons. now rewrite IH.
Qed.

Lemma str_empty_true (s : string) : str_empty s = true <-> s = "".
Proof. destruct s; simpl; split; congruence. Qed.

(** ** Stack names *)

(** C10.  The stack name is the dash-joined list of its segments: the
    prefix, the project identifier unless it is empty, the stage identifier
    unless it is empty or ['default'], and the infrastructure type, where an
    empty argument falls back to the instance's stored value; for the stage
    ['default'] the name is prefix-project-infra_type. *)
Theorem generate_stack_name_segments (self : ConfigManager)
    (prefix_arg project_id_arg stage_id_arg : string) :
  generate_stack_name self prefix_arg project_id_arg stage_id_arg
  = join "-" (stack_name_segments self prefix_arg project_id_arg stage_id_arg)
  /\ (forall proj : string,
        proj <> "" ->
        generate_stack_name self prefix_arg proj "default"
        = (if str_empty prefix_arg then prefix self else prefix_arg)
            +:+ "-" +:+ proj +:+ "-" +:+ infra_type self).
Proof.
  split.
  - unfold generate_stack_name, stack_name_segments, join.
    destruct (str_empty project_id_arg) eqn:Hp.
    + destruct (project_id self) as [pid|]; simpl.
      * destruct (str_empty pid) eqn:Hpid; simpl;
          destruct (str_empty (if str_empty stage_id_arg then stage_id self
                               else stage_id_arg)) eqn:Hs; simpl;
          try destruct (String.eqb _ "default"); simpl;
          rewrite ?append_assoc; reflexivity.
      * destruct (str_empty (if str_empty stage_id_arg then stage_id self
                             else stage_id_arg)) eqn:Hs; simpl;
          try destruct (String.eqb _ "default"); simpl;
          rewrite ?append_assoc; reflexivity.
    + simpl. rewrite Hp. simpl.
      destruct (str_empty (if str_empty stage_id_arg then stage_id self
                           else stage_id_arg)) eqn:Hs; simpl;
        try destruct (String.eqb _ "default"); simpl;
        rewrite ?append_assoc; reflexivity.
  - intros proj Hproj. unfold generate_stack_name.
    destruct proj as [|c proj]; [congruence|]. simpl.
    rewrite ?append_assoc. reflexivity.
Qed.

Lemma generate_stack_name_segments_witness :
  "widget" <> ""
  /\ generate_stack_name
       {| prefix := "acme"; infra_type := "pipeline";
          project_id := Some "widget"; stage_id := "default" |} "" "widget" "default"
     = "acme-widget-pipeline".
Proof.
  split; [discriminate|].
  apply (proj2 (generate_stack_name_segments
                  {| prefix := "acme"; infra_type := "pipeline";
                     project_id := Some "widget"; stage_id := "default" |}
                  "" "" "") "widget").
  discriminate.
Defined.

(** ** Stage ordering *)

Lemma stage_class_le (x : string) : stage_class x <= 5.
Proof.
  destruct x as [|c x]; simpl; [lia|].
  repeat (match goal with |- context [Ascii.eqb ?a ?b] => destruct (Ascii.eqb a b) end);
    lia.
Qed.

Lemma stage_key_class (c : ascii) (x : string) :
  stage_key (String c x) = Ok (key_of_class (stage_class (String c x))).
Proof.
  unfold stage_key, stage_class.
  destruct (Ascii.eqb_spec c "d") as [->|Hd]; [reflexivity|].
  destruct (Ascii.eqb_spec c "t") as [->|Ht]; [reflexivity|].
  destruct (Ascii.eqb_spec c "b") as [->|Hb]; [reflexivity|].
  destruct (Ascii.eqb_spec c "s") as [->|Hs]; [reflexivity|].
  destruct (Ascii.eqb_spec c "p") as [->|Hp]; reflexivity.
Qed.

Lemma key_lt_class (m n : nat) :
  m <= 5 -> n <= 5 -> key_lt (key_of_class m) (key_of_class n) = Nat.ltb m n.
Proof.
  intros Hm Hn.
  do 6 (destruct m as [|m]; [do 6 (destruct n as [|n]; [reflexivity|]); lia|]).
  lia.
Qed.

Lemma decorate_stage_key (l : list string) :
  decorate stage_key l
  = if forallb (fun x => negb (str_empty x)) l
    then Ok (map (fun x => (x, key_of_class (stage_class x))) l)
    else Raise IndexError.
Proof.
  induction l as [|x l IH]; [reflexivity|].
  destruct x as [|c x]; [reflexivity|].
  cbn [decorate forallb str_empty negb andb]. rewrite stage_key_class, IH.
  destruct (forallb _ l); reflexivity.
Qed.

Lemma insert_keyed_filter (c : nat) x d :
  keyed x -> Forall keyed d ->
  List.filter (fun p => in_class c (fst p)) (insert_keyed key_lt x d)
  = if in_class c (fst x)
    then x :: List.filter (fun p => in_class c (fst p)) d
    else List.filter (fun p => in_class c (fst p)) d.
Proof.
  intros Hx Hd. induction Hd as [|y d Hy Hd IH]; simpl.
  - destruct (in_class c (fst x)); reflexivity.
  - rewrite Hx, Hy, key_lt_class by apply stage_class_le.
    destruct (Nat.ltb_spec (stage_class (fst y)) (stage_class (fst x))) as [Hlt|Hge].
    + simpl. rewrite IH. unfold in_class in *.
      destruct (Nat.eqb_spec (stage_class (fst x)) c) as [Hxc|Hxc];
        destruct (Nat.eqb_spec (stage_class (fst y)) c) as [Hyc|Hyc];
        try reflexivity; lia.
    + simpl. destruct (in_class c (fst x)); reflexivity.
Qed.

Lemma insert_keyed_Forall x d : keyed x -> Forall keyed d ->
  Forall keyed (insert_keyed key_lt x d).
Proof.
  intros Hx Hd. induction Hd as [|y d Hy Hd IH]; simpl.
  - constructor; [assumption | constructor].
  - destruct (key_lt _ _); repeat constructor; assumption.
Qed.

Lemma sort_keyed_Forall d : Forall keyed d -> Forall keyed (sort_keyed key_lt d).
Proof.
  induction 1 as [|x d Hx Hd IH]; simpl; [constructor|].
  apply insert_keyed_Forall; assumption.
Qed.

(** Stability: sorting does not reorder the stages of one class. *)
Lemma sort_keyed_filter (c : nat) d :
  Forall keyed d ->
  List.filter (fun p => in_class c (fst p)) (sort_keyed key_lt d)
  = List.filter (fun p => in_class c (fst p)) d.
Proof.
  induction 1 as [|x d Hx Hd IH]; [reflexivity|].
  cbn [sort_keyed fold_right]. fold (sort_keyed key_lt d).
  rewrite insert_keyed_filter by (auto using sort_keyed_Forall).
  cbn [List.filter]. rewrite IH. reflexivity.
Qed.

Lemma insert_keyed_In (x : string * (bool * bool * bool * bool * bool)) d p :
  In p (insert_keyed key_lt x d) -> p = x \/ In p d.
Proof.
  induction d as [|y d IH]; simpl.
  - intros [->|[]]; auto.
  - destruct (key_lt _ _); simpl; intros [->|H]; auto.
    destruct (IH H); auto.
Qed.

Lemma insert_keyed_sorted x d :
  keyed x -> Forall keyed d ->
  StronglySorted class_le d ->
  StronglySorted class_le (insert_keyed key_lt x d).
Proof.
  intros Hx Hk Hs. induction Hs as [|y d Hs IH Hall]; simpl.
  - repeat constructor.
  - inversion Hk as [|? ? Hy Hk']; subst.
    rewrite Hx, Hy, key_lt_class by apply stage_class_le.
    destruct (Nat.ltb_spec (stage_class (fst y)) (stage_class (fst x))) as [Hlt|Hge].
    + constructor; [auto|].
      rewrite List.Forall_forall in *. intros p Hp.
      destruct (insert_keyed_In _ _ _ Hp) as [->|Hin]; [unfold class_le; lia | auto].
    + constructor; [constructor; assumption|].
      constructor; [exact Hge|].
      rewrite List.Forall_forall in *. intros p Hp.
      specialize (Hall p Hp). unfold class_le in *. lia.
Qed.

Lemma sort_keyed_sorted d :
  Forall keyed d -> StronglySorted class_le (sort_keyed key_lt d).
Proof.
  induction 1 as [|x d Hx Hd IH]; simpl; [constructor|].
  apply insert_keyed_sorted; auto using sort_keyed_Forall.
Qed.

Lemma filter_class_nil (c : nat) (y : string * (bool * bool * bool * bool * bool)) d :
  Forall (class_le y) d -> c < stage_class (fst y) ->
  List.filter (fun p => in_class c (fst p)) d = [].
Proof.
  intros Hall Hc. induction Hall as [|z d Hz Hall IH]; [reflexivity|].
  simpl. rewrite IH. unfold in_class, class_le in *.
  destruct (Nat.eqb_spec (stage_class (fst z)) c); [lia | reflexivity].
Qed.

(** A list sorted by class is the concatenation of its classes. *)
Lemma sorted_by_class d : StronglySorted class_le d -> by_class_keyed d = d.
Proof.
  induction 1 as [|y d Hs IH Hall]; [reflexivity|].
  unfold by_class_keyed in *. cbn [List.filter].
  pose proof (stage_class_le (fst y)) as Hle.
  pose proof (fun c => filter_class_nil c y d Hall) as Hnil.
  assert (Hy : forall c, in_class c (fst y) = Nat.eqb (stage_class (fst y)) c)
    by reflexivity.
  rewrite !Hy.
  destruct (stage_class (fst y)) as [|[|[|[|[|[|n]]]]]] eqn:Hc; cbn [Nat.eqb];
    rewrite ?Hnil in * by lia; cbn [app] in *; try (now rewrite IH); lia.
Qed.

Lemma map_fst_by_class d : map fst (by_class_keyed d) = by_class (map fst d).
Proof.
  unfold by_class_keyed, by_class. rewrite !map_app.
  assert (Hf : forall c, map fst (List.filter (fun p => in_class c (fst p)) d)
                         = List.filter (in_class c) (map fst d)).
  { intros c. induction d as [|p d IH]; [reflexivity|].
    simpl. destruct (in_class c (fst p)); simpl; now rewrite IH. }
  now rewrite !Hf.
Qed.

Lemma sort_keyed_by_class d :
  Forall keyed d -> map fst (sort_keyed key_lt d) = by_class (map fst d).
Proof.
  intros Hd.
  rewrite <- (sorted_by_class _ (sort_keyed_sorted d Hd)) at 1.
  rewrite <- map_fst_by_class. f_equal.
  unfold by_class_keyed. now rewrite !sort_keyed_filter.
Qed.

(** The serializer's order, in closed form: the call fails when a stage
    identifier is empty, and otherwise lists the classes d, t, b, s, p, other,
    each in insertion order. *)
Lemma save_config_stage_order_by_class (stages : list string) :
  save_config_stage_order stages
  = if forallb (fun x => negb (str_empty x)) stages
    then Ok (by_class stages) else Raise IndexError.
Proof.
  unfold save_config_stage_order, sorted. rewrite decorate_stage_key.
  destruct (forallb _ stages); [|reflexivity].
  cbn. f_equal. rewrite sort_keyed_by_class.
  - f_equal. rewrite map_map. simpl. apply map_id.
  - rewrite List.Forall_forall. intros p Hp. apply in_map_iff in Hp as (x & <- & _).
    reflexivity.
Qed.

Lemma filter_class_unique (c : nat) (l : list string) :
  List.NoDup (map stage_class l) ->
  List.filter (in_class c) l = [] \/ exists x, List.filter (in_class c) l = [x].
Proof.
  induction l as [|y l IH]; [now left|].
  simpl. intros Hnd. inversion Hnd as [|? ? Hnotin Hnd']; subst.
  destruct (in_class c y) eqn:Hc; [|auto].
  right. exists y. f_equal.
  destruct (List.filter (in_class c) l) as [|z t] eqn:Hf; [reflexivity|].
  exfalso. assert (Hz : In z (List.filter (in_class c) l)) by (rewrite Hf; now left).
  apply filter_In in Hz as [Hz Hzc]. apply Hnotin.
  unfold in_class in Hc, Hzc. apply Nat.eqb_eq in Hc, Hzc.
  rewrite Hc, <- Hzc. now apply in_map.
Qed.

Lemma filter_class_perm (c : nat) (l1 l2 : list string) :
  Permutation l1 l2 -> List.NoDup (map stage_class l1) ->
  List.filter (in_class c) l1 = List.filter (in_class c) l2.
Proof.
  intros Hp Hnd.
  assert (Hpf : Permutation (List.filter (in_class c) l1) (List.filter (in_class c) l2)).
  { clear Hnd. induction Hp; simpl.
    - constructor.
    - destruct (in_class c x); [now constructor | assumption].
    - destruct (in_class c x), (in_class c y); try apply Permutation_refl.
      apply perm_swap.
    - eapply perm_trans; eassumption. }
  destruct (filter_class_unique c l1 Hnd) as [H1|[x H1]]; rewrite H1 in *.
  - symmetry. now apply Permutation_nil.
  - symmetry. now apply Permutation_length_1_inv.
Qed.

Lemma nonempty_perm (l1 l2 : list string) :
  Permutation l1 l2 ->
  forallb (fun x => negb (str_empty x)) l1 = forallb (fun x => negb (str_empty x)) l2.
Proof.
  intros Hp. induction Hp; simpl.
  - reflexivity.
  - now rewrite IHHp.
  - now rewrite !andb_assoc, (andb_comm (negb (str_empty y))).
  - congruence.
Qed.

(** C8, as the code has it.  The sections are written by priority class of
    the first character (d, t, b, s, p, then any other), stages of one class
    in the insertion order of the deployments; when no two stages share a
    class the order does not depend on the insertion order, and every
    insertion order of prod, test1, dev2, build, staging is written as dev2,
    test1, build, staging, prod. *)
Theorem save_config_stage_order_classes (stages : list string) :
  save_config_stage_order stages
  = (if forallb (fun x => negb (str_empty x)) stages
     then Ok (by_class stages) else Raise IndexError)
  /\ (forall stages' : list string,
        Permutation stages stages' -> List.NoDup (map stage_class stages) ->
        save_config_stage_order stages' = save_config_stage_order stages)
  /\ (Permutation stages ["prod"; "test1"; "dev2"; "build"; "staging"] ->
      save_config_stage_order stages
      = Ok ["dev2"; "test1"; "build"; "staging"; "prod"]).
Proof.
  assert (Hindep : forall l1 l2 : list string,
             Permutation l1 l2 -> List.NoDup (map stage_class l1) ->
             save_config_stage_order l2 = save_config_stage_order l1).
  { intros l1 l2 Hp Hnd. rewrite !save_config_stage_order_by_class.
    rewrite (nonempty_perm l1 l2 Hp).
    destruct (forallb _ l2); [|reflexivity].
    f_equal. unfold by_class.
    now rewrite !(fun c => filter_class_perm c l1 l2 Hp Hnd). }
  split; [apply save_config_stage_order_by_class|].
  split; [intros l2; apply Hindep|].
  intros Hp. apply Permutation_sym in Hp.
  rewrite (Hindep _ _ Hp); [reflexivity|].
  cbn. repeat constructor; cbn; intuition discriminate.
Qed.

Lemma save_config_stage_order_classes_witness :
  save_config_stage_order ["staging"; "build"; "prod"; "dev2"; "test1"]
  = Ok ["dev2"; "test1"; "build"; "staging"; "prod"].
Proof.
  apply (proj2 (proj2 (save_config_stage_order_classes
                         ["staging"; "build"; "prod"; "dev2"; "test1"]))).
  apply (Permutation_trans
           (l' := ["build"; "staging"; "prod"; "dev2"; "test1"]));
    [apply perm_swap|].
  apply (Permutation_trans
           (l' := ["prod"; "test1"; "dev2"; "build"; "staging"] ++ []));
    [|rewrite app_nil_r; apply Permutation_refl].
  change ["build"; "staging"; "prod"; "dev2"; "test1"]
    with (["build"; "staging"] ++ ["prod"; "dev2"; "test1"]).
  change (["prod"; "test1"; "dev2"; "build"; "staging"] ++ [])
    with ((["prod"; "test1"; "dev2"] ++ ["build"; "staging"]) ++ []).
  rewrite app_nil_r.
  apply (Permutation_trans (Permutation_app_comm _ _)).
  apply Permutation_app_tail.
  apply perm_skip, perm_swap.
Defined.

(** C8 as stated fails: two insertion orders of the same stages are written
    in different orders when the stages share a first character. *)
Lemma save_config_stage_order_depends_on_insertion :
  ~ (forall l1 l2 : list string,
       Permutation l1 l2 ->
       save_config_stage_order l1 = save_config_stage_order l2).
Proof.
  intros H. specialize (H ["dev1"; "dev2"] ["dev2"; "dev1"] (perm_swap _ _ _)).
  vm_compute in H. discriminate H.
Qed.

(** ** Dictionaries *)

Section DictFacts.
Context {V : Type}.
Implicit Types (d l : list (string * V)) (k : string) (v : V).

Lemma dict_get_set d k v k' :
  dict_get (dict_set d k v) k'
  = if String.eqb k k' then Some v else dict_get d k'.
Proof.
  induction d as [|[k0 v0] d IH]; simpl.
  - reflexivity.
  - destruct (String.eqb_spec k0 k) as [->|Hne]; simpl.
    + destruct (String.eqb k k'); reflexivity.
    + rewrite IH. destruct (String.eqb_spec k0 k') as [->|Hne'].
      * destruct (String.eqb_spec k k'); [congruence | reflexivity].
      * reflexivity.
Qed.

Lemma dict_set_keys d k v :
  map fst (dict_set d k v)
  = if dict_mem k d then map fst d else map fst d ++ [k].
Proof.
  unfold dict_mem. induction d as [|[k0 v0] d IH]; simpl.
  - reflexivity.
  - destruct (String.eqb k0 k); simpl; [reflexivity|].
    rewrite IH. destruct (dict_get d k); reflexivity.
Qed.

Lemma dict_get_In d k : dict_get d k = None -> ~ In k (map fst d).
Proof.
  induction d as [|[k0 v0] d IH]; simpl; [tauto|].
  destruct (String.eqb_spec k0 k) as [->|Hne]; [discriminate|].
  intros Hg [Heq|Hin]; [congruence | now apply IH].
Qed.

Lemma dict_set_NoDup d k v :
  List.NoDup (map fst d) -> List.NoDup (map fst (dict_set d k v)).
Proof.
  intros Hnd. rewrite dict_set_keys. unfold dict_mem.
  destruct (dict_get d k) eqn:Hg; [assumption|].
  apply List.NoDup_app.
  - assumption.
  - constructor; [intros [] | constructor].
  - intros x Hx [<-|[]]. now apply (dict_get_In d k).
Qed.

(** A dictionary filled from a list of pairs holds, for each key, the
    value of its last pair. *)
Lemma dict_get_fold_set l d k :
  dict_get (fold_left (fun d t => dict_set d (fst t) (snd t)) l d) k
  = match assoc_last l k with
    | Some v => Some v
    | None => dict_get d k
    end.
Proof.
  revert d. induction l as [|[k0 v0] l IH]; intros d; simpl; [reflexivity|].
  rewrite IH. destruct (assoc_last l k); [reflexivity|].
  rewrite dict_get_set. destruct (String.eqb k0 k); reflexivity.
Qed.

Lemma assoc_NoDup l k v :
  List.NoDup (map fst l) -> In (k, v) l ->
  assoc_first l k = Some v /\ assoc_last l k = Some v.
Proof.
  unfold assoc_first. induction l as [|[k0 v0] l IH]; simpl; [tauto|].
  intros Hnd Hin. inversion Hnd as [|? ? Hnotin Hnd']; subst.
  destruct Hin as [Heq|Hin].
  - injection Heq as -> ->. rewrite String.eqb_refl. split; [reflexivity|].
    destruct (assoc_last l k) eqn:Hl; [|reflexivity].
    exfalso. apply Hnotin. clear -Hl.
    induction l as [|[k1 v1] l IH]; simpl in *; [discriminate|].
    destruct (assoc_last l k); [right; now apply IH|].
    destruct (String.eqb_spec k1 k); [now left | discriminate].
  - destruct (IH Hnd' Hin) as [H1 H2]. rewrite H2.
    destruct (String.eqb_spec k0 k) as [->|Hne]; [|now split].
    exfalso. apply Hnotin. now apply (in_map fst l (k, v)).
Qed.
End DictFacts.

(** ** The tag merger *)

Lemma tag_dict_get_emb (d : list (string * string)) (k : string) :
  tag_dict_get (map emb d) (JStr k) = option_map JStr (dict_get d k).
Proof.
  induction d as [|[k0 v0] d IH]; simpl; [reflexivity|].
  destruct (String.eqb k0 k); [reflexivity | exact IH].
Qed.

Lemma tag_dict_mem_emb (d : list (string * string)) (k : string) :
  tag_dict_mem (JStr k) (map emb d) = dict_mem k d.
Proof.
  unfold tag_dict_mem, dict_mem. rewrite tag_dict_get_emb.
  destruct (dict_get d k); reflexivity.
Qed.

Lemma tag_dict_set_emb (d : list (string * string)) (k v : string) :
  tag_dict_set (map emb d) (JStr k) (JStr v) = map emb (dict_set d k v).
Proof.
  induction d as [|[k0 v0] d IH]; simpl; [reflexivity|].
  destruct (String.eqb k0 k); simpl; [reflexivity | now rewrite IH].
Qed.

Lemma tag_dict_add_emb (d : list (string * string)) (t : string * string) :
  tag_dict_add (map emb d) (tag_obj t) = Ok (map emb (dict_set d (fst t) (snd t))).
Proof. unfold tag_dict_add. cbn. now rewrite tag_dict_set_emb. Qed.

Lemma merge_step_emb (d : list (string * string)) (t : string * string) :
  merge_step (map emb d) (tag_obj t) = Ok (map emb (merge_pair d t)).
Proof.
  unfold merge_step, merge_pair. cbn. rewrite tag_dict_mem_emb.
  destruct (dict_mem (fst t) d); cbn.
  - destruct (protected (fst t)); cbn; [reflexivity|].
    now rewrite tag_dict_set_emb.
  - now rewrite tag_dict_set_emb.
Qed.

(** On tags with string keys and values, [merge_tags] does not raise and
    computes [merge_pairs]. *)
Lemma merge_tags_typed (base overlay : list (string * string)) :
  merge_tags (map tag_obj base) (map tag_obj overlay)
  = Ok (map tag_obj (merge_pairs base overlay)).
Proof.
  unfold merge_tags, merge_pairs.
  assert (H1 : forall l d,
             foldM tag_dict_add (map tag_obj l) (map emb d)
             = Ok (map emb (fold_left (fun d t => dict_set d (fst t) (snd t)) l d))).
  { induction l as [|t l IH]; intros d; [reflexivity|].
    cbn [map foldM]. rewrite tag_dict_add_emb. cbn. apply IH. }
  assert (H2 : forall l d,
             foldM merge_step (map tag_obj l) (map emb d)
             = Ok (map emb (fold_left merge_pair l d))).
  { induction l as [|t l IH]; intros d; [reflexivity|].
    cbn [map foldM]. rewrite merge_step_emb. cbn. apply IH. }
  change (@nil (json * json)) with (map emb []).
  rewrite H1. cbn. rewrite H2. cbn. f_equal.
  rewrite map_map. reflexivity.
Qed.

Lemma dict_get_merge_pair (d : list (string * string)) t k :
  dict_get (merge_pair d t) k
  = if dict_mem (fst t) d && protected (fst t) then dict_get d k
    else if String.eqb (fst t) k then Some (snd t) else dict_get d k.
Proof.
  unfold merge_pair.
  destruct (dict_mem (fst t) d && protected (fst t)); [reflexivity|].
  apply dict_get_set.
Qed.

(** The overlay loop, key by key: a protected key keeps what the working
    dictionary held and otherwise takes the first overlay value; any other
    key takes the last overlay value. *)
Lemma dict_get_fold_merge (overlay d : list (string * string)) (k : string) :
  dict_get (fold_left merge_pair overlay d) k
  = if protected k then
      match dict_get d k with
      | Some v => Some v
      | None => assoc_first overlay k
      end
    else
      match assoc_last overlay k with
      | Some v => Some v
      | None => dict_get d k
      end.
Proof.
  revert d. induction overlay as [|[k0 v0] l IH]; intros d.
  - simpl. destruct (protected k), (dict_get d k); reflexivity.
  - cbn [fold_left]. rewrite IH, dict_get_merge_pair. unfold assoc_first.
    cbn [fst snd assoc_last dict_get]. unfold dict_mem.
    destruct (String.eqb_spec k0 k) as [->|Hne].
    + destruct (protected k) eqn:Hp.
      * destruct (dict_get d k); reflexivity.
      * rewrite andb_false_r. destruct (assoc_last l k); reflexivity.
    + destruct (match dict_get d k0 with Some _ => true | None => false end
                && protected k0), (protected k), (assoc_last l k); reflexivity.
Qed.

Lemma merge_pairs_NoDup (base overlay : list (string * string)) :
  List.NoDup (map fst (merge_pairs base overlay)).
Proof.
  unfold merge_pairs.
  assert (H1 : forall (l d : list (string * string)),
             List.NoDup (map fst d) ->
             List.NoDup (map fst (fold_left (fun d t => dict_set d (fst t) (snd t)) l d))).
  { induction l as [|t l IH]; intros d Hd; [exact Hd|].
    apply IH, dict_set_NoDup, Hd. }
  assert (H2 : forall (l d : list (string * string)),
             List.NoDup (map fst d) ->
             List.NoDup (map fst (fold_left merge_pair l d))).
  { induction l as [|t l IH]; intros d Hd; [exact Hd|].
    apply IH. unfold merge_pair.
    destruct (dict_mem (fst t) d && protected (fst t)); [exact Hd|].
    apply dict_set_NoDup, Hd. }
  apply H2, H1. constructor.
Qed.

(** The merged tag set, key by key. *)
Lemma dict_get_merge_pairs (base overlay : list (string * string)) (k : string) :
  dict_get (merge_pairs base overlay) k
  = match assoc_last base k with
    | Some bv =>
        if protected k then Some bv
        else match assoc_last overlay k with
             | Some ov => Some ov
             | None => Some bv
             end
    | None => if protected k then assoc_first overlay k else assoc_last overlay k
    end.
Proof.
  unfold merge_pairs. rewrite dict_get_fold_merge, dict_get_fold_set. simpl.
  destruct (assoc_last base k), (protected k), (assoc_last overlay k); reflexivity.
Qed.

(** C1.  On tag lists, [merge_tags] returns a tag list with pairwise
    distinct keys in which a protected key of the base keeps the base
    value, an unprotected key of the base that the overlay supplies takes
    the overlay's value, and a key absent from the base is added with the
    overlay's value whatever its namespace; the tag sets of the
    specification's example merge as stated. *)
Theorem merge_tags_precedence (base overlay : list (string * string)) :
  merge_tags (map tag_obj base) (map tag_obj overlay)
  = Ok (map tag_obj (merge_pairs base overlay))
  /\ List.NoDup (map fst (merge_pairs base overlay))
  /\ (forall k bv,
        assoc_last base k = Some bv -> protected k = true ->
        dict_get (merge_pairs base overlay) k = Some bv)
  /\ (forall k bv ov,
        assoc_last base k = Some bv -> protected k = false ->
        assoc_last overlay k = Some ov ->
        dict_get (merge_pairs base overlay) k = Some ov)
  /\ (forall k v,
        assoc_last base k = None ->
        List.NoDup (map fst overlay) -> In (k, v) overlay ->
        dict_get (merge_pairs base overlay) k = Some v)
  /\ (forall k,
        assoc_last base k = None ->
        dict_get (merge_pairs base overlay) k
        = if protected k then assoc_first overlay k else assoc_last overlay k)
  /\ merge_tags
       (map tag_obj [("Atlantis:App", "v1"); ("Owner", "alice")])
       (map tag_obj [("Atlantis:App", "v2"); ("Owner", "bob"); ("Team", "infra")])
     = Ok (map tag_obj [("Atlantis:App", "v1"); ("Owner", "bob"); ("Team", "infra")]).
Proof.
  split; [apply merge_tags_typed|].
  split; [apply merge_pairs_NoDup|].
  split; [|split; [|split; [|split]]].
  - intros k bv Hb Hp. now rewrite dict_get_merge_pairs, Hb, Hp.
  - intros k bv ov Hb Hp Ho. now rewrite dict_get_merge_pairs, Hb, Hp, Ho.
  - intros k v Hb Hnd Hin. rewrite dict_get_merge_pairs, Hb.
    destruct (assoc_NoDup overlay k v Hnd Hin) as [H1 H2].
    destruct (protected k); assumption.
  - intros k Hb. now rewrite dict_get_merge_pairs, Hb.
  - reflexivity.
Qed.

Lemma merge_tags_precedence_witness :
  dict_get (merge_pairs [("Atlantis:App", "v1"); ("Owner", "alice")]
              [("Atlantis:App", "v2"); ("Owner", "bob"); ("Team", "infra")])
    "Atlantis:App" = Some "v1"
  /\ dict_get (merge_pairs [("Atlantis:App", "v1"); ("Owner", "alice")]
                 [("Atlantis:App", "v2"); ("Owner", "bob"); ("Team", "infra")])
       "Owner" = Some "bob"
  /\ dict_get (merge_pairs [("Atlantis:App", "v1"); ("Owner", "alice")]
                 [("Atlantis:App", "v2"); ("Owner", "bob"); ("Team", "infra")])
       "Team" = Some "infra".
Proof.
  pose proof (merge_tags_precedence
                [("Atlantis:App", "v1"); ("Owner", "alice")]
                [("Atlantis:App", "v2"); ("Owner", "bob"); ("Team", "infra")])
    as (_ & _ & Hprot & Hover & Hnew & _).
  split; [|split].
  - apply (Hprot "Atlantis:App" "v1"); reflexivity.
  - apply (Hover "Owner" "alice" "bob"); reflexivity.
  - apply (Hnew "Team" "infra"); [reflexivity | |].
    + repeat constructor; simpl; intuition discriminate.
    + simpl. auto.
Defined.

(** ** The parameter validator *)

(** A value the whole of which matches also matches at its start. *)
Lemma match_all_prefix (r : regex) (s : list ascii) (bol : bool) :
  match_all bol r s = true -> match_prefix bol r s = true.
Proof.
  revert r bol. induction s as [|c s IH]; intros r bol H; simpl in *.
  - now rewrite H.
  - apply orb_true_iff. right. now apply IH.
Qed.

Lemma re_fullmatch_match (r : regex) (s : string) :
  re_fullmatch r s = true -> re_match r s = true.
Proof. apply match_all_prefix. Qed.

Section ValidatorFacts.
Context {F : Type}.
Context (float_of_string : string -> option F).
Context (float_lt : F -> F -> bool).
Context (float_str : F -> string).

Abbreviation validate := (validate_parameter float_of_string float_lt float_str).
Abbreviation type_rule := (type_check float_of_string float_lt float_str).

(** The first rule: an empty value is accepted when a default exists. *)
Lemma validate_default (value : string) (def : param_def) :
  str_empty value = true -> Default def <> None -> validate value def = is_valid.
Proof.
  intros Hv Hd. unfold validate_parameter. rewrite Hv.
  destruct (Default def); [reflexivity | congruence].
Qed.

(** The second rule rejects whatever the pattern and the type say. *)
Lemma validate_allowed_values (value : string) (def : param_def) :
  str_empty value && (match Default def with Some _ => true | None => false end)
  = false ->
  AllowedValues def <> [] -> str_in value (AllowedValues def) = false ->
  validate value def
  = invalid ("Value must be one of: " +:+ join ", " (AllowedValues def)).
Proof.
  intros H1 Hne Hin. unfold validate_parameter. rewrite H1, Hin.
  destruct (AllowedValues def); [congruence | reflexivity].
Qed.

(** The third rule rejects whatever the type says. *)
Lemma validate_allowed_pattern (value : string) (def : param_def) (p : pattern) :
  str_empty value && (match Default def with Some _ => true | None => false end)
  = false ->
  AllowedValues def = [] \/ str_in value (AllowedValues def) = true ->
  AllowedPattern def = Some p -> pattern_src p <> "" ->
  re_match (pattern_re p) value = false ->
  validate value def = invalid ("Value must match pattern: " +:+ pattern_src p).
Proof.
  intros H1 Hvals Hp Hsrc Hm. unfold validate_parameter. rewrite H1, Hp, Hm.
  assert (Hs : str_empty (pattern_src p) = false).
  { destruct (pattern_src p); [congruence | reflexivity]. }
  rewrite Hs.
  destruct Hvals as [-> | ->]; [reflexivity|].
  destruct (AllowedValues def); reflexivity.
Qed.

(** The type-specific rule decides only what the first three let through. *)
Lemma validate_type (value : string) (def : param_def) :
  str_empty value && (match Default def with Some _ => true | None => false end)
  = false ->
  AllowedValues def = [] \/ str_in value (AllowedValues def) = true ->
  match AllowedPattern def with
  | Some p => pattern_src p = "" \/ re_match (pattern_re p) value = true
  | None => True
  end ->
  validate value def
  = match type_rule value def with Some r => r | None => is_valid end.
Proof.
  intros H1 Hvals Hp. unfold validate_parameter. rewrite H1.
  assert (Hv : negb (match AllowedValues def with [] => true | _ => false end)
               && negb (str_in value (AllowedValues def)) = false).
  { destruct Hvals as [-> | ->]; [reflexivity | apply andb_false_r]. }
  rewrite Hv. destruct (AllowedPattern def) as [p|]; [|reflexivity].
  destruct Hp as [-> | ->]; [reflexivity|]. now rewrite andb_false_r.
Qed.
End ValidatorFacts.

(** C3.  The rules apply in a fixed order and the first failure decides:
    an empty value with a default is accepted; otherwise a value outside a
    non-empty [AllowedValues] is rejected with the allowed values as the
    reason; otherwise a value that does not match a non-empty
    [AllowedPattern] is rejected with the pattern as the reason; only what
    passed these is decided by the type-specific checks.  With allowed
    values x, y and the pattern [^z.*], the value q is rejected with the
    reason that names the allowed values. *)
Theorem validate_parameter_rule_order {F : Type}
    (float_of_string : string -> option F) (float_lt : F -> F -> bool)
    (float_str : F -> string) (value : string) (def : param_def) :
  let validate := validate_parameter float_of_string float_lt float_str in
  let first_rule_accepts :=
    str_empty value && (match Default def with Some _ => true | None => false end) in
  (first_rule_accepts = true -> validate value def = is_valid)
  /\ (first_rule_accepts = false ->
      AllowedValues def <> [] -> str_in value (AllowedValues def) = false ->
      validate value def
      = invalid ("Value must be one of: " +:+ join ", " (AllowedValues def)))
  /\ (forall p,
        first_rule_accepts = false ->
        AllowedValues def = [] \/ str_in value (AllowedValues def) = true ->
        AllowedPattern def = Some p -> pattern_src p <> "" ->
        re_match (pattern_re p) value = false ->
        validate value def = invalid ("Value must match pattern: " +:+ pattern_src p))
  /\ (first_rule_accepts = false ->
      AllowedValues def = [] \/ str_in value (AllowedValues def) = true ->
      match AllowedPattern def with
      | Some p => pattern_src p = "" \/ re_match (pattern_re p) value = true
      | None => True
      end ->
      validate value def
      = match type_check float_of_string float_lt float_str value def with
        | Some r => r
        | None => is_valid
        end)
  /\ (AllowedValues def = ["x"; "y"] -> AllowedPattern def = Some z_pattern ->
      validate "q" def = invalid "Value must be one of: x, y"
      /\ re_match (pattern_re z_pattern) "q" = false).
Proof.
  cbv zeta. split; [|split; [|split; [|split]]].
  - intros H. apply andb_true_iff in H as [Hv Hd].
    apply validate_default; [exact Hv|]. destruct (Default def); congruence.
  - apply validate_allowed_values.
  - intros p. apply validate_allowed_pattern.
  - apply validate_type.
  - intros Hv _. split; [|reflexivity].
    rewrite (validate_allowed_values float_of_string float_lt float_str "q" def);
      rewrite ?Hv; [reflexivity | reflexivity | discriminate | reflexivity].
Qed.

Lemma validate_parameter_rule_order_witness :
  validate_parameter (fun _ : string => @None Z) Z.ltb (fun _ => "") "q"
    {| Type_ := Some "Number"; Default := Some "x";
       AllowedValues := ["x"; "y"]; AllowedPattern := Some z_pattern;
       MinLength := None; MaxLength := None; MinValue := None; MaxValue := None |}
  = invalid "Value must be one of: x, y".
Proof.
  pose proof (validate_parameter_rule_order (fun _ : string => @None Z) Z.ltb
                (fun _ => "") "q"
                {| Type_ := Some "Number"; Default := Some "x";
                   AllowedValues := ["x"; "y"]; AllowedPattern := Some z_pattern;
                   MinLength := None; MaxLength := None;
                   MinValue := None; MaxValue := None |})
    as (_ & _ & _ & _ & H).
  exact (proj1 (H eq_refl eq_refl)).
Defined.

(** C2 fails on the code.  [re.match] anchors the pattern at the start of
    the value only: with the pattern [a] the value ab, which the pattern
    does not match as a whole, is accepted on the pattern rule.  The other
    half of the claim holds: a value rejected by the pattern rule has the
    pattern in its reason. *)
Theorem validate_parameter_accepts_prefix_match {F : Type}
    (float_of_string : string -> option F) (float_lt : F -> F -> bool)
    (float_str : F -> string) :
  let def := {| Type_ := None; Default := None; AllowedValues := [];
                AllowedPattern := Some a_pattern;
                MinLength := None; MaxLength := None;
                MinValue := None; MaxValue := None |} in
  re_fullmatch (pattern_re a_pattern) "ab" = false
  /\ re_match (pattern_re a_pattern) "ab" = true
  /\ validate_parameter float_of_string float_lt float_str "ab" def = is_valid
  /\ validate_parameter float_of_string float_lt float_str "b" def
     = invalid "Value must match pattern: a".
Proof. cbv zeta. repeat split. Qed.

(** ** The differ *)

Lemma cfg_eqb_eq (a b : cfg_value) : cfg_eqb a b = true <-> a = b.
Proof.
  destruct a as [x|x], b as [y|y]; simpl; split; intros H; try discriminate.
  - apply String.eqb_eq in H. now subst.
  - injection H as ->. apply String.eqb_refl.
  - apply Bool.eqb_prop in H. now subst.
  - injection H as ->. apply Bool.eqb_reflx.
Qed.

Lemma opt_eqb_eq (a b : option cfg_value) : opt_eqb a b = true <-> a = b.
Proof.
  destruct a as [x|], b as [y|]; simpl; split; intros H; try discriminate;
    try reflexivity.
  - apply cfg_eqb_eq in H. now subst.
  - injection H as ->. now apply cfg_eqb_eq.
Qed.

Lemma insert_key_In (k x : string) (l : list string) :
  In x (insert_key k l) <-> x = k \/ In x l.
Proof.
  induction l as [|y l IH]; simpl.
  - intuition.
  - destruct (String.eqb_spec k y) as [->|Hne]; simpl; [intuition|].
    destruct (String.ltb k y); simpl; [intuition|].
    rewrite IH. intuition.
Qed.

Lemma sorted_keys_In (a b : list (string * cfg_value)) (x : string) :
  In x (sorted_keys a b) <-> In x (map fst a) \/ In x (map fst b).
Proof.
  unfold sorted_keys. rewrite <- in_app_iff.
  induction (map fst a ++ map fst b) as [|k l IH]; simpl; [tauto|].
  rewrite insert_key_In, IH. intuition.
Qed.

Lemma dict_get_keys {V : Type} (d : list (string * V)) (k : string) :
  dict_get d k <> None -> In k (map fst d).
Proof.
  induction d as [|[k0 v0] d IH]; simpl; [congruence|].
  destruct (String.eqb_spec k0 k); [now left | right; now apply IH].
Qed.

(** A loop of the differ sets [differences] exactly when it meets a key on
    which the two sides differ. *)
Lemma compare_domain_differences (local stack : list (string * cfg_value)) st :
  fst (compare_domain local stack st) = true
  <-> fst st = true \/ mismatch local stack.
Proof.
  unfold compare_domain, mismatch.
  assert (Hgen : forall keys st,
             fst (fold_left
                    (fun st key =>
                       (if negb (opt_eqb (dict_get local key) (dict_get stack key))
                        then true else fst st,
                        snd st ++ [print_comparison key (dict_get local key)
                                     (dict_get stack key)]))
                    keys st) = true
             <-> fst st = true
                 \/ exists key, In key keys /\ dict_get local key <> dict_get stack key).
  { induction keys as [|k keys IH]; intros st0; simpl.
    - split; [auto | intros [H|(key & [] & _)]; exact H].
    - rewrite IH. simpl.
      destruct (opt_eqb (dict_get local k) (dict_get stack k)) eqn:Heq; simpl.
      + apply opt_eqb_eq in Heq. split.
        * intros [H|(key & Hin & Hne)]; [now left | right; exists key; auto].
        * intros [H|(key & [->|Hin] & Hne)];
            [now left | congruence | right; exists key; auto].
      + split; [|auto]. intros _. right. exists k. split; [now left|].
        intros H. apply opt_eqb_eq in H. congruence. }
  rewrite Hgen. split; intros [H|(key & Hin & Hne)]; try (now left); right;
    exists key; (split; [|exact Hne]).
  - now apply sorted_keys_In.
  - now apply sorted_keys_In.
Qed.

Lemma copy_key_get (key : string) (local stack : list (string * cfg_value)) (k : string) :
  dict_get (copy_key key local stack) k
  = if String.eqb key k
    then match dict_get local key with
         | Some v => Some v
         | None => dict_get stack k
         end
    else dict_get stack k.
Proof.
  unfold copy_key. destruct (dict_get local key) as [v|] eqn:Hl.
  - rewrite dict_get_set. reflexivity.
  - destruct (String.eqb key k); reflexivity.
Qed.

(** C4, as the code has it.  The differ returns true exactly when, after
    [confirm_changeset] and [s3_bucket] were copied from the local deploy
    parameters into those of the stack, some key of the parameter
    overrides, of the deploy parameters or of the tags has different local
    and stack values, an absent value being different from every present
    one; a copied key never differs. *)
Theorem compare_configurations_differences (stage_id : string)
    (local_config stack_config : config) :
  let local_params := stage_parameters stage_id local_config in
  let stack_params := stage_parameters stage_id stack_config in
  let stack_atlantis :=
    copy_non_essentials (atlantis local_config) (atlantis stack_config) in
  (fst (compare_configurations stage_id local_config stack_config) = true
   <-> mismatch (parameter_overrides local_params) (parameter_overrides stack_params)
       \/ mismatch (atlantis local_config) stack_atlantis
       \/ mismatch (tags_dict (tags local_params)) (tags_dict (tags stack_params)))
  /\ (forall key,
        key = "confirm_changeset" \/ key = "s3_bucket" ->
        dict_mem key (atlantis local_config) = true ->
        dict_get (atlantis local_config) key = dict_get stack_atlantis key).
Proof.
  cbv zeta. split.
  - unfold compare_configurations. rewrite !compare_domain_differences. simpl.
    intuition discriminate.
  - intros key Hkey Hmem. unfold copy_non_essentials, dict_mem in *.
    rewrite !copy_key_get.
    destruct Hkey as [-> | ->]; simpl;
      destruct (dict_get (atlantis local_config) _); congruence.
Qed.

Lemma compare_configurations_differences_witness :
  dict_get [("s3_bucket", VStr "local-bucket"); ("region", VStr "us-east-1")]
    "s3_bucket"
  = dict_get (copy_non_essentials
                [("s3_bucket", VStr "local-bucket"); ("region", VStr "us-east-1")]
                [("s3_bucket", VStr "other-bucket"); ("region", VStr "us-east-1")])
      "s3_bucket".
Proof.
  apply (proj2 (compare_configurations_differences "test"
                  {| atlantis := [("s3_bucket", VStr "local-bucket");
                                  ("region", VStr "us-east-1")];
                     deployments := [] |}
                  {| atlantis := [("s3_bucket", VStr "other-bucket");
                                  ("region", VStr "us-east-1")];
                     deployments := [] |}) "s3_bucket").
  - right. reflexivity.
  - reflexivity.
Defined.

(** C4 as stated fails: the flag compares the values themselves, not their
    [format_value] text.  A local override whose value is the text None and
    that the stack lacks makes the differ return true, although both sides
    read None once formatted and the printed comparison is a match. *)
Lemma compare_configurations_not_formatted :
  ~ (forall (stage_id : string) (local_config stack_config : config),
       fst (compare_configurations stage_id local_config stack_config) = true
       <-> mismatch_formatted
             (parameter_overrides (stage_parameters stage_id local_config))
             (parameter_overrides (stage_parameters stage_id stack_config))
           \/ mismatch_formatted (atlantis local_config)
                (copy_non_essentials (atlantis local_config) (atlantis stack_config))
           \/ mismatch_formatted
                (tags_dict (tags (stage_parameters stage_id local_config)))
                (tags_dict (tags (stage_parameters stage_id stack_config)))).
Proof.
  intros H.
  specialize (H "test"
                {| atlantis := [];
                   deployments :=
                     [("test", {| parameter_overrides := [("Mode", VStr "None")];
                                  tags := [] |})] |}
                {| atlantis := [];
                   deployments :=
                     [("test", {| parameter_overrides := []; tags := [] |})] |}).
  destruct H as [H _]. specialize (H eq_refl).
  destruct H as [(key & Hin & Hne) | [(key & Hin & Hne) | (key & Hin & Hne)]];
    simpl in *.
  - destruct Hin as [[<-|[]]|[]]. now apply Hne.
  - destruct Hin as [[]|[]].
  - destruct Hin as [[]|[]].
Qed.

(** ** The tokenizer on serialized pairs *)

(** Inside double quotes, text without a double quote or a backslash is
    read literally up to the closing quote. *)
Lemma read_tokens_quoted (w : string) (quoted : bool) (token rest : string) :
  has_char dquote w = false -> has_char backslash w = false ->
  read_tokens (InQuote dquote) quoted token (w +:+ String dquote rest)
  = read_tokens InWord true (token +:+ w) rest.
Proof.
  revert quoted token. induction w as [|c w IH]; intros quoted token Hq Hb.
  - rewrite append_nil, append_empty_r. reflexivity.
  - simpl in Hq, Hb. apply orb_false_iff in Hq as [Hcq Hq].
    apply orb_false_iff in Hb as [Hcb Hb].
    rewrite append_cons. cbn [read_tokens]. unfold is_escape.
    rewrite Hcq, Hcb. cbn [andb].
    rewrite (IH true (add_char token c) Hq Hb). unfold add_char.
    rewrite append_assoc. reflexivity.
Qed.

(** The token a serialized pair is read back as. *)
Lemma read_tokens_quote_pair (k v rest : string) :
  has_char dquote k = false -> has_char backslash k = false ->
  has_char dquote v = false -> has_char backslash v = false ->
  read_tokens InSpace false "" (quote_pair (k, v) +:+ rest)
  = read_tokens InWord true (k +:+ "=" +:+ v) rest.
Proof.
  intros Hkq Hkb Hvq Hvb. unfold quote_pair. cbn [fst snd].
  rewrite append_cons, append_assoc, !append_cons, append_assoc, append_cons,
    append_nil.
  cbn [read_tokens]. change (is_whitespace dquote) with false.
  change (is_escape dquote) with false. change (is_quote dquote) with true.
  cbv iota. rewrite (read_tokens_quoted k false "" _ Hkq Hkb).
  rewrite append_nil. cbn [read_tokens].
  change (is_whitespace "=") with false. change (is_quote "=") with false.
  change (is_escape "=") with false. change (is_whitespace dquote) with false.
  change (is_quote dquote) with true. cbv iota.
  rewrite (read_tokens_quoted v true _ _ Hvq Hvb). unfold add_char.
  rewrite append_assoc. reflexivity.
Qed.

Lemma read_tokens_word_end (token : string) :
  read_tokens InWord true token "" = Ok [token].
Proof. cbn [read_tokens]. now rewrite orb_true_r. Qed.

Lemma read_tokens_word_space (token rest : string) :
  read_tokens InWord true token (" " +:+ rest)
  = (toks ← read_tokens InSpace false "" rest; Ok (token :: toks)).
Proof.
  change (" " +:+ rest) with (String " " rest). cbn [read_tokens].
  change (is_whitespace " ") with true. cbv iota. now rewrite orb_true_r.
Qed.

Lemma shlex_split_stringify (m : list (string * string)) :
  Forall round_trips m ->
  shlex_split (stringify_parameter_overrides m)
  = Ok (map (fun kv => fst kv +:+ "=" +:+ snd kv) m).
Proof.
  unfold shlex_split, stringify_parameter_overrides, join.
  induction 1 as [|[k v] m ((Hkq & Hkb & _) & _ & (Hvq & Hvb & _)) Hm IH];
    [reflexivity|].
  cbn [fst snd] in *. destruct m as [|kv' m].
  - cbn [map String.concat].
    rewrite <- (append_empty_r (quote_pair (k, v))).
    rewrite (read_tokens_quote_pair k v "" Hkq Hkb Hvq Hvb).
    apply read_tokens_word_end.
  - cbn [map String.concat] in *.
    rewrite (read_tokens_quote_pair k v _ Hkq Hkb Hvq Hvb).
    rewrite read_tokens_word_space, IH. reflexivity.
Qed.

Lemma split_first_pair (k v : string) :
  has_char "=" k = false -> split_first "=" (k +:+ "=" +:+ v) = Some (k, v).
Proof.
  induction k as [|c k IH]; intros Hk.
  - reflexivity.
  - simpl in Hk. apply orb_false_iff in Hk as [Hc Hk].
    rewrite append_cons. cbn [split_first]. now rewrite Hc, (IH Hk).
Qed.

Lemma dict_set_new {V : Type} (d : list (string * V)) (k : string) (v : V) :
  ~ In k (map fst d) -> dict_set d k v = d ++ [(k, v)].
Proof.
  induction d as [|[k0 v0] d IH]; simpl; intros Hn; [reflexivity|].
  destruct (String.eqb_spec k0 k) as [->|Hne]; [tauto|].
  rewrite IH; [reflexivity | tauto].
Qed.

(** Filling a dictionary from pairs with distinct new keys appends them. *)
Lemma fold_dict_set_NoDup {V : Type} (m d : list (string * V)) :
  List.NoDup (map fst (d ++ m)) ->
  fold_left (fun d t => dict_set d (fst t) (snd t)) m d = d ++ m.
Proof.
  revert d. induction m as [|[k v] m IH]; intros d Hnd; simpl.
  - now rewrite app_nil_r.
  - rewrite dict_set_new.
    + rewrite IH; rewrite <- app_assoc; [reflexivity | exact Hnd].
    + rewrite map_app in Hnd. apply NoDup_remove_2 in Hnd.
      intros Hin. apply Hnd. apply in_or_app. now left.
Qed.

Lemma fold_parse_part (m d : list (string * string)) (log : list log_entry) :
  Forall round_trips m ->
  fold_left parse_part (map (fun kv => fst kv +:+ "=" +:+ snd kv) m) (d, log)
  = (fold_left (fun d t => dict_set d (fst t) (snd t)) m d, log).
Proof.
  intros Hm. revert d.
  induction Hm as [|[k v] m ((_ & _ & Hk) & Heq & (_ & _ & Hv)) Hm IH]; intros d;
    [reflexivity|].
  cbn [map fold_left fst snd] in *. unfold parse_part at 2.
  rewrite (split_first_pair k v Heq). cbn [fst snd]. rewrite Hk, Hv. apply IH.
Qed.

(** C7, as the code has it.  Parsing the serialized form of a map gives the
    map back, and logs nothing, when no key or value contains a double
    quote or a backslash or has leading or trailing white space and no key
    contains an equals sign; the map A = 1, B = two words is such a map. *)
Theorem parameter_overrides_round_trip (m : list (string * string)) :
  (List.NoDup (map fst m) -> Forall round_trips m ->
   parse_parameter_overrides (stringify_parameter_overrides m) = (m, []))
  /\ parse_parameter_overrides
       (stringify_parameter_overrides [("A", "1"); ("B", "two words")])
     = ([("A", "1"); ("B", "two words")], []).
Proof.
  split; [|reflexivity].
  intros Hnd Hm. unfold parse_parameter_overrides.
  destruct (str_empty (stringify_parameter_overrides m)) eqn:He.
  - destruct m as [|[k v] m]; [reflexivity|].
    unfold stringify_parameter_overrides, join in He. cbn [map String.concat] in He.
    destruct m; discriminate He.
  - rewrite (shlex_split_stringify m Hm), (fold_parse_part m [] [] Hm).
    now rewrite fold_dict_set_NoDup.
Qed.

Lemma parameter_overrides_round_trip_witness :
  parse_parameter_overrides
    (stringify_parameter_overrides [("Region", "us-east-1"); ("Name", "my app")])
  = ([("Region", "us-east-1"); ("Name", "my app")], []).
Proof.
  apply (proj1 (parameter_overrides_round_trip
                  [("Region", "us-east-1"); ("Name", "my app")])).
  - repeat constructor; simpl; intuition discriminate.
  - repeat constructor.
Defined.

(** C7 as stated fails: [parse_parameter_overrides] strips the white space
    around a value, so a value with a leading space does not come back. *)
Lemma parameter_overrides_round_trip_fails :
  ~ (forall m : list (string * string),
       List.NoDup (map fst m) ->
       fst (parse_parameter_overrides (stringify_parameter_overrides m)) = m).
Proof.
  intros H. specialize (H [("A", " x")]).
  assert (Hnd : List.NoDup (map fst [("A", " x")])).
  { repeat constructor. simpl. tauto. }
  specialize (H Hnd). vm_compute in H. discriminate H.
Qed.

(** ** Malformed input *)

Lemma split_first_None (c : ascii) (s : string) :
  split_first c s = None <-> has_char c s = false.
Proof.
  induction s as [|x s IH]; simpl; [tauto|].
  destruct (Ascii.eqb x c); simpl; [split; discriminate|].
  destruct (split_first c s) as [[a b]|]; [|tauto].
  split; [discriminate|]. intros H. apply IH in H. discriminate.
Qed.

(** The loop of [parse_parameter_overrides] in closed form: the tokens with
    an equals sign fill the dictionary, each of the others is skipped with
    one warning. *)
Lemma fold_parse_part_closed (parts : list string) d log :
  fold_left parse_part parts (d, log)
  = (fold_left (fun d t => dict_set d (fst t) (snd t)) (part_pairs parts) d,
     log ++ part_warnings parts).
Proof.
  revert d log. induction parts as [|part parts IH]; intros d log.
  - simpl. now rewrite app_nil_r.
  - cbn [fold_left part_pairs part_warnings flat_map]. unfold parse_part at 2.
    destruct (split_first "=" part) as [[key value]|]; cbn [fst snd].
    + rewrite IH. reflexivity.
    + rewrite IH, <- app_assoc. reflexivity.
Qed.

Lemma part_pairs_app (l1 l2 : list string) :
  part_pairs (l1 ++ l2) = part_pairs l1 ++ part_pairs l2.
Proof. unfold part_pairs. apply flat_map_app. Qed.

(** What a layer contributes to [defaults] does not depend on the log. *)
Lemma fold_load_layer_fst (fs : string -> layer) (files : list string) d log1 log2 :
  fst (fold_left (load_layer fs) files (d, log1))
  = fst (fold_left (load_layer fs) files (d, log2)).
Proof.
  revert d log1 log2. induction files as [|f files IH]; intros d log1 log2;
    [reflexivity|].
  cbn [fold_left]. unfold load_layer at 2 4. cbn [fst snd].
  destruct (fs f) as [|e|j].
  - apply IH.
  - destruct e; apply IH.
  - destruct (deep_update d j) as [d' [e|]]; apply IH.
Qed.

Lemma load_layer_failed (fs : string -> layer) st (file : string) (e : exn) :
  fs file = Failed e ->
  fst (load_layer fs st file) = fst st
  /\ exists msg, snd (load_layer fs st file) = snd st ++ [LogError msg].
Proof.
  intros Hf. unfold load_layer. rewrite Hf.
  destruct e; (split; [reflexivity | eexists; reflexivity]).
Qed.

(** The log only grows. *)
Lemma fold_load_layer_log (fs : string -> layer) (files : list string) st :
  exists more, snd (fold_left (load_layer fs) files st) = snd st ++ more.
Proof.
  revert st. induction files as [|f files IH]; intros st.
  - exists []. simpl. now rewrite app_nil_r.
  - cbn [fold_left]. destruct (IH (load_layer fs st f)) as [more Hmore].
    rewrite Hmore. unfold load_layer.
    destruct (fs f) as [|e|j].
    + now exists more.
    + destruct e; cbn [snd]; rewrite <- app_assoc; eexists; reflexivity.
    + destruct (deep_update (fst st) j) as [d' [e|]]; cbn [snd];
        rewrite <- app_assoc; eexists; reflexivity.
Qed.

Lemma parse_tag_token_cases (tags : list (string * string)) (token : string) :
  (exists tags', parse_tag_token tags token = Ok tags')
  \/ (exists msg, parse_tag_token tags token = Raise (ValueError msg)).
Proof.
  unfold parse_tag_token. destruct (str_empty token); [left; eauto|].
  destruct (split_first "=" token) as [[key value]|]; [|right; eauto].
  destruct (str_empty _ || str_empty _); [right | left]; eauto.
Qed.

Lemma parse_tag_token_bad (tags : list (string * string)) (token : string) :
  str_empty token = false -> has_char "=" token = false ->
  exists msg, parse_tag_token tags token = Raise (ValueError msg).
Proof.
  intros Hne Heq. unfold parse_tag_token. rewrite Hne.
  apply split_first_None in Heq. rewrite Heq. eauto.
Qed.

Lemma foldM_parse_tag_raises (tokens : list string) (token : string) tags :
  In token tokens -> str_empty token = false -> has_char "=" token = false ->
  exists msg, foldM parse_tag_token tokens tags = Raise (ValueError msg).
Proof.
  revert tags. induction tokens as [|t tokens IH]; intros tags Hin Hne Heq;
    [destruct Hin|].
  cbn [foldM]. destruct Hin as [->|Hin].
  - destruct (parse_tag_token_bad tags token Hne Heq) as [msg ->]. cbn. eauto.
  - destruct (parse_tag_token_cases tags t) as [[tags' ->]|[msg ->]]; cbn.
    + now apply IH.
    + eauto.
Qed.

(** C9, as the code has it.  [parse_parameter_overrides] never raises: a
    token without an equals sign is skipped alone, with a warning, and a
    string the tokenizer rejects yields the empty dictionary and one logged
    error.  [load_defaults] never raises: a layer that cannot be read or
    parsed is logged and skipped, and the layers before and after it are
    applied as if it were absent.  [parse_tags] does raise: a string the
    tokenizer rejects, and a non-empty token without an equals sign, end
    the call with a [ValueError]. *)
Theorem malformed_input_handling :
  (forall s parts,
      str_empty s = false -> shlex_split s = Ok parts ->
      parse_parameter_overrides s
      = (fold_left (fun d t => dict_set d (fst t) (snd t)) (part_pairs parts) [],
         part_warnings parts))
  /\ (forall parts1 parts2 part,
        has_char "=" part = false ->
        part_pairs (parts1 ++ part :: parts2) = part_pairs (parts1 ++ parts2))
  /\ (forall s e,
        str_empty s = false -> shlex_split s = Raise e ->
        parse_parameter_overrides s
        = ([], [LogError ("Error parsing parameter overrides: " +:+ exn_str e)]))
  /\ (forall fs files1 files2 file e,
        fs file = Failed e ->
        fst (resolve fs (files1 ++ file :: files2)) = fst (resolve fs (files1 ++ files2))
        /\ exists msg, In (LogError msg) (snd (resolve fs (files1 ++ file :: files2))))
  /\ (forall s tokens token,
        str_empty s = false -> shlex_split s = Ok tokens ->
        In token tokens -> str_empty token = false -> has_char "=" token = false ->
        exists msg, parse_tags s = Raise (ValueError msg))
  /\ (forall s msg,
        str_empty s = false -> shlex_split s = Raise (ValueError msg) ->
        parse_tags s = Raise (ValueError ("Error parsing tags: " +:+ msg))).
Proof.
  split; [|split; [|split; [|split; [|split]]]].
  - intros s parts Hs Hsplit. unfold parse_parameter_overrides.
    rewrite Hs, Hsplit. apply fold_parse_part_closed.
  - intros parts1 parts2 part Hpart. rewrite !part_pairs_app.
    cbn [part_pairs flat_map]. apply split_first_None in Hpart. now rewrite Hpart.
  - intros s e Hs Hsplit. unfold parse_parameter_overrides. now rewrite Hs, Hsplit.
  - intros fs files1 files2 file e Hf. unfold resolve.
    rewrite !fold_left_app. cbn [fold_left].
    destruct (load_layer_failed fs (fold_left (load_layer fs) files1 ([], []))
                file e Hf) as [Hfst (msg & Hsnd)].
    split.
    + destruct (load_layer fs _ file) as [d log] eqn:Hl.
      destruct (fold_left (load_layer fs) files1 ([], [])) as [d1 log1] eqn:H1.
      cbn [fst] in Hfst. subst d. apply fold_load_layer_fst.
    + exists msg.
      destruct (fold_load_layer_log fs files2
                  (load_layer fs (fold_left (load_layer fs) files1 ([], [])) file))
        as [more Hmore].
      rewrite Hmore, Hsnd. apply in_or_app. left. apply in_or_app. right. now left.
  - intros s tokens token Hs Hsplit Hin Hne Heq. unfold parse_tags.
    unfold shlex_split in Hsplit. rewrite Hs, Hsplit. cbn.
    destruct (foldM_parse_tag_raises tokens token [] Hin Hne Heq) as [msg ->].
    eexists. reflexivity.
  - intros s msg Hs Hsplit. unfold parse_tags.
    unfold shlex_split in Hsplit. now rewrite Hs, Hsplit.
Qed.

Lemma malformed_input_handling_witness :
  parse_parameter_overrides "A=1 junk B=2" = ([("A", "1"); ("B", "2")],
    [LogWarning "Skipping invalid parameter format: junk"])
  /\ exists msg, parse_tags "Owner=alice junk" = Raise (ValueError msg).
Proof.
  pose proof malformed_input_handling as (Hparse & _ & _ & _ & Htags & _).
  split.
  - apply (Hparse "A=1 junk B=2" ["A=1"; "junk"; "B=2"]); reflexivity.
  - apply (Htags "Owner=alice junk" ["Owner=alice"; "junk"] "junk");
      try reflexivity. simpl. auto.
Defined.

(** C9 as stated fails: a tag string with a token that is not a key=value
    pair is not skipped, [parse_tags] raises. *)
Lemma parse_tags_raises :
  ~ (forall tag_string : string, exists tags, parse_tags tag_string = Ok tags).
Proof.
  intros H. destruct (H "Owner=alice junk") as [tags Htags].
  vm_compute in Htags. discriminate Htags.
Qed.

(** ** The defaults resolver *)

Lemma deep_update_items (original items : list (string * json)) :
  deep_update original (JDict items) = update_items original items.
Proof.
  cbn [deep_update]. revert original.
  induction items as [|[key value] rest IH]; intros original; [reflexivity|].
  cbn [update_items].
  destruct (dict_get original key) as [[| | | |old|child]|]; try apply IH;
    destruct value as [| | | |new|d]; try apply IH.
  - destruct (merge_tags old new); [apply IH | reflexivity].
  - destruct (deep_update child (JDict d)) as [child' [e|]]; [reflexivity | apply IH].
Qed.

(** *** Keys of [tag_dict] *)

Lemma key_eqb_sym (a b : json) : key_eqb a b = key_eqb b a.
Proof.
  destruct a as [|x|m|x| |], b as [|y|n|y| |]; simpl; try reflexivity.
  - now destruct x, y.
  - apply Z.eqb_sym.
  - apply String.eqb_sym.
Qed.

Lemma key_eqb_trans (a b c : json) :
  key_eqb a b = true -> key_eqb a c = key_eqb b c.
Proof.
  destruct a as [|x|m|x| |], b as [|y|n|y| |]; simpl; try discriminate;
    intros H; destruct c as [|z|p|z| |]; simpl; try reflexivity;
    try apply Bool.eqb_prop in H; try apply Z.eqb_eq in H;
    try apply String.eqb_eq in H; subst; try reflexivity;
    try apply Z.eqb_sym;
    repeat match goal with b : bool |- _ => destruct b end; reflexivity.
Qed.

Lemma key_eqb_refl (a : json) : hashable a = true -> key_eqb a a = true.
Proof.
  destruct a as [|x|m|x| |]; simpl; try discriminate; intros _.
  - reflexivity.
  - now destruct x.
  - apply Z.eqb_refl.
  - apply String.eqb_refl.
Qed.

Lemma tag_dict_get_set (d : list (json * json)) (k v k' : json) :
  hashable k = true ->
  tag_dict_get (tag_dict_set d k v) k'
  = if key_eqb k k' then Some v else tag_dict_get d k'.
Proof.
  intros Hk. induction d as [|[k0 v0] d IH]; simpl.
  - reflexivity.
  - destruct (key_eqb k0 k) eqn:H0; simpl.
    + rewrite (key_eqb_trans k0 k k' H0). destruct (key_eqb k k'); reflexivity.
    + rewrite IH. destruct (key_eqb k0 k') eqn:H1; [|reflexivity].
      destruct (key_eqb k k') eqn:H2; [|reflexivity].
      pose proof (key_eqb_trans k0 k' k H1) as Ht.
      rewrite (key_eqb_sym k' k), H2, H0 in Ht. discriminate Ht.
Qed.

(** Writing the value a key already has changes nothing. *)
Lemma tag_dict_set_same (d : list (json * json)) (k v : json) :
  tag_dict_get d k = Some v -> tag_dict_set d k v = d.
Proof.
  induction d as [|[k0 v0] d IH]; simpl; [discriminate|].
  destruct (key_eqb k0 k); [congruence|].
  intros H. now rewrite IH.
Qed.

Lemma tag_dict_set_ok (d : list (json * json)) (k v : json) :
  hashable k = true -> tag_dict_ok d -> tag_dict_ok (tag_dict_set d k v).
Proof.
  intros Hk. induction d as [|[k0 v0] d IH]; simpl.
  - tauto.
  - intros (H0 & Hn & Hd). destruct (key_eqb k0 k) eqn:Heq; simpl.
    + tauto.
    + split; [exact H0|]. split; [|now apply IH].
      rewrite tag_dict_get_set by exact Hk. rewrite key_eqb_sym, Heq. exact Hn.
Qed.

Lemma tag_dict_set_new (d : list (json * json)) (k v : json) :
  tag_dict_get d k = None -> tag_dict_set d k v = d ++ [(k, v)].
Proof.
  induction d as [|[k0 v0] d IH]; simpl; [reflexivity|].
  destruct (key_eqb k0 k); [discriminate|]. intros H. now rewrite IH.
Qed.

Lemma tag_dict_get_app (d1 d2 : list (json * json)) (k : json) :
  tag_dict_get (d1 ++ d2) k
  = match tag_dict_get d1 k with
    | Some v => Some v
    | None => tag_dict_get d2 k
    end.
Proof.
  induction d1 as [|[k0 v0] d1 IH]; simpl; [reflexivity|].
  destruct (key_eqb k0 k); [reflexivity | exact IH].
Qed.

Lemma tag_dict_ok_app (d1 d2 : list (json * json)) (k v : json) :
  tag_dict_ok (d1 ++ (k, v) :: d2) ->
  hashable k = true /\ tag_dict_get d1 k = None /\ tag_dict_ok ((d1 ++ [(k, v)]) ++ d2).
Proof.
  rewrite <- app_assoc. simpl.
  induction d1 as [|[k1 v1] d1 IH]; simpl.
  - tauto.
  - intros (H1 & Hn & Hok). destruct (IH Hok) as (Hk & Hg & Hok').
    rewrite tag_dict_get_app in Hn.
    destruct (tag_dict_get d1 k1) eqn:Hg1; [discriminate|].
    simpl in Hn. destruct (key_eqb k k1) eqn:Hkk; [discriminate|].
    rewrite key_eqb_sym, Hkk. repeat split; try assumption.
    rewrite tag_dict_get_app, Hg1. simpl. now rewrite Hkk.
Qed.

(** Reading the tags of a merged list back gives its dictionary. *)
Lemma foldM_tag_dict_add_tag_of (d2 d1 : list (json * json)) :
  tag_dict_ok (d1 ++ d2) ->
  foldM tag_dict_add (map tag_of d2) d1 = Ok (d1 ++ d2).
Proof.
  revert d1. induction d2 as [|[k v] d2 IH]; intros d1 Hok.
  - simpl. now rewrite app_nil_r.
  - destruct (tag_dict_ok_app d1 d2 k v Hok) as (Hk & Hg & Hok').
    assert (Hadd : tag_dict_add d1 (tag_of (k, v)) = Ok (d1 ++ [(k, v)])).
    { unfold tag_dict_add. cbn. rewrite Hk. cbn.
      now rewrite (tag_dict_set_new d1 k v Hg). }
    cbn [map foldM]. rewrite Hadd. cbn.
    rewrite (IH _ Hok'), <- app_assoc. reflexivity.
Qed.

Lemma tag_dict_add_ok (d d' : list (json * json)) (tag : json) :
  tag_dict_add d tag = Ok d' -> tag_dict_ok d -> tag_dict_ok d'.
Proof.
  unfold tag_dict_add. destruct (getitem tag "Key") as [k|]; cbn; [|discriminate].
  destruct (getitem tag "Value") as [v|]; cbn; [|discriminate].
  destruct (hashable k) eqn:Hk; [|discriminate].
  intros [= <-]. now apply tag_dict_set_ok.
Qed.

Lemma foldM_tag_dict_add_ok (l : list json) (d d' : list (json * json)) :
  foldM tag_dict_add l d = Ok d' -> tag_dict_ok d -> tag_dict_ok d'.
Proof.
  revert d. induction l as [|tag l IH]; intros d; cbn [foldM].
  - now intros [= <-].
  - destruct (tag_dict_add d tag) as [d1|] eqn:Hadd; cbn; [|discriminate].
    intros H Hok. apply (IH d1 H). now apply (tag_dict_add_ok d d1 tag).
Qed.

Lemma merge_step_entry (d : list (json * json)) (t : string * json) :
  merge_step d (tag_of (tag_entry t)) = Ok (merge_entry d t).
Proof.
  unfold merge_step, merge_entry. cbn.
  destruct (tag_dict_mem (JStr (fst t)) d); cbn; [|reflexivity].
  destruct (protected (fst t)); reflexivity.
Qed.

Lemma foldM_merge_step_entries (tags : list (string * json)) (d : list (json * json)) :
  foldM merge_step (map tag_of (map tag_entry tags)) d
  = Ok (fold_left merge_entry tags d).
Proof.
  revert d. induction tags as [|t tags IH]; intros d; [reflexivity|].
  cbn [map foldM fold_left]. rewrite merge_step_entry. cbn. apply IH.
Qed.

Lemma merge_entry_ok (d : list (json * json)) (t : string * json) :
  tag_dict_ok d -> tag_dict_ok (merge_entry d t).
Proof.
  intros Hok. unfold merge_entry.
  destruct (tag_dict_mem _ d && protected _); [exact Hok|].
  now apply tag_dict_set_ok.
Qed.

Lemma fold_merge_entry_ok (tags : list (string * json)) (d : list (json * json)) :
  tag_dict_ok d -> tag_dict_ok (fold_left merge_entry tags d).
Proof.
  revert d. induction tags as [|t tags IH]; intros d Hok; [exact Hok|].
  apply IH. now apply merge_entry_ok.
Qed.

Lemma tag_dict_get_merge_entry (d : list (json * json)) (t : string * json) (k : string) :
  tag_dict_get (merge_entry d t) (JStr k)
  = if tag_dict_mem (JStr (fst t)) d && protected (fst t) then tag_dict_get d (JStr k)
    else if String.eqb (fst t) k then Some (snd t) else tag_dict_get d (JStr k).
Proof.
  unfold merge_entry.
  destruct (tag_dict_mem _ d && protected _); [reflexivity|].
  now rewrite tag_dict_get_set.
Qed.

(** The overlay loop on [tag_dict], key by key. *)
Lemma tag_dict_get_fold_merge (tags : list (string * json)) (d : list (json * json))
    (k : string) :
  tag_dict_get (fold_left merge_entry tags d) (JStr k)
  = if protected k then
      match tag_dict_get d (JStr k) with
      | Some v => Some v
      | None => assoc_first tags k
      end
    else
      match assoc_last tags k with
      | Some v => Some v
      | None => tag_dict_get d (JStr k)
      end.
Proof.
  revert d. induction tags as [|[k0 v0] l IH]; intros d.
  - simpl. destruct (protected k), (tag_dict_get d (JStr k)); reflexivity.
  - cbn [fold_left]. rewrite IH, tag_dict_get_merge_entry. unfold assoc_first.
    cbn [fst snd assoc_last dict_get]. unfold tag_dict_mem.
    destruct (String.eqb_spec k0 k) as [->|Hne].
    + destruct (protected k) eqn:Hp.
      * destruct (tag_dict_get d (JStr k)); reflexivity.
      * rewrite andb_false_r. destruct (assoc_last l k); reflexivity.
    + destruct (match tag_dict_get d (JStr k0) with Some _ => true | None => false end
                && protected k0), (protected k), (assoc_last l k); reflexivity.
Qed.

Lemma fold_left_fixed {A B : Type} (f : A -> B -> A) (l : list B) (a : A) :
  (forall x, In x l -> f a x = a) -> fold_left f l a = a.
Proof.
  induction l as [|x l IH]; intros H; [reflexivity|].
  simpl. rewrite (H x) by now left. apply IH. intros y Hy. apply H. now right.
Qed.

(** Merging the same overlay a second time changes nothing. *)
Lemma fold_merge_entry_twice (tags : list (string * json)) (d : list (json * json)) :
  List.NoDup (map fst tags) ->
  fold_left merge_entry tags (fold_left merge_entry tags d)
  = fold_left merge_entry tags d.
Proof.
  intros Hnd. apply fold_left_fixed. intros [k v] Hin.
  destruct (assoc_NoDup tags k v Hnd Hin) as [Hfirst Hlast].
  pose proof (tag_dict_get_fold_merge tags d k) as Hget.
  rewrite Hfirst, Hlast in Hget.
  set (d1 := fold_left merge_entry tags d) in *.
  unfold merge_entry, tag_dict_mem. cbn [fst snd].
  destruct (protected k).
  - rewrite Hget. destruct (tag_dict_get d (JStr k)); reflexivity.
  - rewrite andb_false_r. now apply tag_dict_set_same.
Qed.

Lemma tag_dict_get_entries (tags : list (string * json)) (k : string) :
  tag_dict_get (map tag_entry tags) (JStr k) = dict_get tags k.
Proof.
  induction tags as [|[k0 v0] tags IH]; simpl; [reflexivity|].
  destruct (String.eqb k0 k); [reflexivity | exact IH].
Qed.

Lemma tag_dict_ok_entries (tags : list (string * json)) :
  List.NoDup (map fst tags) -> tag_dict_ok (map tag_entry tags).
Proof.
  induction tags as [|[k v] tags IH]; simpl; [tauto|].
  intros Hnd. inversion Hnd as [|? ? Hnotin Hnd']; subst.
  split; [reflexivity|]. split; [|now apply IH].
  rewrite tag_dict_get_entries. destruct (dict_get tags k) eqn:Hg; [|reflexivity].
  exfalso. apply Hnotin. apply dict_get_keys. congruence.
Qed.

(** A tag list with distinct string keys merged with itself is itself. *)
Lemma merge_tags_self (l : list json) : tag_list l -> merge_tags l l = Ok l.
Proof.
  intros (tags & -> & Hnd). unfold merge_tags.
  rewrite (foldM_tag_dict_add_tag_of (map tag_entry tags) [])
    by (now apply tag_dict_ok_entries).
  cbn. rewrite foldM_merge_step_entries. cbn. do 2 f_equal.
  apply fold_left_fixed. intros [k v] Hin.
  destruct (assoc_NoDup tags k v Hnd Hin) as [Hfirst _]. unfold assoc_first in Hfirst.
  unfold merge_entry, tag_dict_mem. cbn [fst snd].
  rewrite tag_dict_get_entries, Hfirst.
  destruct (protected k); [reflexivity|]. cbn.
  apply tag_dict_set_same. now rewrite tag_dict_get_entries.
Qed.

(** Merging a tag list with distinct string keys into any list a second
    time changes nothing. *)
Lemma merge_tags_twice (old new merged : list json) :
  tag_list new -> merge_tags old new = Ok merged -> merge_tags merged new = Ok merged.
Proof.
  intros (tags & -> & Hnd). unfold merge_tags.
  destruct (foldM tag_dict_add old []) as [d0|] eqn:H0; cbn; [|discriminate].
  rewrite !foldM_merge_step_entries. cbn. intros [= <-].
  assert (Hok : tag_dict_ok (fold_left merge_entry tags d0)).
  { apply fold_merge_entry_ok. apply (foldM_tag_dict_add_ok old [] d0 H0). exact I. }
  rewrite (foldM_tag_dict_add_tag_of _ []) by exact Hok.
  cbn. rewrite foldM_merge_step_entries. cbn.
  now rewrite fold_merge_entry_twice.
Qed.

(** *** [deep_update] applied twice *)

Lemma dict_set_same {V : Type} (d : list (string * V)) (k : string) (v : V) :
  dict_get d k = Some v -> dict_set d k v = d.
Proof.
  induction d as [|[k0 v0] d IH]; simpl; [discriminate|].
  destruct (String.eqb k0 k); [congruence|]. intros H. now rewrite IH.
Qed.

Lemma dict_get_set_eq {V : Type} (d : list (string * V)) (k : string) (v : V) :
  dict_get (dict_set d k v) k = Some v.
Proof. now rewrite dict_get_set, String.eqb_refl. Qed.

Lemma dict_get_NoDup {V : Type} (d : list (string * V)) (k : string) (v : V) :
  List.NoDup (map fst d) -> In (k, v) d -> dict_get d k = Some v.
Proof. intros Hnd Hin. exact (proj1 (assoc_NoDup d k v Hnd Hin)). Qed.

Lemma well_formed_dict (d : list (string * json)) :
  well_formed (JDict d)
  <-> List.NoDup (map fst d) /\ Forall (fun kv => well_formed (snd kv)) d.
Proof.
  cbn [well_formed]. apply and_iff_compat_l.
  induction d as [|kv d IH]; [split; [constructor | exact (fun _ => I)]|].
  rewrite IH. split.
  - intros [H1 H2]. now constructor.
  - intros H. inversion H; subst. now split.
Qed.

(** The loop leaves the keys it does not visit alone. *)
Lemma update_items_other (items original : list (string * json)) (k : string) :
  ~ In k (map fst items) ->
  dict_get (fst (update_items original items)) k = dict_get original k.
Proof.
  revert original. induction items as [|[key value] rest IH]; intros original Hk;
    [reflexivity|].
  cbn [map fst] in Hk.
  assert (Hne : String.eqb key k = false).
  { apply String.eqb_neq. intros ->. apply Hk. now left. }
  assert (Hrest : ~ In k (map fst rest)) by (intros H; apply Hk; now right).
  assert (Hset : forall w, dict_get (fst (update_items (dict_set original key w) rest)) k
                           = dict_get original k).
  { intros w. rewrite (IH _ Hrest), dict_get_set. now rewrite Hne. }
  cbn [update_items].
  destruct (dict_get original key) as [[| | | |old|child]|]; try apply Hset;
    destruct value as [| | | |new|dv]; try apply Hset.
  - destruct (merge_tags old new); [apply Hset | reflexivity].
  - destruct (deep_update child (JDict dv)) as [child' [e|]]; [|apply Hset].
    cbn [fst]. rewrite dict_get_set. now rewrite Hne.
Qed.

(** An entry that the update leaves as it is can be skipped. *)
Lemma update_items_cons_fixed (original rest : list (string * json))
    (k : string) (w v : json) :
  dict_get original k = Some w -> fixed w v ->
  update_items original ((k, v) :: rest) = update_items original rest.
Proof.
  intros Hget Hfix. cbn [update_items]. rewrite Hget.
  destruct w as [| | | |old|child], v as [| | | |new|dv]; cbn [fixed] in Hfix;
    try discriminate Hfix;
    try (rewrite (dict_set_same original k _ Hget); reflexivity);
    try (injection Hfix as <-; rewrite (dict_set_same original k _ Hget); reflexivity).
  - rewrite Hfix. now rewrite (dict_set_same original k _ Hget).
  - rewrite Hfix. now rewrite (dict_set_same original k _ Hget).
Qed.

(** One iteration either raises, and raises again in the same state, or
    writes an entry that a second update leaves as it is. *)
Lemma update_items_cons (original rest : list (string * json)) (k : string) (v : json) :
  idempotent v -> fixed v v -> (forall l, v = JList l -> tag_list l) ->
  (exists w,
      update_items original ((k, v) :: rest)
      = update_items (dict_set original k w) rest
      /\ fixed w v)
  \/ (exists original' e,
        update_items original ((k, v) :: rest) = (original', Some e)
        /\ update_items original' ((k, v) :: rest) = (original', Some e)).
Proof.
  intros Hidem Hself Htags. cbn [update_items].
  assert (Hplain : exists w, update_items (dict_set original k v) rest
                             = update_items (dict_set original k w) rest /\ fixed w v)
    by (exists v; split; [reflexivity | exact Hself]).
  destruct (dict_get original k) as [[| | | |old|child]|] eqn:Hget;
    try (left; exact Hplain);
    destruct v as [| | | |new|dv]; try (left; exact Hplain).
  - destruct (merge_tags old new) as [merged|e] eqn:Hm.
    + left. exists (JList merged). split; [reflexivity|]. cbn [fixed].
      apply (merge_tags_twice old new merged); [now apply Htags | exact Hm].
    + right. exists original, e. split; [reflexivity|]. now rewrite Hget, Hm.
  - destruct (deep_update child (JDict dv)) as [child' [e|]] eqn:Hdu.
    + right. exists (dict_set original k (JDict child')), e. split; [reflexivity|].
      rewrite dict_get_set_eq. specialize (Hidem child). rewrite Hdu in Hidem.
      cbn [fst] in Hidem. rewrite Hidem.
      now rewrite (dict_set_same _ k _ (dict_get_set_eq original k (JDict child'))).
    + left. exists (JDict child'). split; [reflexivity|]. cbn [fixed].
      specialize (Hidem child). rewrite Hdu in Hidem. exact Hidem.
Qed.

Lemma update_items_twice (items : list (string * json)) :
  List.NoDup (map fst items) ->
  Forall (fun kv => idempotent (snd kv) /\ fixed (snd kv) (snd kv)
                    /\ forall l, snd kv = JList l -> tag_list l) items ->
  forall original,
    update_items (fst (update_items original items)) items
    = update_items original items.
Proof.
  induction items as [|[k v] rest IH]; intros Hnd Hall original; [reflexivity|].
  inversion Hnd as [|? ? Hnotin Hnd']; subst.
  inversion Hall as [|? ? (Hidem & Hself & Htags) Hall']; subst. cbn [snd] in *.
  destruct (update_items_cons original rest k v Hidem Hself Htags)
    as [(w & Hstep & Hfix) | (original' & e & Hstep & Hagain)].
  - rewrite Hstep.
    rewrite (update_items_cons_fixed _ rest k w v); [now apply IH | | exact Hfix].
    rewrite (update_items_other rest _ k Hnotin). apply dict_get_set_eq.
  - rewrite Hstep. exact Hagain.
Qed.

(** An update with the dictionary itself changes nothing. *)
Lemma update_items_self (items original : list (string * json)) :
  (forall k v, In (k, v) items -> dict_get original k = Some v /\ fixed v v) ->
  update_items original items = (original, None).
Proof.
  induction items as [|[k v] rest IH]; intros H; [reflexivity|].
  destruct (H k v (or_introl eq_refl)) as [Hget Hfix].
  rewrite (update_items_cons_fixed original rest k v v Hget Hfix).
  apply IH. intros k' v' Hin. apply H. now right.
Qed.

(** On a well-formed fragment, a second update changes nothing, and an
    update of a dictionary with itself changes nothing. *)
Lemma deep_update_twice (v : json) :
  well_formed v -> idempotent v /\ fixed v v.
Proof.
  induction v as [| | | |l _|d IH] using json_ind; intros Hwf;
    try (split; [intros original; reflexivity | reflexivity]).
  - split; [intros original; reflexivity|]. cbn [fixed]. now apply merge_tags_self.
  - apply well_formed_dict in Hwf as [Hnd Hall].
    assert (Hitems : Forall (fun kv => idempotent (snd kv) /\ fixed (snd kv) (snd kv)
                                       /\ forall l, snd kv = JList l -> tag_list l) d).
    { rewrite List.Forall_forall in *. intros kv Hin.
      destruct (IH kv Hin (Hall kv Hin)) as [H1 H2]. repeat split; try assumption.
      intros l Hl. specialize (Hall kv Hin). rewrite Hl in Hall. exact Hall. }
    split.
    + intros original. rewrite !deep_update_items. now apply update_items_twice.
    + cbn [fixed]. rewrite deep_update_items. apply update_items_self.
      intros k v Hin. split; [now apply dict_get_NoDup|].
      rewrite List.Forall_forall in Hitems. exact (proj1 (proj2 (Hitems (k, v) Hin))).
Qed.

Lemma load_layer_twice (fs : string -> layer) (b : string) st :
  (forall j, fs b = Loaded j -> well_formed j) ->
  fst (load_layer fs (load_layer fs st b) b) = fst (load_layer fs st b).
Proof.
  intros Hwf. unfold load_layer. destruct (fs b) as [|e|j] eqn:Hb.
  - reflexivity.
  - destruct e; reflexivity.
  - pose proof (proj1 (deep_update_twice j (Hwf j eq_refl)) (fst st)) as H.
    destruct (deep_update (fst st) j) as [d1 [e|]]; cbn [fst snd] in *;
      rewrite H; reflexivity.
Qed.

(** C5, as the code has it.  Resolving a layer list that ends with the same
    layer twice gives the same defaults as resolving it with that layer
    once, provided the lists that layer holds as dictionary values are tag
    lists with pairwise distinct string keys; the layers before it are
    arbitrary.  In particular resolving A, B, B equals resolving A, B. *)
Theorem resolve_idempotent (fs : string -> layer) (b : string) :
  (forall j, fs b = Loaded j -> well_formed j) ->
  (forall files, fst (resolve fs (files ++ [b; b])) = fst (resolve fs (files ++ [b])))
  /\ (forall a, fst (resolve fs [a; b; b]) = fst (resolve fs [a; b])).
Proof.
  intros Hwf.
  assert (H : forall files,
             fst (resolve fs (files ++ [b; b])) = fst (resolve fs (files ++ [b]))).
  { intros files. unfold resolve. rewrite !fold_left_app. cbn [fold_left].
    now apply load_layer_twice. }
  split; [exact H|]. intros a. exact (H [a]).
Qed.

Lemma resolve_idempotent_witness :
  fst (resolve example_layers
         ["defaults/defaults.json"; "defaults/acme-defaults.json";
          "defaults/acme-defaults.json"])
  = [("atlantis", JDict [("region", JStr "us-west-2")]);
     ("tags", JList [tag_of (JStr "Owner", JStr "ops")])].
Proof.
  etransitivity.
  - apply (resolve_idempotent example_layers "defaults/acme-defaults.json").
    intros j [= <-]. cbn -[tag_list].
    split; [repeat constructor; simpl; intuition discriminate|].
    split; [split; [repeat constructor; simpl; tauto | tauto]|].
    split; [|exact I].
    exists [("Owner", JStr "ops")]. split; [reflexivity|].
    repeat constructor. simpl. tauto.
  - reflexivity.
Defined.

(** C5 as stated fails: a layer whose tag list names a key twice is stored
    as it is the first time and merged with itself the second time, which
    drops the earlier of the two tags. *)
Lemma resolve_not_idempotent :
  ~ (forall (fs : string -> layer) (a b : string),
       fst (resolve fs [a; b; b]) = fst (resolve fs [a; b])).
Proof.
  intros H.
  specialize (H (fun path =>
                   if String.eqb path "a" then Loaded (JDict [])
                   else Loaded (JDict [("tags",
                                        JList [tag_of (JStr "Owner", JStr "alice");
                                               tag_of (JStr "Owner", JStr "bob")])]))
                "a" "b").
  vm_compute in H. discriminate H.
Qed.

(** ** The store semantics *)

(** [merge_tags] only allocates. *)
Lemma store_merge_tags_extends (original_tags new_tags : Store.val) (h h' : list Store.obj)
    (r : result Store.val) :
  Store.merge_tags original_tags new_tags h = (h', r) ->
  (r = Raise TypeError /\ h' = h \/ exists e, r = Raise e /\ h' = h)
  \/ exists tag_dict,
       h' = h ++ Store.new_tags_objects (length h) tag_dict
       /\ r = Ok (Store.Ref (length h + length tag_dict)).
Proof.
  unfold Store.merge_tags.
  destruct (Store.list_items h original_tags) as [olds|];
    [|intros [= <- <-]; left; left; auto].
  destruct (Store.list_items h new_tags) as [news|];
    [|intros [= <- <-]; left; left; auto].
  destruct (_ ≫= _) as [tag_dict|e]; intros [= <- <-].
  - right. exists tag_dict. auto.
  - left. right. exists e. auto.
Qed.

Lemma store_new_tags_objects_last (base : nat) (tag_dict : list (Store.val * Store.val))
    (h : list Store.obj) :
  (h ++ Store.new_tags_objects base tag_dict) !! (length h + length tag_dict)
  = Some (Store.List (map Store.Ref (seq base (length tag_dict)))).
Proof.
  unfold Store.new_tags_objects. rewrite app_assoc.
  rewrite lookup_app_r by (rewrite length_app, length_map; lia).
  rewrite length_app, length_map. now rewrite Nat.sub_diag.
Qed.

(** The loop of [deep_update] ends with an exception or returns [original]. *)
Lemma store_update_loop_returns recurse (original update : Store.val)
    (size remaining i : nat) (h h' : list Store.obj) (v : Store.val) :
  Store.update_loop recurse original update size i remaining h = (h', Ok v) ->
  v = original.
Proof.
  revert i h. induction remaining as [|remaining IH]; intros i h; cbn [Store.update_loop].
  - destruct (Store.dict_items h update) as [items|]; [|discriminate].
    destruct (negb _); [discriminate|]. now intros [= _ <-].
  - destruct (Store.dict_items h update) as [items|]; [|discriminate].
    destruct (negb _); [discriminate|].
    destruct (items !! i) as [[key value]|]; [|now intros [= _ <-]].
    destruct original as [| | | |lo]; try discriminate.
    destruct (h !! lo) as [[od|]|]; try discriminate.
    destruct (dict_get od key) as [child|]; [|apply IH].
    destruct (Store.is_dict h child && Store.is_dict h value).
    + destruct (recurse child value h) as [h1 [x|e]]; [apply IH | discriminate].
    + destruct (Store.is_list h child && Store.is_list h value); [|apply IH].
      destruct (Store.merge_tags child value h) as [h1 [merged|e]];
        [apply IH | discriminate].
Qed.

Lemma store_deep_update_returns (fuel : nat) (original update : Store.val)
    (h h' : list Store.obj) (v : Store.val) :
  Store.deep_update fuel original update h = (h', Ok v) -> v = original.
Proof.
  destruct fuel as [|fuel]; cbn [Store.deep_update]; [discriminate|].
  destruct (Store.dict_items h update) as [items|]; [|discriminate].
  apply store_update_loop_returns.
Qed.

(** An update with one entry whose key [original] lacks writes the entry
    into the dictionary [original] refers to. *)
Lemma store_deep_update_writes (fuel lo lu : nat) (od : list (string * Store.val))
    (key : string) (value : Store.val) (h : list Store.obj) :
  lo <> lu ->
  h !! lo = Some (Store.Dict od) -> h !! lu = Some (Store.Dict [(key, value)]) ->
  dict_get od key = None ->
  Store.deep_update (S fuel) (Store.Ref lo) (Store.Ref lu) h
  = (<[lo := Store.Dict (od ++ [(key, value)])]> h, Ok (Store.Ref lo)).
Proof.
  intros Hne Hlo Hlu Hget. cbn [Store.deep_update Store.dict_items].
  rewrite Hlu. cbn [length Store.update_loop Store.dict_items]. rewrite Hlu.
  cbn [length Nat.eqb negb lookup list_lookup]. rewrite Hlo, Hget.
  unfold Store.setitem. rewrite Hlo.
  rewrite list_lookup_insert_ne by exact Hne. rewrite Hlu.
  cbn [length Nat.eqb negb].
  rewrite dict_set_new; [reflexivity|].
  intros Hin. clear -Hget Hin. induction od as [|[k0 v0] od IH]; simpl in *; [tauto|].
  destruct (String.eqb_spec k0 key) as [->|Hk]; [discriminate|].
  destruct Hin as [H|H]; [congruence | now apply IH].
Qed.

(** C6, as the code has it.  [merge_tags] leaves every object of the store
    as it was, its two arguments among them, and returns a list that did not
    exist before.  [deep_update] does not: what it returns is its first
    argument, the very object, and it writes the entries of the update into
    that dictionary. *)
Theorem merge_tags_allocates_deep_update_in_place :
  (forall original_tags new_tags h h' r,
      Store.merge_tags original_tags new_tags h = (h', r) ->
      (forall l o, h !! l = Some o -> h' !! l = Some o)
      /\ (forall v, r = Ok v ->
            exists l vs, v = Store.Ref l /\ h !! l = None
                         /\ h' !! l = Some (Store.List vs)))
  /\ (forall fuel original update h h' v,
        Store.deep_update fuel original update h = (h', Ok v) -> v = original)
  /\ (forall fuel lo lu od key value h,
        lo <> lu ->
        h !! lo = Some (Store.Dict od) -> h !! lu = Some (Store.Dict [(key, value)]) ->
        dict_get od key = None ->
        Store.deep_update (S fuel) (Store.Ref lo) (Store.Ref lu) h
        = (<[lo := Store.Dict (od ++ [(key, value)])]> h, Ok (Store.Ref lo))).
Proof.
  split; [|split].
  - intros original_tags new_tags h h' r Hm.
    destruct (store_merge_tags_extends _ _ _ _ _ Hm)
      as [[[-> ->]|(e & -> & ->)]|(tag_dict & -> & ->)].
    + split; [auto | discriminate].
    + split; [auto | discriminate].
    + split.
      * intros l o Hl. now apply lookup_app_l_Some.
      * intros v [= <-]. eexists _, _. split; [reflexivity|]. split.
        -- apply lookup_ge_None. lia.
        -- apply store_new_tags_objects_last.
  - apply store_deep_update_returns.
  - apply store_deep_update_writes.
Qed.

Lemma merge_tags_allocates_deep_update_in_place_witness :
  Store.deep_update 1 (Store.Ref 0) (Store.Ref 1)
    [Store.Dict [("region", Store.Str "us-east-1")];
     Store.Dict [("profile", Store.Str "dev")]]
  = ([Store.Dict [("region", Store.Str "us-east-1"); ("profile", Store.Str "dev")];
      Store.Dict [("profile", Store.Str "dev")]],
     Ok (Store.Ref 0)).
Proof.
  apply (proj2 (proj2 merge_tags_allocates_deep_update_in_place) 0 0 1
           [("region", Store.Str "us-east-1")] "profile" (Store.Str "dev")).
  - discriminate.
  - reflexivity.
  - reflexivity.
  - reflexivity.
Defined.

(** C6 as stated fails for [deep_update]: after the call the dictionary
    passed as [original] holds the entries of the update. *)
Lemma deep_update_mutates_original :
  ~ (forall fuel (l : nat) update (h h' : list Store.obj) r,
       Store.deep_update fuel (Store.Ref l) update h = (h', r) ->
       h' !! l = h !! l).
Proof.
  intros H.
  specialize (H 1 0 (Store.Ref 1)
                [Store.Dict []; Store.Dict [("region", Store.Str "us-east-1")]]
                _ _ eq_refl).
  vm_compute in H. discriminate H.
Qed.

(** On fresh copies of two trees the store semantics returns its first
    argument, which then denotes what the value semantics computes. *)
Lemma run_in_store_example :
  exists o,
    run_in_store 8 example_original example_update
    = (Ok o, o, Some (JDict (fst (deep_update example_original example_update))))
    /\ snd (deep_update example_original example_update) = None.
Proof. eexists. split; reflexivity. Qed.

(** ** Refinement: the store semantics computes the value semantics *)

(** A tree stays what it is when its objects do. *)
Lemma repr_frame (h h' : list Store.obj) (j : json) :
  forall v F, repr h j v F -> (forall l, l ∈ F -> h' !! l = h !! l) -> repr h' j v F.
Proof.
  induction j as [| | | |js IH|d IH] using json_ind; intros v F Hr Hf;
    inversion Hr as [| | | |l js' vs Fs Hl Hall|l d' items Fs Hl Hall]; subst;
    try constructor.
  - apply (repr_list h' l js vs Fs); [rewrite Hf; [exact Hl | left]|].
    assert (Hsub : forall l0, l0 ∈ concat Fs -> h' !! l0 = h !! l0)
      by (intros l0 H0; apply Hf; now right).
    clear Hr Hf Hl. induction Hall as [|j v F js vs Fs Hj Hall IHall];
      [constructor|].
    inversion IH as [|? ? IHj IHjs]; subst. constructor.
    + apply IHj; [exact Hj|]. intros l0 H0. apply Hsub. cbn.
      apply elem_of_app. now left.
    + apply IHall; [exact IHjs|]. intros l0 H0. apply Hsub. cbn.
      apply elem_of_app. now right.
  - apply (repr_dict h' l d items Fs); [rewrite Hf; [exact Hl | left]|].
    assert (Hsub : forall l0, l0 ∈ concat Fs -> h' !! l0 = h !! l0)
      by (intros l0 H0; apply Hf; now right).
    clear Hr Hf Hl. induction Hall as [|kj kv F d items Fs [Hk Hj] Hall IHall];
      [constructor|].
    inversion IH as [|? ? IHj IHd]; subst. constructor.
    + split; [exact Hk|]. apply IHj; [exact Hj|]. intros l0 H0. apply Hsub. cbn.
      apply elem_of_app. now left.
    + apply IHall; [exact IHd|]. intros l0 H0. apply Hsub. cbn.
      apply elem_of_app. now right.
Qed.

Lemma repr_hashable (h : list Store.obj) j v F :
  repr h j v F -> Store.hashable v = hashable j.
Proof. now inversion 1. Qed.

Lemma repr_scalar (h : list Store.obj) j v F :
  repr h j v F -> hashable j = true -> F = [].
Proof. inversion 1; subst; simpl; congruence. Qed.

Lemma repr_key_eqb (h : list Store.obj) j1 v1 F1 j2 v2 F2 :
  repr h j1 v1 F1 -> repr h j2 v2 F2 -> Store.key_eqb v1 v2 = key_eqb j1 j2.
Proof. inversion 1; inversion 1; reflexivity. Qed.

Lemma repr_key_protected (h : list Store.obj) j v F :
  repr h j v F -> Store.key_protected v = key_protected j.
Proof. now inversion 1. Qed.

(** Reading an entry of a dictionary in the store and in the tree. *)
Lemma repr_dict_get (h : list Store.obj) (d : list (string * json))
    (items : list (string * Store.val)) (Fs : list (list nat)) (key : string) :
  Forall3 (fun kj kv F => fst kj = fst kv /\ repr h (snd kj) (snd kv) F) d items Fs ->
  NoDup (concat Fs) ->
  match dict_get d key with
  | Some j => exists v F, dict_get items key = Some v /\ repr h j v F
                          /\ F ⊆ concat Fs /\ NoDup F
  | None => dict_get items key = None
  end.
Proof.
  induction 1 as [|[k j] [k' v] F d items Fs [Hk Hj] Hall IH]; intros Hnd;
    [reflexivity|].
  cbn in Hk. subst k'. cbn [concat] in Hnd. apply NoDup_app in Hnd as (HF & _ & HFs).
  cbn [dict_get]. destruct (String.eqb k key).
  - exists v, F. repeat split; try assumption. intros x Hx. cbn.
    apply elem_of_app. now left.
  - specialize (IH HFs). destruct (dict_get d key) as [j'|]; [|exact IH].
    destruct IH as (v' & F' & Hg & Hr & Hsub & Hnd'). exists v', F'.
    repeat split; try assumption. intros x Hx. cbn. apply elem_of_app. right. auto.
Qed.

Lemma repr_getitem (h : list Store.obj) j v F (key : string) :
  repr h j v F -> NoDup F ->
  match getitem j key with
  | Ok j' => exists v' F', Store.getitem h v key = Ok v' /\ repr h j' v' F'
                           /\ F' ⊆ F /\ NoDup F'
  | Raise e => Store.getitem h v key = Raise e
  end.
Proof.
  intros Hr Hnd.
  inversion Hr as [| | | |l js vs Fs Hl Hall|l d items Fs Hl Hall]; subst;
    try reflexivity.
  - unfold Store.getitem. cbn. now rewrite Hl.
  - apply NoDup_cons in Hnd as [_ Hnd].
    pose proof (repr_dict_get h d items Fs key Hall Hnd) as Hg.
    unfold Store.getitem. cbn. rewrite Hl.
    destruct (dict_get d key) as [j'|].
    + destruct Hg as (v' & F' & -> & Hr' & Hsub & Hnd'). exists v', F'.
      repeat split; try assumption. intros x Hx. right. auto.
    + now rewrite Hg.
Qed.

(** *** The tag merger in the store *)

Lemma tag_dict_repr_get (h : list Store.obj) std jtd Fs jk k :
  tag_dict_repr h std jtd Fs -> repr h jk k [] ->
  Store.tag_dict_mem k std = tag_dict_mem jk jtd.
Proof.
  unfold Store.tag_dict_mem, tag_dict_mem.
  induction 1 as [|[k0 v0] [jk0 jv0] F std jtd Fs [Hk Hv] Hall IH]; intros Hkey;
    [reflexivity|].
  cbn in *. rewrite (repr_key_eqb h jk0 k0 [] jk k [] Hk Hkey).
  destruct (key_eqb jk0 jk); [reflexivity | now apply IH].
Qed.

Lemma tag_dict_repr_set (h : list Store.obj) std jtd Fs jk k jv v F :
  tag_dict_repr h std jtd Fs -> NoDup (concat Fs) ->
  repr h jk k [] -> repr h jv v F -> NoDup F ->
  (forall x, x ∈ F -> x ∉ concat Fs) ->
  exists Fs',
    tag_dict_repr h (Store.tag_dict_set std k v) (tag_dict_set jtd jk jv) Fs'
    /\ NoDup (concat Fs') /\ concat Fs' ⊆ concat Fs ++ F.
Proof.
  intros Hrel Hnd Hk Hv HF Hdisj. revert Hnd Hdisj.
  induction Hrel as [|[k0 v0] [jk0 jv0] F0 std jtd Fs [Hk0 Hv0] Hall IH];
    intros Hnd Hdisj.
  - exists [F]. cbn. rewrite app_nil_r. repeat split; try assumption.
    + constructor; [split; assumption | constructor].
    + intros x Hx. exact Hx.
  - cbn in Hk0, Hv0. cbn [Store.tag_dict_set tag_dict_set].
    rewrite (repr_key_eqb h jk0 k0 [] jk k [] Hk0 Hk).
    cbn [concat] in Hnd, Hdisj. apply NoDup_app in Hnd as (HF0 & Hsep & HFs).
    destruct (key_eqb jk0 jk).
    + exists (F :: Fs). split; [|split].
      * constructor; [split; assumption | exact Hall].
      * cbn. apply NoDup_app. repeat split; try assumption.
        intros x Hx Hx'. apply (Hdisj x Hx). apply elem_of_app. now right.
      * cbn. intros x Hx. apply elem_of_app in Hx as [Hx|Hx].
        -- apply elem_of_app. now right.
        -- apply elem_of_app. left. apply elem_of_app. now right.
    + destruct IH as (Fs' & Hrel' & Hnd' & Hsub').
      { exact HFs. }
      { intros x Hx Hx'. apply (Hdisj x Hx). apply elem_of_app. now right. }
      exists (F0 :: Fs'). split; [|split].
      * constructor; [split; assumption | exact Hrel'].
      * cbn. apply NoDup_app. repeat split; try assumption.
        intros x Hx Hx'. apply Hsub' in Hx'. apply elem_of_app in Hx' as [Hx'|Hx'].
        -- exact (Hsep x Hx Hx').
        -- apply (Hdisj x Hx'). apply elem_of_app. now left.
      * cbn. intros x Hx. apply elem_of_app in Hx as [Hx|Hx].
        -- apply elem_of_app. left. apply elem_of_app. now left.
        -- apply Hsub' in Hx. apply elem_of_app in Hx as [Hx|Hx].
           ++ apply elem_of_app. left. apply elem_of_app. now right.
           ++ apply elem_of_app. now right.
Qed.

Lemma tag_dict_add_refines (h : list Store.obj) :
  step_refines h (Store.tag_dict_add h) tag_dict_add.
Proof.
  intros std jtd Fs jt vt Ft Hrel Ht Hnd.
  apply NoDup_app in Hnd as (HFs & Hsep & HFt).
  unfold tag_dict_add, Store.tag_dict_add.
  pose proof (repr_getitem h jt vt Ft "Key" Ht HFt) as HK.
  destruct (getitem jt "Key") as [jk|e]; [|now rewrite HK].
  destruct HK as (k & Fk & -> & Hk & _ & _).
  pose proof (repr_getitem h jt vt Ft "Value" Ht HFt) as HV.
  destruct (getitem jt "Value") as [jv|e]; [|cbn; now rewrite HV].
  destruct HV as (v & Fv & -> & Hv & Hsub & HFv). cbn.
  rewrite (repr_hashable h jk k Fk Hk).
  destruct (hashable jk) eqn:Hh; [|reflexivity].
  rewrite (repr_scalar h jk k Fk Hk Hh) in Hk.
  destruct (tag_dict_repr_set h std jtd Fs jk k jv v Fv Hrel HFs Hk Hv HFv)
    as (Fs' & Hrel' & Hnd' & Hsub').
  { intros x Hx Hx'. exact (Hsep x Hx' (Hsub x Hx)). }
  exists (Store.tag_dict_set std k v), Fs'. repeat split; try assumption.
  intros x Hx. apply Hsub' in Hx. apply elem_of_app in Hx as [Hx|Hx];
    apply elem_of_app; [now left | right; auto].
Qed.

Lemma merge_step_refines (h : list Store.obj) :
  step_refines h (Store.merge_step h) merge_step.
Proof.
  intros std jtd Fs jt vt Ft Hrel Ht Hnd.
  pose proof Hnd as Hnd0. apply NoDup_app in Hnd as (HFs & Hsep & HFt).
  unfold merge_step, Store.merge_step.
  pose proof (repr_getitem h jt vt Ft "Key" Ht HFt) as HK.
  destruct (getitem jt "Key") as [jk|e]; [|now rewrite HK].
  destruct HK as (k & Fk & -> & Hk & _ & _). cbn.
  rewrite (repr_hashable h jk k Fk Hk).
  destruct (hashable jk) eqn:Hh; [|reflexivity]. cbn.
  rewrite (repr_scalar h jk k Fk Hk Hh) in Hk.
  rewrite (tag_dict_repr_get h std jtd Fs jk k Hrel Hk).
  rewrite (repr_key_protected h jk k [] Hk).
  assert (Hset : match (v ← getitem jt "Value"; Ok (tag_dict_set jtd jk v)) with
                 | Ok jtd' =>
                     exists std' Fs',
                       (v ← Store.getitem h vt "Value";
                        Ok (Store.tag_dict_set std k v)) = Ok std'
                       /\ tag_dict_repr h std' jtd' Fs'
                       /\ NoDup (concat Fs') /\ concat Fs' ⊆ concat Fs ++ Ft
                 | Raise e =>
                     (v ← Store.getitem h vt "Value";
                      Ok (Store.tag_dict_set std k v)) = Raise e
                 end).
  { pose proof (repr_getitem h jt vt Ft "Value" Ht HFt) as HV.
    destruct (getitem jt "Value") as [jv|e]; [|cbn; now rewrite HV].
    destruct HV as (v & Fv & -> & Hv & Hsub & HFv). cbn.
    destruct (tag_dict_repr_set h std jtd Fs jk k jv v Fv Hrel HFs Hk Hv HFv)
      as (Fs' & Hrel' & Hnd' & Hsub').
    { intros x Hx Hx'. exact (Hsep x Hx' (Hsub x Hx)). }
    exists (Store.tag_dict_set std k v), Fs'. repeat split; try assumption.
    intros x Hx. apply Hsub' in Hx. apply elem_of_app in Hx as [Hx|Hx];
      apply elem_of_app; [now left | right; auto]. }
  destruct (tag_dict_mem jk jtd); [|exact Hset].
  destruct (key_protected jk) as [p|e]; [|reflexivity]. cbn.
  destruct p; cbn; [|exact Hset].
  exists std, Fs. repeat split; try assumption.
  intros x Hx. apply elem_of_app. now left.
Qed.

(** A loop of [merge_tags] in the store and on trees. *)
Lemma foldM_refines (h : list Store.obj) sstep jstep :
  step_refines h sstep jstep ->
  forall js vs Fts, Forall3 (repr h) js vs Fts ->
  forall std jtd Fs,
    tag_dict_repr h std jtd Fs -> NoDup (concat Fs ++ concat Fts) ->
    match foldM jstep js jtd with
    | Ok jtd' =>
        exists std' Fs',
          foldM sstep vs std = Ok std' /\ tag_dict_repr h std' jtd' Fs'
          /\ NoDup (concat Fs') /\ concat Fs' ⊆ concat Fs ++ concat Fts
    | Raise e => foldM sstep vs std = Raise e
    end.
Proof.
  intros Hstep js vs Fts Hall.
  induction Hall as [|jt vt Ft js vs Fts Ht Hall IH]; intros std jtd Fs Hrel Hnd.
  - cbn. exists std, Fs. rewrite app_nil_r in *. repeat split; try assumption.
    intros x Hx. exact Hx.
  - cbn [concat] in Hnd. cbn [foldM].
    assert (Hnd1 : NoDup (concat Fs ++ Ft)).
    { rewrite app_assoc in Hnd. now apply NoDup_app in Hnd as (H1 & _ & _). }
    specialize (Hstep std jtd Fs jt vt Ft Hrel Ht Hnd1).
    destruct (jstep jtd jt) as [jtd1|e]; [|now rewrite Hstep].
    destruct Hstep as (std1 & Fs1 & -> & Hrel1 & HFs1 & Hsub1). cbn.
    assert (Hnd2 : NoDup (concat Fs1 ++ concat Fts)).
    { rewrite app_assoc in Hnd. apply NoDup_app in Hnd as (_ & Hsep & HFts).
      apply NoDup_app. repeat split; try assumption.
      intros x Hx Hx'. exact (Hsep x (Hsub1 x Hx) Hx'). }
    specialize (IH std1 jtd1 Fs1 Hrel1 Hnd2).
    destruct (foldM jstep js jtd1) as [jtd'|e]; [|exact IH].
    destruct IH as (std' & Fs' & Hf & Hrel' & HFs' & Hsub').
    exists std', Fs'. repeat split; try assumption.
    intros x Hx. apply Hsub' in Hx. cbn. rewrite app_assoc.
    apply elem_of_app in Hx as [Hx|Hx]; apply elem_of_app; [left; auto | now right].
Qed.

(** The locations of a tree are locations of the store. *)
Lemma repr_valid (h : list Store.obj) (j : json) :
  forall v F, repr h j v F -> forall l, l ∈ F -> l < length h.
Proof.
  induction j as [| | | |js IH|d IH] using json_ind; intros v F Hr;
    inversion Hr as [| | | |l js' vs Fs Hl Hall|l d' items Fs Hl Hall]; subst;
    try (intros x Hx; now inversion Hx).
  - intros l0 Hl0. apply elem_of_cons in Hl0 as [->|Hl0].
    { apply lookup_lt_Some in Hl. exact Hl. }
    clear Hr Hl. induction Hall as [|j v F js vs Fs Hj Hall IHall];
      [inversion Hl0|].
    inversion IH as [|? ? IHj IHjs]; subst. cbn in Hl0.
    apply elem_of_app in Hl0 as [Hl0|Hl0]; [exact (IHj v F Hj l0 Hl0) | auto].
  - intros l0 Hl0. apply elem_of_cons in Hl0 as [->|Hl0].
    { apply lookup_lt_Some in Hl. exact Hl. }
    clear Hr Hl. induction Hall as [|kj kv F d items Fs [Hk Hj] Hall IHall];
      [inversion Hl0|].
    inversion IH as [|? ? IHj IHd]; subst. cbn in Hl0.
    apply elem_of_app in Hl0 as [Hl0|Hl0]; [exact (IHj _ F Hj l0 Hl0) | auto].
Qed.

Lemma tag_footprints_spec (Fs : list (list nat)) (bound : nat) :
  NoDup (concat Fs) -> (forall x, x ∈ concat Fs -> x < bound) ->
  forall base, bound <= base ->
    NoDup (concat (tag_footprints base Fs))
    /\ forall x, x ∈ concat (tag_footprints base Fs)
                 -> x ∈ concat Fs \/ (base <= x /\ x < base + length Fs).
Proof.
  induction Fs as [|F Fs IH]; intros Hnd Hlt base Hbase.
  - cbn. split; [constructor | intros x Hx; inversion Hx].
  - cbn [concat] in Hnd, Hlt. apply NoDup_app in Hnd as (HF & Hsep & HFs).
    destruct (IH HFs (fun x Hx => Hlt x (proj2 (elem_of_app _ _ x) (or_intror Hx)))
                (S base) ltac:(lia)) as [IHnd IHin].
    cbn [tag_footprints concat app length]. rewrite app_nil_r. split.
    + apply NoDup_cons. split.
      * intros Hx. apply elem_of_app in Hx as [Hx|Hx].
        -- assert (base < bound) by (apply Hlt, elem_of_app; now left). lia.
        -- apply IHin in Hx as [Hx|Hx]; [|lia].
           assert (base < bound) by (apply Hlt, elem_of_app; now right). lia.
      * apply NoDup_app. repeat split; try assumption.
        intros x Hx Hx'. apply IHin in Hx' as [Hx'|Hx'].
        -- exact (Hsep x Hx Hx').
        -- assert (x < bound) by (apply Hlt, elem_of_app; now left). lia.
    + intros x Hx. apply elem_of_cons in Hx as [->|Hx]; [right; lia|].
      apply elem_of_app in Hx as [Hx|Hx].
      * left. apply elem_of_app. now left.
      * apply IHin in Hx as [Hx|Hx]; [left; apply elem_of_app; now right | right; lia].
Qed.

(** The tags allocated for a [tag_dict] denote the tags of the value
    semantics. *)
Lemma repr_new_tags (H : list Store.obj) std jtd Fs :
  tag_dict_repr H std jtd Fs ->
  forall base,
    (forall i kv, std !! i = Some kv ->
                  H !! (base + i)
                  = Some (Store.Dict [("Key", fst kv); ("Value", snd kv)])) ->
    Forall3 (repr H) (map tag_of jtd) (map Store.Ref (seq base (length std)))
      (tag_footprints base Fs).
Proof.
  induction 1 as [|[k v] [jk jv] F std jtd Fs [Hk Hv] Hall IH]; intros base Hobj;
    [constructor|].
  cbn [map length seq tag_footprints]. constructor.
  - apply (repr_dict H base [("Key", jk); ("Value", jv)] [("Key", k); ("Value", v)]
             [[]; F]).
    + specialize (Hobj 0 (k, v) eq_refl). now rewrite Nat.add_0_r in Hobj.
    + repeat constructor; assumption.
  - apply IH. intros i kv Hi. specialize (Hobj (S i) kv Hi).
    now rewrite Nat.add_succ_r in Hobj.
Qed.

Lemma tag_dict_repr_frame (h h' : list Store.obj) std jtd Fs :
  tag_dict_repr h std jtd Fs -> (forall l, l ∈ concat Fs -> h' !! l = h !! l) ->
  tag_dict_repr h' std jtd Fs.
Proof.
  induction 1 as [|sv jv F std jtd Fs [Hk Hv] Hall IH]; intros Hf; [constructor|].
  constructor.
  - split.
    + apply (repr_frame h h' _ _ _ Hk). intros l Hl. inversion Hl.
    + apply (repr_frame h h' _ _ _ Hv). intros l Hl. apply Hf. cbn.
      apply elem_of_app. now left.
  - apply IH. intros l Hl. apply Hf. cbn. apply elem_of_app. now right.
Qed.

Lemma tag_dict_repr_valid (h : list Store.obj) std jtd Fs :
  tag_dict_repr h std jtd Fs -> forall x, x ∈ concat Fs -> x < length h.
Proof.
  induction 1 as [|sv jv F std jtd Fs [Hk Hv] Hall IH]; intros x Hx;
    [inversion Hx|].
  cbn in Hx. apply elem_of_app in Hx as [Hx|Hx]; [|auto].
  exact (repr_valid h _ _ _ Hv x Hx).
Qed.

Lemma tag_dict_repr_length (h : list Store.obj) std jtd Fs :
  tag_dict_repr h std jtd Fs -> length Fs = length std.
Proof. induction 1; cbn; congruence. Qed.

Lemma store_new_tags_objects_lookup (h : list Store.obj) std i kv :
  std !! i = Some kv ->
  (h ++ Store.new_tags_objects (length h) std) !! (length h + i)
  = Some (Store.Dict [("Key", fst kv); ("Value", snd kv)]).
Proof.
  intros Hi. unfold Store.new_tags_objects.
  rewrite lookup_app_r by lia.
  replace (length h + i - length h) with i by lia.
  rewrite lookup_app_l by (rewrite length_map; now apply lookup_lt_Some in Hi).
  rewrite list_lookup_fmap, Hi. reflexivity.
Qed.

(** [merge_tags] in the store computes [merge_tags] on trees: it raises the
    same exception without touching the store, or appends objects that
    denote the merged list, a tree again. *)
Lemma merge_tags_refines (h : list Store.obj) jolds jnews vo vn Fo Fn :
  repr h (JList jolds) vo Fo -> repr h (JList jnews) vn Fn -> NoDup (Fo ++ Fn) ->
  match merge_tags jolds jnews with
  | Ok merged =>
      exists new m F',
        Store.merge_tags vo vn h = (h ++ new, Ok m)
        /\ repr (h ++ new) (JList merged) m F' /\ NoDup F'
        /\ forall x, x ∈ F' -> x ∈ Fo ++ Fn \/ length h <= x
  | Raise e => Store.merge_tags vo vn h = (h, Raise e)
  end.
Proof.
  intros Ho Hn Hnd.
  inversion Ho as [| | | |lo js vso Fso Hlo Hallo|]; subst.
  inversion Hn as [| | | |ln js vsn Fsn Hln Halln|]; subst.
  unfold merge_tags, Store.merge_tags. cbn [Store.list_items]. rewrite Hlo, Hln.
  assert (Hnd' : NoDup (concat Fso ++ concat Fsn)).
  { cbn in Hnd. apply NoDup_cons in Hnd as [_ Hnd].
    apply NoDup_app in Hnd as (H1 & Hsep & H2). apply NoDup_cons in H2 as [_ H2].
    apply NoDup_app. repeat split; try assumption.
    intros x Hx Hx'. apply (Hsep x Hx). now right. }
  pose proof (foldM_refines h _ _ (tag_dict_add_refines h) jolds vso Fso Hallo
                [] [] [] ltac:(constructor)) as H1.
  cbn [concat app] in H1. apply NoDup_app in Hnd' as (HFso & Hsep & HFsn).
  specialize (H1 HFso).
  destruct (foldM tag_dict_add jolds []) as [jtd1|e]; [|cbn; now rewrite H1].
  destruct H1 as (std1 & Fs1 & -> & Hrel1 & HFs1 & Hsub1). cbn.
  pose proof (foldM_refines h _ _ (merge_step_refines h) jnews vsn Fsn Halln
                std1 jtd1 Fs1 Hrel1) as H2.
  assert (Hnd2 : NoDup (concat Fs1 ++ concat Fsn)).
  { apply NoDup_app. repeat split; try assumption.
    intros x Hx Hx'. exact (Hsep x (Hsub1 x Hx) Hx'). }
  specialize (H2 Hnd2).
  destruct (foldM merge_step jnews jtd1) as [jtd2|e]; [|now rewrite H2].
  destruct H2 as (std2 & Fs2 & -> & Hrel2 & HFs2 & Hsub2). cbn.
  pose proof (tag_dict_repr_valid h std2 jtd2 Fs2 Hrel2) as Hvalid.
  pose proof (tag_dict_repr_length h std2 jtd2 Fs2 Hrel2) as Hlen.
  destruct (tag_footprints_spec Fs2 (length h) HFs2 Hvalid (length h) (le_n _))
    as [Hnd3 Hin3].
  exists (Store.new_tags_objects (length h) std2),
    (Store.Ref (length h + length std2)),
    ((length h + length std2) :: concat (tag_footprints (length h) Fs2)).
  split; [reflexivity|]. split; [|split].
  - apply (repr_list _ _ _ (map Store.Ref (seq (length h) (length std2)))).
    + apply store_new_tags_objects_last.
    + apply repr_new_tags.
      * apply (tag_dict_repr_frame h); [exact Hrel2|].
        intros l Hl. apply lookup_app_l. now apply Hvalid.
      * intros i kv Hi. now apply store_new_tags_objects_lookup.
  - apply NoDup_cons. split; [|exact Hnd3].
    intros Hx. apply Hin3 in Hx as [Hx|Hx].
    + apply Hvalid in Hx. lia.
    + lia.
  - intros x Hx. apply elem_of_cons in Hx as [->|Hx]; [right; lia|].
    apply Hin3 in Hx as [Hx|Hx]; [left | right; lia].
    apply Hsub2 in Hx. apply elem_of_app in Hx as [Hx|Hx].
    + apply Hsub1 in Hx. cbn. right. apply elem_of_app. now left.
    + cbn. right. apply elem_of_app. right. now right.
Qed.

(** *** Dictionaries in the store *)

Lemma footprint_set_elem {V : Type} (d : list (string * V)) (Fs : list (list nat))
    (key : string) (F : list nat) (x : nat) :
  x ∈ concat (footprint_set d Fs key F)
  <-> x ∈ F \/ x ∈ concat (footprint_set d Fs key []).
Proof.
  revert Fs. induction d as [|[k v] d IH]; intros Fs.
  - cbn. rewrite !app_nil_r. split; [auto | intros [H|H]; [exact H | inversion H]].
  - destruct Fs as [|F0 Fs].
    + cbn. rewrite !app_nil_r. split; [auto | intros [H|H]; [exact H | inversion H]].
    + cbn [footprint_set]. destruct (String.eqb k key); cbn.
      * rewrite !elem_of_app. tauto.
      * rewrite !elem_of_app, IH. tauto.
Qed.

Lemma footprint_set_others {V : Type} (d : list (string * V)) (Fs : list (list nat))
    (key : string) (x : nat) :
  x ∈ concat (footprint_set d Fs key []) -> x ∈ concat Fs.
Proof.
  revert Fs. induction d as [|[k v] d IH]; intros Fs.
  - cbn. intros H. inversion H.
  - destruct Fs as [|F0 Fs]; [cbn; intros H; inversion H|].
    cbn [footprint_set]. destruct (String.eqb k key); cbn.
    + intros H. apply elem_of_app. now right.
    + rewrite !elem_of_app. intros [H|H]; [now left | right; auto].
Qed.

(** Reading an entry: its tree, its locations, apart from those of the
    other entries. *)
Lemma entry_repr_get (h : list Store.obj) d items Fs (key : string) :
  Forall3 (entry_repr h) d items Fs -> NoDup (concat Fs) ->
  match dict_get d key with
  | Some j =>
      exists v F,
        dict_get items key = Some v /\ repr h j v F /\ NoDup F
        /\ (forall x, x ∈ F -> x ∈ concat Fs)
        /\ (forall x, x ∈ F -> x ∉ concat (footprint_set d Fs key []))
        /\ (forall x, x ∈ concat Fs -> x ∈ F \/ x ∈ concat (footprint_set d Fs key []))
  | None =>
      dict_get items key = None
      /\ forall x, x ∈ concat Fs -> x ∈ concat (footprint_set d Fs key [])
  end.
Proof.
  induction 1 as [|[k j] [k' v] F d items Fs [Hk Hj] Hall IH]; intros Hnd.
  - cbn. split; [reflexivity | intros x Hx; inversion Hx].
  - cbn in Hk. subst k'. cbn [concat] in Hnd.
    apply NoDup_app in Hnd as (HF & Hsep & HFs).
    cbn [dict_get footprint_set]. destruct (String.eqb k key).
    + exists v, F. cbn.
      split; [reflexivity|]. split; [exact Hj|]. split; [exact HF|].
      split; [|split].
      * intros x Hx. apply elem_of_app. now left.
      * intros x Hx. exact (Hsep x Hx).
      * intros x Hx. apply elem_of_app in Hx. tauto.
    + specialize (IH HFs). destruct (dict_get d key) as [j'|].
      * destruct IH as (v' & F' & Hg & Hr & Hnd' & Hin & Hout & Hcov).
        exists v', F'. cbn.
        split; [exact Hg|]. split; [exact Hr|]. split; [exact Hnd'|].
        split; [|split].
        -- intros x Hx. apply elem_of_app. right. auto.
        -- intros x Hx Hx'. apply elem_of_app in Hx' as [Hx'|Hx'].
           ++ exact (Hsep x Hx' (Hin x Hx)).
           ++ exact (Hout x Hx Hx').
        -- intros x Hx. rewrite elem_of_app. apply elem_of_app in Hx as [Hx|Hx];
             [tauto|]. destruct (Hcov x Hx); tauto.
      * destruct IH as [Hg Hcov]. split; [exact Hg|].
        intros x Hx. cbn. rewrite elem_of_app. apply elem_of_app in Hx as [Hx|Hx];
          [tauto | right; auto].
Qed.

(** Writing an entry: the dictionary of the store denotes the updated
    tree, a tree again, when the value written shares nothing with the
    other entries and these were left alone. *)
Lemma entry_repr_set (h h' : list Store.obj) d items Fs (key : string) j' v' F' :
  Forall3 (entry_repr h) d items Fs -> NoDup (concat Fs) ->
  repr h' j' v' F' -> NoDup F' ->
  (forall x, x ∈ F' -> x ∉ concat (footprint_set d Fs key [])) ->
  (forall l, l ∈ concat (footprint_set d Fs key []) -> h' !! l = h !! l) ->
  Forall3 (entry_repr h') (dict_set d key j') (dict_set items key v')
    (footprint_set d Fs key F')
  /\ NoDup (concat (footprint_set d Fs key F')).
Proof.
  intros Hall Hnd Hr HF'. revert Hnd.
  induction Hall as [|[k j] [k' v] F d items Fs [Hk Hj] Hall IH];
    intros Hnd Hdisj Hframe.
  - cbn. rewrite app_nil_r. split; [|exact HF'].
    constructor; [split; [reflexivity | exact Hr] | constructor].
  - cbn in Hk. subst k'. cbn [concat] in Hnd.
    apply NoDup_app in Hnd as (HF & Hsep & HFs).
    cbn [dict_set footprint_set] in *. destruct (String.eqb k key) eqn:Hkk.
    + cbn [concat app] in *. split.
      * constructor; [split; [reflexivity | exact Hr]|].
        clear IH. revert Hframe. clear -Hall. intros Hframe.
        induction Hall as [|kj kv F0 d items Fs [Hk Hj] Hall IH]; [constructor|].
        constructor.
        -- split; [exact Hk|]. apply (repr_frame h h' _ _ _ Hj).
           intros l Hl. apply Hframe. cbn. apply elem_of_app. now left.
        -- apply IH. intros l Hl. apply Hframe. cbn. apply elem_of_app. now right.
      * apply NoDup_app. repeat split; assumption.
    + cbn [concat] in *.
      destruct IH as [IH1 IH2].
      { exact HFs. }
      { intros x Hx Hx'. apply (Hdisj x Hx). apply elem_of_app. now right. }
      { intros l Hl. apply Hframe. apply elem_of_app. now right. }
      split.
      * constructor; [|exact IH1]. split; [reflexivity|].
        apply (repr_frame h h' _ _ _ Hj). intros l Hl. apply Hframe.
        apply elem_of_app. now left.
      * apply NoDup_app. repeat split; try assumption.
        intros x Hx Hx'. apply footprint_set_elem in Hx' as [Hx'|Hx'].
        -- apply (Hdisj x Hx'). apply elem_of_app. now left.
        -- apply footprint_set_others in Hx'. exact (Hsep x Hx Hx').
Qed.

Lemma entry_repr_frame (h h' : list Store.obj) d items Fs :
  Forall3 (entry_repr h) d items Fs ->
  (forall l, l ∈ concat Fs -> h' !! l = h !! l) ->
  Forall3 (entry_repr h') d items Fs.
Proof.
  induction 1 as [|kj kv F d items Fs [Hk Hj] Hall IH]; intros Hf; [constructor|].
  constructor.
  - split; [exact Hk|]. apply (repr_frame h h' _ _ _ Hj).
    intros l Hl. apply Hf. cbn. apply elem_of_app. now left.
  - apply IH. intros l Hl. apply Hf. cbn. apply elem_of_app. now right.
Qed.

Lemma entry_repr_valid (h : list Store.obj) d items Fs :
  Forall3 (entry_repr h) d items Fs -> forall x, x ∈ concat Fs -> x < length h.
Proof.
  induction 1 as [|kj kv F d items Fs [Hk Hj] Hall IH]; intros x Hx;
    [inversion Hx|].
  cbn in Hx. apply elem_of_app in Hx as [Hx|Hx]; [|auto].
  exact (repr_valid h _ _ _ Hj x Hx).
Qed.

Lemma repr_is_dict (h : list Store.obj) j v F :
  repr h j v F -> Store.is_dict h v = is_jdict j.
Proof.
  inversion 1 as [| | | |l js vs Fs Hl Hall|l d items Fs Hl Hall]; subst;
    try reflexivity; unfold Store.is_dict; cbn; now rewrite Hl.
Qed.

Lemma repr_is_list (h : list Store.obj) j v F :
  repr h j v F -> Store.is_list h v = is_jlist j.
Proof.
  inversion 1 as [| | | |l js vs Fs Hl Hall|l d items Fs Hl Hall]; subst;
    try reflexivity; unfold Store.is_list; cbn; now rewrite Hl.
Qed.

(** The outcome of a call that starts in a later store is an outcome for
    the earlier one, when the later store left the rest alone. *)
Lemma refines_post_trans (h h1 : list Store.obj) o (F0 F1 : list nat) tree store :
  length h <= length h1 ->
  (forall x, x ∈ F1 -> x ∈ F0 \/ length h <= x) ->
  (forall l, l < length h -> l ∉ F0 -> h1 !! l = h !! l) ->
  refines_post h1 o F1 tree store -> refines_post h o F0 tree store.
Proof.
  intros Hlen Hsub Hframe (F' & Hres & Hrepr & Hnd & Hin & Hlen' & Hout).
  exists F'. split; [exact Hres|]. split; [exact Hrepr|]. split; [exact Hnd|].
  split; [|split].
  - intros x Hx. destruct (Hin x Hx) as [H1|H1]; [exact (Hsub x H1) | right; lia].
  - lia.
  - intros l Hl HlF. rewrite Hout; [now apply Hframe | lia |].
    intros Hl1. destruct (Hsub l Hl1) as [H0|H0]; [exact (HlF H0) | lia].
Qed.

(** One entry of [update], on trees, by the tests of the source. *)
Lemma update_items_step (original rest : list (string * json)) (key : string)
    (value : json) :
  update_items original ((key, value) :: rest)
  = match dict_get original key with
    | Some child =>
        if is_jdict child && is_jdict value then
          match child with
          | JDict c =>
              let (c', e) := deep_update c value in
              match e with
              | Some _ => (dict_set original key (JDict c'), e)
              | None => update_items (dict_set original key (JDict c')) rest
              end
          | _ => update_items (dict_set original key value) rest
          end
        else if is_jlist child && is_jlist value then
          match child, value with
          | JList old, JList new =>
              match merge_tags old new with
              | Ok merged => update_items (dict_set original key (JList merged)) rest
              | Raise e => (original, Some e)
              end
          | _, _ => update_items (dict_set original key value) rest
          end
        else update_items (dict_set original key value) rest
    | None => update_items (dict_set original key value) rest
    end.
Proof.
  cbn [update_items].
  destruct (dict_get original key) as [[| | | |old|c]|]; try reflexivity;
    destruct value as [| | | |new|dv]; reflexivity.
Qed.

(** *** The loop of [deep_update] in the store *)

Lemma store_update_loop_done recurse (o : Store.val) (lu : nat) items h i :
  h !! lu = Some (Store.Dict items) ->
  Store.update_loop recurse o (Store.Ref lu) (length items) i 0 h = (h, Ok o).
Proof.
  intros Hlu. cbn. rewrite Hlu, Nat.eqb_refl. reflexivity.
Qed.

Lemma store_update_loop_step recurse (lo lu : nat) items h i remaining key value od :
  h !! lu = Some (Store.Dict items) -> items !! i = Some (key, value) ->
  h !! lo = Some (Store.Dict od) ->
  Store.update_loop recurse (Store.Ref lo) (Store.Ref lu) (length items) i
    (S remaining) h
  = match dict_get od key with
    | Some child =>
        if Store.is_dict h child && Store.is_dict h value then
          match recurse child value h with
          | (h', Ok _) =>
              Store.update_loop recurse (Store.Ref lo) (Store.Ref lu) (length items)
                (S i) remaining h'
          | (h', Raise e) => (h', Raise e)
          end
        else if Store.is_list h child && Store.is_list h value then
          match Store.merge_tags child value h with
          | (h', Ok merged) =>
              Store.update_loop recurse (Store.Ref lo) (Store.Ref lu) (length items)
                (S i) remaining (Store.setitem h' lo key merged)
          | (h', Raise e) => (h', Raise e)
          end
        else
          Store.update_loop recurse (Store.Ref lo) (Store.Ref lu) (length items)
            (S i) remaining (Store.setitem h lo key value)
    | None =>
        Store.update_loop recurse (Store.Ref lo) (Store.Ref lu) (length items)
          (S i) remaining (Store.setitem h lo key value)
    end.
Proof.
  intros Hlu Hi Hlo. cbn [Store.update_loop Store.dict_items].
  rewrite Hlu, Nat.eqb_refl, Hi, Hlo. reflexivity.
Qed.

(** After [d[key] = value] on a dictionary of a tree, the dictionary
    denotes the tree with the entry set, and is a tree again when the value
    written shares nothing with the other entries. *)
Lemma repr_dict_set (h h2 : list Store.obj) (lo : nat) d items Fs (key : string)
    j' v' F' :
  Forall3 (entry_repr h) d items Fs -> NoDup (lo :: concat Fs) ->
  h2 !! lo = Some (Store.Dict (dict_set items key v')) ->
  repr h2 j' v' F' -> NoDup F' -> lo ∉ F' ->
  (forall x, x ∈ F' -> x ∉ concat (footprint_set d Fs key [])) ->
  (forall l, l ∈ concat (footprint_set d Fs key []) -> h2 !! l = h !! l) ->
  repr h2 (JDict (dict_set d key j')) (Store.Ref lo)
    (lo :: concat (footprint_set d Fs key F'))
  /\ NoDup (lo :: concat (footprint_set d Fs key F')).
Proof.
  intros Hent Hnd Hlo Hrepr HndF Hlo' Hdisj Hframe.
  apply NoDup_cons in Hnd as [Hlo_out HndFs].
  destruct (entry_repr_set h h2 d items Fs key j' v' F' Hent HndFs Hrepr HndF
              Hdisj Hframe) as [Hent2 Hnd2].
  split.
  - exact (repr_dict h2 lo _ _ _ Hlo Hent2).
  - apply NoDup_cons. split; [|exact Hnd2].
    intros Hin. apply footprint_set_elem in Hin as [Hin|Hin]; [exact (Hlo' Hin)|].
    apply footprint_set_others in Hin. exact (Hlo_out Hin).
Qed.

(** The loop, from any entry on: the loop invariant is that [original]
    denotes the tree built so far and is a tree, that [update] is as it was
    when the loop began, and that the entries still to come denote the
    rest of the update and share nothing with [original]. *)
Lemma update_loop_refines recurse (lo lu : nat) (items_u : list (string * Store.val)) :
  forall drest rest Fs pre h d F,
    items_u = pre ++ rest ->
    Forall (fun kj => refines recurse (snd kj)) drest ->
    repr h (JDict d) (Store.Ref lo) F ->
    h !! lu = Some (Store.Dict items_u) ->
    Forall3 (entry_repr h) drest rest Fs ->
    NoDup (F ++ concat Fs) -> lu ∉ F ++ concat Fs ->
    refines_post h (Store.Ref lo) (F ++ concat Fs) (update_items d drest)
      (Store.update_loop recurse (Store.Ref lo) (Store.Ref lu) (length items_u)
         (length pre) (length drest) h).
Proof.
  induction drest as [|[key jv] drest IH];
    intros rest Fs pre h d F Hitems Hrec Hrepr Hlu Hrest Hnd Hlu_out.
  - rewrite (store_update_loop_done _ _ _ _ _ _ Hlu). cbn.
    apply NoDup_app in Hnd as (HndF & _ & _).
    exists F. cbn. split; [reflexivity|]. split; [exact Hrepr|]. split; [exact HndF|].
    split; [|split; [lia|reflexivity]].
    intros x Hx. left. apply elem_of_app. now left.
  - inversion Hrest as [|kj [key' v] Fv drest' rest' Fs' [Hk Hv] Hrest' E1 E2 E3];
      subst. cbn in Hk, Hv. subst key'.
    inversion Hrec as [|kj l Hrec_v Hrec' E1]; subst. cbn in Hrec_v.
    inversion Hrepr as [| | | | |lo' d' items_o Fso Hlo Hent E1 E2 E3]; subst.
    assert (Hlu_lt : lu < length h) by exact (lookup_lt_Some _ _ _ Hlu).
    assert (Hlo_lt : lo < length h) by exact (lookup_lt_Some _ _ _ Hlo).
    pose proof (repr_valid h _ _ _ Hrepr) as HvalF.
    pose proof (repr_valid h _ _ _ Hv) as HvalV.
    pose proof (entry_repr_valid h _ _ _ Hrest') as HvalR.
    cbn [concat] in Hnd, Hlu_out |- *.
    apply NoDup_app in Hnd as (HndF & HsepF & HndR).
    apply NoDup_app in HndR as (HndV & HsepV & HndR).
    assert (Hcont : forall h2 d2 F2,
      repr h2 (JDict d2) (Store.Ref lo) F2 -> NoDup F2 -> length h <= length h2 ->
      (forall x, x ∈ F2 -> x ∈ (lo :: concat Fso) ++ Fv \/ length h <= x) ->
      (forall l, l < length h -> l ∉ (lo :: concat Fso) ++ Fv -> h2 !! l = h !! l) ->
      refines_post h (Store.Ref lo) ((lo :: concat Fso) ++ Fv ++ concat Fs')
        (update_items d2 drest)
        (Store.update_loop recurse (Store.Ref lo) (Store.Ref lu)
           (length (pre ++ (key, v) :: rest')) (S (length pre)) (length drest) h2)).
    { intros h2 d2 F2 Hrepr2 Hnd2 Hlen2 Hin2 Hframe2.
      assert (Hsep2 : forall x, x ∈ F2 -> x ∉ concat Fs').
      { intros x Hx Hx'. destruct (Hin2 x Hx) as [H0|H0].
        - apply elem_of_app in H0 as [H0|H0].
          + apply (HsepF x H0). apply elem_of_app. now right.
          + exact (HsepV x H0 Hx').
        - specialize (HvalR x Hx'). lia. }
      assert (Hout2 : forall l, l ∈ concat Fs' -> l ∉ (lo :: concat Fso) ++ Fv).
      { intros l Hl Hl'. apply elem_of_app in Hl' as [H0|H0].
        - apply (HsepF l H0). apply elem_of_app. now right.
        - exact (HsepV l H0 Hl). }
      apply (refines_post_trans h h2 _ _ (F2 ++ concat Fs')); [exact Hlen2| | |].
      - intros x Hx. apply elem_of_app in Hx as [Hx|Hx].
        + destruct (Hin2 x Hx) as [H0|H0]; [left|now right].
          rewrite app_assoc. apply elem_of_app. now left.
        + left. rewrite app_assoc. apply elem_of_app. now right.
      - intros l Hl Hl'. apply Hframe2; [exact Hl|].
        intros H0. apply Hl'. rewrite app_assoc. apply elem_of_app. now left.
      - replace (S (length pre)) with (length (pre ++ [(key, v)]))
          by (rewrite length_app; cbn; lia).
        apply (IH rest').
        + now rewrite <- app_assoc.
        + exact Hrec'.
        + exact Hrepr2.
        + rewrite Hframe2; [exact Hlu|exact Hlu_lt|].
          intros H0. apply Hlu_out. rewrite app_assoc. apply elem_of_app. now left.
        + apply (entry_repr_frame h h2 _ _ _ Hrest').
          intros l Hl. apply Hframe2; [exact (HvalR l Hl)|exact (Hout2 l Hl)].
        + apply NoDup_app. split; [exact Hnd2|]. split; [exact Hsep2|exact HndR].
        + intros H0. apply elem_of_app in H0 as [H0|H0].
          * destruct (Hin2 lu H0) as [H1|H1]; [|lia].
            apply Hlu_out. rewrite app_assoc. apply elem_of_app. now left.
          * apply Hlu_out. rewrite !app_assoc. apply elem_of_app. now right. }
    assert (Hlo_out : lo ∉ concat Fso ++ Fv).
    { intros H0. apply elem_of_app in H0 as [H0|H0].
      - apply NoDup_cons in HndF as [H1 _]. exact (H1 H0).
      - apply (HsepF lo); [now left|]. apply elem_of_app. now left. }
    assert (Hwrite : forall Fx h2 j' v' F',
      (forall x, x ∈ Fx -> x ∈ concat Fso) ->
      (forall x, x ∈ Fx -> x ∉ concat (footprint_set d Fso key [])) ->
      h2 !! lo = Some (Store.Dict (dict_set items_o key v')) ->
      repr h2 j' v' F' -> NoDup F' ->
      (forall x, x ∈ F' -> x ∈ Fx ++ Fv \/ length h <= x) ->
      (forall l, l < length h -> l <> lo -> l ∉ Fx ++ Fv -> h2 !! l = h !! l) ->
      exists F2,
        repr h2 (JDict (dict_set d key j')) (Store.Ref lo) F2 /\ NoDup F2
        /\ (forall x, x ∈ F2 -> x ∈ (lo :: concat Fso) ++ Fv \/ length h <= x)
        /\ (forall l, l < length h -> l ∉ (lo :: concat Fso) ++ Fv ->
                      h2 !! l = h !! l)).
    { intros Fx h2 j' v' F' Hx_in Hx_out Hlo2 Hr HndF' Hin' Hframe'.
      assert (Hothers : forall l, l ∈ concat (footprint_set d Fso key []) ->
                l < length h /\ l <> lo /\ l ∉ Fx ++ Fv).
      { intros l Hl. pose proof (footprint_set_others _ _ _ _ Hl) as Hl'.
        split; [apply HvalF; now right|]. split.
        - intros ->. apply Hlo_out. apply elem_of_app. now left.
        - intros H0. apply elem_of_app in H0 as [H0|H0].
          + exact (Hx_out l H0 Hl).
          + apply (HsepF l); [now right|]. apply elem_of_app. now left. }
      destruct (repr_dict_set h h2 lo d items_o Fso key j' v' F' Hent HndF Hlo2 Hr
                  HndF') as [Hr2 Hnd2].
      - intros H0. destruct (Hin' lo H0) as [H1|H1]; [|lia].
        apply Hlo_out. apply elem_of_app in H1 as [H1|H1]; apply elem_of_app;
          [left; now apply Hx_in|now right].
      - intros x Hx Hx'. destruct (Hothers x Hx') as (H1 & H2 & H3).
        destruct (Hin' x Hx) as [H4|H4]; [exact (H3 H4)|lia].
      - intros l Hl. destruct (Hothers l Hl) as (H1 & H2 & H3). now apply Hframe'.
      - exists (lo :: concat (footprint_set d Fso key F')).
        split; [exact Hr2|]. split; [exact Hnd2|]. split.
        + intros x Hx. apply elem_of_cons in Hx as [->|Hx]; [left; now left|].
          apply footprint_set_elem in Hx as [Hx|Hx].
          * destruct (Hin' x Hx) as [H1|H1]; [left|now right].
            apply elem_of_app in H1 as [H1|H1]; apply elem_of_app;
              [left; right; now apply Hx_in|now right].
          * left. apply elem_of_app. left. right.
            exact (footprint_set_others _ _ _ _ Hx).
        + intros l Hl Hl'. apply Hframe'; [exact Hl| |].
          * intros ->. apply Hl'. now left.
          * intros H0. apply Hl'.
            apply elem_of_app in H0 as [H0|H0]; apply elem_of_app;
              [left; right; now apply Hx_in|now right]. }
    assert (Hreplace :
      refines_post h (Store.Ref lo) ((lo :: concat Fso) ++ Fv ++ concat Fs')
        (update_items (dict_set d key jv) drest)
        (Store.update_loop recurse (Store.Ref lo) (Store.Ref lu)
           (length (pre ++ (key, v) :: rest')) (S (length pre)) (length drest)
           (Store.setitem h lo key v))).
    { unfold Store.setitem. rewrite Hlo.
      destruct (Hwrite [] (<[lo:=Store.Dict (dict_set items_o key v)]> h) jv v Fv)
        as (F2 & Hr2 & Hnd2 & Hin2 & Hframe2).
      - intros x Hx. inversion Hx.
      - intros x Hx. inversion Hx.
      - now apply list_lookup_insert_eq.
      - apply (repr_frame h _ _ _ _ Hv). intros l Hl.
        apply list_lookup_insert_ne. intros ->. apply Hlo_out.
        apply elem_of_app. now right.
      - exact HndV.
      - intros x Hx. now left.
      - intros l _ Hl _. apply list_lookup_insert_ne. congruence.
      - apply (Hcont _ _ F2 Hr2 Hnd2); [|exact Hin2|exact Hframe2].
        rewrite length_insert. lia. }
    rewrite update_items_step.
    change (length ((key, jv) :: drest)) with (S (length drest)).
    rewrite (store_update_loop_step recurse lo lu _ h (length pre) (length drest)
               key v items_o Hlu (list_lookup_middle _ _ _ _ eq_refl) Hlo).
    apply NoDup_cons in HndF as HndF'. destruct HndF' as [_ HndFso].
    pose proof (entry_repr_get h d items_o Fso key Hent HndFso) as Hget.
    destruct (dict_get d key) as [jc|]; [|destruct Hget as [-> _]; exact Hreplace].
    destruct Hget as (c & Fc & Hgetc & Hc & HndC & Hc_in & Hc_out & Hc_cover).
    rewrite Hgetc.
    assert (HndCV : NoDup (Fc ++ Fv)).
    { apply NoDup_app. split; [exact HndC|]. split; [|exact HndV].
      intros x Hx Hx'. apply (HsepF x); [right; now apply Hc_in|].
      apply elem_of_app. now left. }
    assert (Hlo_child : lo ∉ Fc ++ Fv).
    { intros H0. apply Hlo_out.
      apply elem_of_app in H0 as [H0|H0]; apply elem_of_app;
        [left; now apply Hc_in|now right]. }
    assert (Hbudget : forall x, x ∈ (lo :: concat Fso) ++ Fv ->
              x ∈ (lo :: concat Fso) ++ Fv ++ concat Fs').
    { intros x Hx. rewrite app_assoc. apply elem_of_app. now left. }
    rewrite (repr_is_dict h _ _ _ Hc), (repr_is_dict h _ _ _ Hv).
    rewrite (repr_is_list h _ _ _ Hc), (repr_is_list h _ _ _ Hv).
    destruct (is_jdict jc && is_jdict jv) eqn:Hdd.
    + apply andb_true_iff in Hdd as [Hjc _].
      destruct jc as [| | | | |dc]; try discriminate Hjc.
      pose proof (Hrec_v h dc c Fc v Fv Hc Hv HndCV) as Hpost.
      destruct (deep_update dc jv) as [dc' e].
      destruct (recurse c v h) as [h1 r].
      destruct Hpost as (Fc' & Hres & Hr' & Hnd' & Hin' & Hlen' & Hframe').
      cbn in Hres, Hr', Hlen', Hframe'.
      destruct (Hwrite Fc h1 (JDict dc') c Fc' Hc_in Hc_out)
        as (F2 & Hr2 & Hnd2 & Hin2 & Hframe2).
      * rewrite (dict_set_same _ _ _ Hgetc).
        rewrite (Hframe' lo Hlo_lt Hlo_child). exact Hlo.
      * exact Hr'.
      * exact Hnd'.
      * exact Hin'.
      * intros l Hl _ Hl'. exact (Hframe' l Hl Hl').
      * destruct e as [e|]; subst r.
        -- exists F2. cbn. split; [reflexivity|]. split; [exact Hr2|].
          split; [exact Hnd2|]. split; [|split; [exact Hlen'|]].
          ++ intros x Hx. destruct (Hin2 x Hx) as [H0|H0]; [left|now right].
             exact (Hbudget x H0).
          ++ intros l Hl Hl'. apply Hframe2; [exact Hl|].
             intros H0. exact (Hl' (Hbudget l H0)).
        -- exact (Hcont _ _ F2 Hr2 Hnd2 Hlen' Hin2 Hframe2).
    + destruct (is_jlist jc && is_jlist jv) eqn:Hll; [|exact Hreplace].
      apply andb_true_iff in Hll as [Hjc Hjv].
      destruct jc as [| | | |old|]; try discriminate Hjc.
      destruct jv as [| | | |new|]; try discriminate Hjv.
      pose proof (merge_tags_refines h old new c v Fc Fv Hc Hv HndCV) as Hm.
      destruct (merge_tags old new) as [merged|e].
      * destruct Hm as (objs & m & Fm & -> & Hrm & HndM & HinM).
        unfold Store.setitem. rewrite (lookup_app_l _ _ _ Hlo_lt), Hlo.
        assert (Hlo_m : lo ∉ Fm).
        { intros H0. destruct (HinM lo H0) as [H1|H1]; [exact (Hlo_child H1)|lia]. }
        destruct (Hwrite Fc (<[lo:=Store.Dict (dict_set items_o key m)]> (h ++ objs))
                    (JList merged) m Fm Hc_in Hc_out)
          as (F2 & Hr2 & Hnd2 & Hin2 & Hframe2).
        -- apply list_lookup_insert_eq. rewrite length_app. lia.
        -- apply (repr_frame (h ++ objs) _ _ _ _ Hrm). intros l Hl.
          apply list_lookup_insert_ne. congruence.
        -- exact HndM.
        -- exact HinM.
        -- intros l Hl Hne _. rewrite list_lookup_insert_ne by congruence.
          now apply lookup_app_l.
        -- apply (Hcont _ _ F2 Hr2 Hnd2); [|exact Hin2|exact Hframe2].
          rewrite length_insert, length_app. lia.
      * rewrite Hm. apply NoDup_cons_2 with (x := lo) in HndFso.
        -- exists (lo :: concat Fso). cbn. split; [reflexivity|].
          split; [exact Hrepr|]. split; [exact HndFso|].
          split; [|split; [lia|reflexivity]].
          intros x Hx. left.
          apply elem_of_cons in Hx as [->|Hx]; [now left|right].
          apply elem_of_app. now left.
        -- intros H0. apply Hlo_out. apply elem_of_app. now left.
Qed.

(** *** [deep_update] in the store refines [deep_update] on trees *)

Lemma depth_entries (d : list (string * json)) (n : nat) :
  depth (JDict d) < S n -> Forall (fun kv => depth (snd kv) < n) d.
Proof.
  cbn [depth]. intros H. apply Nat.succ_lt_mono in H. revert H.
  induction d as [|kv d IH]; intros H; constructor.
  - lia.
  - apply IH. lia.
Qed.

(** A call that raises at once leaves the store as it was. *)
Lemma refines_post_raise (h : list Store.obj) d c Fc Fv e :
  repr h (JDict d) c Fc -> NoDup (Fc ++ Fv) ->
  refines_post h c (Fc ++ Fv) (d, Some e) (h, Raise e).
Proof.
  intros Hc Hnd. apply NoDup_app in Hnd as (HndC & _ & _).
  exists Fc. cbn. split; [reflexivity|]. split; [exact Hc|]. split; [exact HndC|].
  split; [|split; [lia|reflexivity]].
  intros x Hx. left. apply elem_of_app. now left.
Qed.

(** Run with fuel above the nesting depth of [update], on two trees of the
    store that share nothing, [deep_update] computes in place what the
    value semantics computes. *)
Lemma deep_update_refines (jv : json) :
  forall fuel, depth jv < fuel -> refines (Store.deep_update fuel) jv.
Proof.
  induction jv as [| b | n | s | l _ | du IH] using json_ind;
    intros [|fuel] Hfuel h d c Fc v Fv Hc Hv Hnd; try lia;
    try (inversion Hv; subst; now apply refines_post_raise).
  - inversion Hv as [| | | |lv js vs Fs Hlv Hall|]; subst.
    cbn [Store.deep_update Store.dict_items]. rewrite Hlv.
    now apply refines_post_raise.
  - inversion Hv as [| | | | |lu d' items_u Fs Hlu Hent]; subst.
    inversion Hc as [| | | | |lo d' items_o Fso Hlo Hent_o]; subst.
    cbn [Store.deep_update Store.dict_items]. rewrite Hlu, deep_update_items.
    apply NoDup_app in Hnd as (HndC & Hsep & HndV).
    apply NoDup_cons in HndV as [Hlu_out HndV].
    apply (refines_post_trans h h _ _ ((lo :: concat Fso) ++ concat Fs)).
    + lia.
    + intros x Hx. left. apply elem_of_app in Hx as [Hx|Hx]; apply elem_of_app;
        [now left|right; now right].
    + reflexivity.
    + rewrite <- (Forall3_length_lm _ _ _ _ Hent) at 2.
      apply (update_loop_refines _ lo lu items_u du items_u Fs [] h d _ eq_refl).
      * pose proof (depth_entries du fuel Hfuel) as Hdepth.
        clear - IH Hdepth. induction IH as [|kv du Hkv _ IHdu]; constructor.
        -- apply Hkv. now inversion Hdepth.
        -- apply IHdu. now inversion Hdepth.
      * exact Hc.
      * exact Hlu.
      * exact Hent.
      * apply NoDup_app. split; [exact HndC|]. split; [|exact HndV].
        intros x Hx Hx'. apply (Hsep x Hx). now right.
      * intros H0. apply elem_of_app in H0 as [H0|H0]; [|exact (Hlu_out H0)].
        apply (Hsep lu H0). now left.
Qed.

(** *** Trees placed in the store and read back *)

Lemma reprs_frame (h h' : list Store.obj) js vs Fs :
  Forall3 (repr h) js vs Fs ->
  (forall l, l ∈ concat Fs -> h' !! l = h !! l) ->
  Forall3 (repr h') js vs Fs.
Proof.
  induction 1 as [|j v F js vs Fs Hj Hall IH]; intros Hf; [constructor|].
  constructor.
  - apply (repr_frame h h' _ _ _ Hj).
    intros l Hl. apply Hf. cbn. apply elem_of_app. now left.
  - apply IH. intros l Hl. apply Hf. cbn. apply elem_of_app. now right.
Qed.

Lemma reprs_valid (h : list Store.obj) js vs Fs :
  Forall3 (repr h) js vs Fs -> forall x, x ∈ concat Fs -> x < length h.
Proof.
  induction 1 as [|j v F js vs Fs Hj Hall IH]; intros x Hx; [inversion Hx|].
  cbn in Hx. apply elem_of_app in Hx as [Hx|Hx]; [|auto].
  exact (repr_valid h _ _ _ Hj x Hx).
Qed.

(** [Store.alloc] extends the store with a tree of fresh objects. *)
Lemma alloc_repr (j : json) :
  forall h,
    exists new F,
      fst (Store.alloc j h) = h ++ new
      /\ repr (h ++ new) j (snd (Store.alloc j h)) F /\ NoDup F
      /\ forall x, x ∈ F -> length h <= x.
Proof.
  induction j as [| b | n | s | l IH | d IH] using json_ind; intros h;
    try (exists [], []; cbn; rewrite app_nil_r; repeat split;
         [constructor | constructor | intros x Hx; inversion Hx]).
  - cbn [Store.alloc].
    set (go := fix go (l : list json) (h : list Store.obj) {struct l} :=
           match l with
           | [] => (h, [])
           | x :: xs =>
               let '(h, v) := Store.alloc x h in
               let '(h, vs) := go xs h in (h, v :: vs)
           end).
    assert (Hgo : forall h, exists new Fs,
              fst (go l h) = h ++ new
              /\ Forall3 (repr (h ++ new)) l (snd (go l h)) Fs
              /\ NoDup (concat Fs) /\ forall x, x ∈ concat Fs -> length h <= x).
    { clear h. induction IH as [|x xs Hx _ IHxs]; intros h.
      - exists [], []. cbn. rewrite app_nil_r. repeat split; try constructor.
        intros x Hx. inversion Hx.
      - cbn [go]. destruct (Hx h) as (n1 & F & E1 & Hr1 & Hnd1 & Hfresh1).
        destruct (Store.alloc x h) as [h1 v]. cbn in E1, Hr1. subst h1.
        destruct (IHxs (h ++ n1)) as (n2 & Fs & E2 & Hr2 & Hnd2 & Hfresh2).
        destruct (go xs (h ++ n1)) as [h2 vs]. cbn in E2, Hr2. subst h2.
        exists (n1 ++ n2), (F :: Fs). cbn. rewrite app_assoc.
        split; [reflexivity|]. split; [|split].
        + constructor; [|exact Hr2].
          apply (repr_frame _ _ _ _ _ Hr1). intros l0 Hl0.
          apply lookup_app_l. exact (repr_valid _ _ _ _ Hr1 l0 Hl0).
        + apply NoDup_app. split; [exact Hnd1|]. split; [|exact Hnd2].
          intros y Hy Hy'. pose proof (repr_valid _ _ _ _ Hr1 y Hy).
          specialize (Hfresh2 y Hy'). lia.
        + intros y Hy. apply elem_of_app in Hy as [Hy|Hy]; [now apply Hfresh1|].
          specialize (Hfresh2 y Hy). rewrite length_app in Hfresh2. lia. }
    destruct (Hgo h) as (new & Fs & E & Hr & Hnd & Hfresh).
    destruct (go l h) as [h1 vs]. cbn in E, Hr. subst h1.
    exists (new ++ [Store.List vs]), (length (h ++ new) :: concat Fs).
    cbn [fst snd]. rewrite app_assoc. split; [reflexivity|]. split; [|split].
    + apply repr_list with (vs := vs).
      * now apply list_lookup_middle.
      * apply (reprs_frame _ _ _ _ _ Hr). intros x Hx.
        apply lookup_app_l. exact (reprs_valid _ _ _ _ Hr x Hx).
    + apply NoDup_cons. split; [|exact Hnd].
      intros H0. pose proof (reprs_valid _ _ _ _ Hr _ H0). lia.
    + intros x Hx. apply elem_of_cons in Hx as [->|Hx]; [|now apply Hfresh].
      rewrite length_app. lia.
  - cbn [Store.alloc].
    set (go := fix go (d : list (string * json)) (h : list Store.obj) {struct d} :=
           match d with
           | [] => (h, [])
           | kv :: xs =>
               let '(h, v) := Store.alloc (snd kv) h in
               let '(h, items) := go xs h in (h, (fst kv, v) :: items)
           end).
    assert (Hgo : forall h, exists new Fs,
              fst (go d h) = h ++ new
              /\ Forall3 (entry_repr (h ++ new)) d (snd (go d h)) Fs
              /\ NoDup (concat Fs) /\ forall x, x ∈ concat Fs -> length h <= x).
    { clear h. induction IH as [|x xs Hx _ IHxs]; intros h.
      - exists [], []. cbn. rewrite app_nil_r. repeat split; try constructor.
        intros x Hx. inversion Hx.
      - cbn [go]. destruct (Hx h) as (n1 & F & E1 & Hr1 & Hnd1 & Hfresh1).
        destruct (Store.alloc (snd x) h) as [h1 v]. cbn in E1, Hr1. subst h1.
        destruct (IHxs (h ++ n1)) as (n2 & Fs & E2 & Hr2 & Hnd2 & Hfresh2).
        destruct (go xs (h ++ n1)) as [h2 vs]. cbn in E2, Hr2. subst h2.
        exists (n1 ++ n2), (F :: Fs). cbn. rewrite app_assoc.
        split; [reflexivity|]. split; [|split].
        + constructor; [|exact Hr2]. split; [reflexivity|]. cbn.
          apply (repr_frame _ _ _ _ _ Hr1). intros l0 Hl0.
          apply lookup_app_l. exact (repr_valid _ _ _ _ Hr1 l0 Hl0).
        + apply NoDup_app. split; [exact Hnd1|]. split; [|exact Hnd2].
          intros y Hy Hy'. pose proof (repr_valid _ _ _ _ Hr1 y Hy).
          specialize (Hfresh2 y Hy'). lia.
        + intros y Hy. apply elem_of_app in Hy as [Hy|Hy]; [now apply Hfresh1|].
          specialize (Hfresh2 y Hy). rewrite length_app in Hfresh2. lia. }
    destruct (Hgo h) as (new & Fs & E & Hr & Hnd & Hfresh).
    destruct (go d h) as [h1 items]. cbn in E, Hr. subst h1.
    exists (new ++ [Store.Dict items]), (length (h ++ new) :: concat Fs).
    cbn [fst snd]. rewrite app_assoc. split; [reflexivity|]. split; [|split].
    + apply repr_dict with (items := items).
      * now apply list_lookup_middle.
      * apply (entry_repr_frame _ _ _ _ _ Hr). intros x Hx.
        apply lookup_app_l. exact (entry_repr_valid _ _ _ _ Hr x Hx).
    + apply NoDup_cons. split; [|exact Hnd].
      intros H0. pose proof (entry_repr_valid _ _ _ _ Hr _ H0). lia.
    + intros x Hx. apply elem_of_cons in Hx as [->|Hx]; [|now apply Hfresh].
      rewrite length_app. lia.
Qed.

(** [Store.read] recovers the tree a value denotes, given fuel for its
    height. *)
Lemma read_repr (j : json) :
  forall fuel h v F, repr h j v F -> height j <= fuel -> Store.read fuel h v = Some j.
Proof.
  induction j as [| b | n | s | l IH | d IH] using json_ind;
    intros fuel h v F Hr Hfuel; inversion Hr; subst;
    try (destruct fuel; reflexivity).
  - destruct fuel as [|fuel]; [cbn in Hfuel; lia|].
    cbn [Store.read]. rewrite H0. cbn [height] in Hfuel.
    apply Nat.succ_le_mono in Hfuel. revert Hfuel.
    match goal with H : Forall3 _ _ _ _ |- _ => revert H end. clear Hr H0.
    intros Hall. revert IH.
    induction Hall as [|j v F js vs Fs Hj Hall IHall]; intros IH Hfuel;
      [reflexivity|].
    inversion IH as [|? ? Hhead Htail]; subst.
    rewrite (Hhead fuel h v F Hj) by lia.
    specialize (IHall Htail). cbn [option_map] in IHall |- *.
    match type of IHall with _ -> option_map _ ?g = _ => destruct g as [js'|] end.
    + assert (E : Some (JList js') = Some (JList js)) by (apply IHall; lia).
      now injection E as ->.
    + assert (E : @None json = Some (JList js)) by (apply IHall; lia).
      discriminate E.
  - destruct fuel as [|fuel]; [cbn in Hfuel; lia|].
    cbn [Store.read]. rewrite H0. cbn [height] in Hfuel.
    apply Nat.succ_le_mono in Hfuel. revert Hfuel.
    match goal with H : Forall3 _ _ _ _ |- _ => revert H end. clear Hr H0.
    intros Hall. revert IH.
    induction Hall as [|[k j] [k' v] F js vs Fs [Hk Hj] Hall IHall]; intros IH Hfuel;
      [reflexivity|].
    cbn in Hk, Hj. subst k'.
    inversion IH as [|? ? Hhead Htail]; subst. cbn in Hhead.
    cbn [snd fst] in Hfuel |- *. rewrite (Hhead fuel h v F Hj) by lia.
    specialize (IHall Htail). cbn [option_map] in IHall |- *.
    match type of IHall with _ -> option_map _ ?g = _ => destruct g as [js'|] end.
    + assert (E : Some (JDict js') = Some (JDict js)) by (apply IHall; lia).
      now injection E as ->.
    + assert (E : @None json = Some (JDict js)) by (apply IHall; lia).
      discriminate E.
Qed.

(** X14: the two semantics agree on trees loaded from files: run in the
    store on fresh copies of [original] and [update], [deep_update] raises
    what the value semantics raises and otherwise returns [original], and
    afterwards [original] denotes the tree the value semantics computes. *)
Lemma run_in_store_refines (original : list (string * json)) (update : json)
    (fuel : nat) :
  depth update < fuel ->
  height (JDict (fst (deep_update original update))) <= fuel ->
  run_in_store fuel original update
  = (match snd (deep_update original update) with
     | None => Ok (snd (Store.alloc (JDict original) []))
     | Some e => Raise e
     end,
     snd (Store.alloc (JDict original) []),
     Some (JDict (fst (deep_update original update)))).
Proof.
  intros Hdepth Hheight. unfold run_in_store.
  destruct (alloc_repr (JDict original) []) as (n1 & Fo & E1 & Ho & HndO & _).
  destruct (Store.alloc (JDict original) []) as [h1 o]. cbn [fst snd] in *.
  subst h1.
  destruct (alloc_repr update ([] ++ n1)) as (n2 & Fu & E2 & Hu & HndU & HfreshU).
  destruct (Store.alloc update ([] ++ n1)) as [h2 u]. cbn [fst snd] in *.
  subst h2.
  assert (Ho2 : repr (([] ++ n1) ++ n2) (JDict original) o Fo).
  { apply (repr_frame _ _ _ _ _ Ho). intros l Hl.
    apply lookup_app_l. exact (repr_valid _ _ _ _ Ho l Hl). }
  assert (Hnd : NoDup (Fo ++ Fu)).
  { apply NoDup_app. split; [exact HndO|]. split; [|exact HndU].
    intros x Hx Hx'. pose proof (repr_valid _ _ _ _ Ho x Hx).
    specialize (HfreshU x Hx'). lia. }
  pose proof (deep_update_refines update fuel Hdepth _ _ _ _ _ _ Ho2 Hu Hnd)
    as (F' & Hres & Hr' & _).
  destruct (Store.deep_update fuel o u (([] ++ n1) ++ n2)) as [h3 r].
  cbn [fst snd] in Hres, Hr'. subst r.
  now rewrite (read_repr _ fuel h3 o F' Hr' Hheight).
Qed.

(** ** The validators of the deploy parameters *)

(** *** Prefixes, substrings and fields *)

Lemma prefix_spec (p s : string) :
  String.prefix p s = true <-> exists b, s = p +:+ b.
Proof.
  revert s. induction p as [|c p IH]; intros s.
  - split; [intros _; exists s; now rewrite append_nil|]. now destruct s.
  - destruct s as [|c' s]; cbn [String.prefix].
    + split; [discriminate|]. intros [b Hb]. rewrite append_cons in Hb. discriminate.
    + destruct (ascii_dec c c') as [->|Hne].
      * rewrite IH. split; intros [b Hb]; exists b.
        -- rewrite append_cons. now f_equal.
        -- rewrite append_cons in Hb. now injection Hb.
      * split; [discriminate|]. intros [b Hb]. rewrite append_cons in Hb.
        injection Hb as E _. now symmetry in E.
Qed.

Lemma contains_spec (sub s : string) :
  contains sub s = true <-> exists a b, s = a +:+ sub +:+ b.
Proof.
  induction s as [|c s IH].
  - cbn [contains]. rewrite orb_false_r, prefix_spec. split.
    + intros [b Hb]. exists EmptyString, b. now rewrite append_nil.
    + intros (a & b & Hab). destruct a as [|c a].
      * exists b. now rewrite append_nil in Hab.
      * rewrite append_cons in Hab. discriminate.
  - cbn [contains]. rewrite orb_true_iff, prefix_spec, IH. split.
    + intros [[b Hb]|(a & b & Hab)].
      * exists EmptyString, b. now rewrite append_nil.
      * exists (String c a), b. rewrite append_cons. now f_equal.
    + intros (a & b & Hab). destruct a as [|c' a].
      * left. exists b. now rewrite append_nil in Hab.
      * right. rewrite append_cons in Hab. injection Hab as _ Hab. now exists a, b.
Qed.

(** The number of occurrences of a character. *)
Lemma split_chr_length (sep : ascii) (s : string) :
  length (split_chr sep s)
  = S (length (List.filter (Ascii.eqb sep) (list_ascii_of_string s))).
Proof.
  induction s as [|c s IH]; [reflexivity|].
  cbn [split_chr list_ascii_of_string List.filter].
  rewrite (Ascii.eqb_sym sep c).
  destruct (Ascii.eqb c sep); cbn [length]; [now rewrite IH|].
  destruct (split_chr sep s); [discriminate IH|exact IH].
Qed.

Lemma has_char_filter (c : ascii) (s : string) :
  has_char c s = false <-> List.filter (Ascii.eqb c) (list_ascii_of_string s) = [].
Proof.
  induction s as [|x s IH]; [easy|].
  cbn [has_char list_ascii_of_string List.filter]. rewrite (Ascii.eqb_sym c x).
  destruct (Ascii.eqb x c); cbn [orb]; [easy|exact IH].
Qed.

Lemma list_ascii_app (a b : string) :
  list_ascii_of_string (a +:+ b) = list_ascii_of_string a ++ list_ascii_of_string b.
Proof.
  induction a as [|c a IH]; [now rewrite append_nil|].
  rewrite append_cons. cbn [list_ascii_of_string]. now rewrite IH.
Qed.

(** A string with one occurrence of [c] is two fields around it. *)
Lemma filter_one (c : ascii) (s : string) :
  length (List.filter (Ascii.eqb c) (list_ascii_of_string s)) = 1 ->
  exists a b, s = a +:+ String c b /\ has_char c a = false /\ has_char c b = false.
Proof.
  induction s as [|x s IH]; [discriminate|].
  cbn [list_ascii_of_string List.filter]. destruct (Ascii.eqb c x) eqn:E.
  - apply Ascii.eqb_eq in E as <-. cbn [length]. intros H.
    exists EmptyString, s. rewrite append_nil. repeat split.
    apply has_char_filter. injection H as H. now apply length_zero_iff_nil.
  - intros H. destruct (IH H) as (a & b & -> & Ha & Hb).
    exists (String x a), b. rewrite append_cons. repeat split; [|exact Hb].
    cbn [has_char]. rewrite Ascii.eqb_sym, E. exact Ha.
Qed.

Lemma filter_none (c : ascii) (a : string) :
  has_char c a = false -> List.filter (Ascii.eqb c) (list_ascii_of_string a) = [].
Proof. apply has_char_filter. Qed.

(** *** [validate_role_arn] *)

(** After the prefix, [':role/'] begins at the last colon of the prefix or
    inside the rest. *)
Lemma prefix_cons (a b : ascii) (p s : string) :
  String.prefix (String a p) (String b s) = Ascii.eqb a b && String.prefix p s.
Proof.
  cbn [String.prefix]. destruct (ascii_dec a b) as [->|Hne].
  - now rewrite Ascii.eqb_refl.
  - apply Ascii.eqb_neq in Hne. now rewrite Hne.
Qed.

Lemma contains_role (r : string) :
  contains ":role/" ("arn:aws:iam::" +:+ r)
  = String.prefix "role/" r || contains ":role/" r.
Proof.
  rewrite !append_cons, append_nil. cbn [contains].
  rewrite !prefix_cons. cbn [Ascii.eqb Bool.eqb andb orb].
  destruct r as [|c r]; [reflexivity|].
  rewrite !prefix_cons. cbn [Ascii.eqb Bool.eqb andb orb]. reflexivity.
Qed.

Lemma split_role (r : string) :
  length (split_chr ":" ("arn:aws:iam::" +:+ r))
  = 5 + length (List.filter (Ascii.eqb ":") (list_ascii_of_string r)).
Proof.
  rewrite split_chr_length, list_ascii_app. now rewrite List.filter_app.
Qed.

Lemma prefix_app (p r : string) : String.prefix p (p +:+ r) = true.
Proof. apply prefix_spec. now exists r. Qed.

Lemma validate_role_arn_rest (r : string) :
  validate_role_arn ("arn:aws:iam::" +:+ r)
  = (String.prefix "role/" r || contains ":role/" r)
    && Nat.eqb (length (List.filter (Ascii.eqb ":") (list_ascii_of_string r))) 1.
Proof.
  unfold validate_role_arn, startswith.
  rewrite prefix_app, contains_role, split_role.
  now rewrite append_cons.
Qed.

(** X1: [validate_role_arn] accepts exactly the strings made of the prefix
    [arn:aws:iam::] and a rest with one colon that either is
    [account:role/name] or begins with [role/]; the account is not looked
    at, and [arn:aws:iam::role/a:b] is accepted. *)
Theorem validate_role_arn_accepts (arn : string) :
  validate_role_arn arn = true
  <-> (exists account name,
         arn = "arn:aws:iam::" +:+ account +:+ ":role/" +:+ name
         /\ has_char ":" account = false /\ has_char ":" name = false)
      \/ (exists a b,
            arn = "arn:aws:iam::role/" +:+ a +:+ ":" +:+ b
            /\ has_char ":" a = false /\ has_char ":" b = false).
Proof.
  split.
  - intros H.
    assert (Hpre : String.prefix "arn:aws:iam::" arn = true).
    { unfold validate_role_arn, startswith in H.
      destruct (str_empty arn); [discriminate|].
      now destruct (String.prefix "arn:aws:iam::" arn). }
    apply prefix_spec in Hpre as [r ->].
    rewrite validate_role_arn_rest in H.
    apply andb_true_iff in H as [Hrole Hone]. apply Nat.eqb_eq in Hone.
    apply orb_true_iff in Hrole as [Hrole|Hrole].
    + right. apply prefix_spec in Hrole as [r' ->].
      rewrite list_ascii_app, List.filter_app in Hone. cbn in Hone.
      destruct (filter_one ":" r' Hone) as (a & b & -> & Ha & Hb).
      exists a, b. split; [|now split].
      rewrite !append_cons, !append_nil. reflexivity.
    + left. apply contains_spec in Hrole as (a & b & ->).
      rewrite !list_ascii_app, !List.filter_app in Hone. cbn in Hone.
      rewrite length_app in Hone. cbn in Hone.
      exists a, b. split; [reflexivity|].
      split; apply has_char_filter; apply length_zero_iff_nil; lia.
  - intros [(account & name & -> & Ha & Hn)|(a & b & -> & Ha & Hb)].
    + rewrite validate_role_arn_rest.
      rewrite !list_ascii_app, !List.filter_app.
      rewrite (filter_none _ _ Ha), (filter_none _ _ Hn).
      replace (contains ":role/" (account +:+ ":role/" +:+ name)) with true
        by (symmetry; apply contains_spec; now exists account, name).
      now rewrite orb_true_r.
    + replace ("arn:aws:iam::role/" +:+ a +:+ ":" +:+ b)
        with ("arn:aws:iam::" +:+ ("role/" +:+ a +:+ ":" +:+ b))
        by (now rewrite !append_cons, !append_nil).
      rewrite validate_role_arn_rest.
      rewrite !list_ascii_app, !List.filter_app.
      rewrite (filter_none _ _ Ha), (filter_none _ _ Hb).
      now rewrite prefix_app.
Qed.

(** *** [validate_region] *)

(** X2: of the regions the source names, [validate_region] rejects exactly
    [ca-west-1], [mx-central-1], [il-central-1] and [af-south-1]: a comma is
    missing after [ca-west-1] and after [il-central-1], so the set holds
    the two concatenations instead, and accepts them. *)
Theorem validate_region_literals (region : string) :
  In region region_literals ->
  (validate_region region = false
   <-> In region ["ca-west-1"; "mx-central-1"; "il-central-1"; "af-south-1"])
  /\ validate_region "ca-west-1mx-central-1" = true
  /\ validate_region "il-central-1af-south-1" = true.
Proof.
  intros Hin. split; [|split; reflexivity].
  unfold region_literals in Hin.
  repeat (destruct Hin as [<-|Hin];
          [vm_compute; split; [try discriminate; tauto|];
           intros H; try reflexivity;
           repeat (destruct H as [H|H]; [discriminate H|]); destruct H|]).
  destruct Hin.
Qed.

Lemma validate_region_literals_witness :
  validate_region "ca-west-1" = false /\ validate_region "us-east-1" = true.
Proof.
  split.
  - apply (validate_region_literals "ca-west-1"); [vm_compute; tauto|now left].
  - destruct (validate_region "us-east-1") eqn:E; [reflexivity|].
    apply (validate_region_literals "us-east-1") in E; [|now left].
    repeat (destruct E as [E|E]; [discriminate E|]). destruct E.
Defined.

(** *** [validate_s3_bucket] *)

Lemma ascii_classes (c : ascii) :
  Nat.ltb (code c) 128 = true ->
  is_lower c = ascii_lower c
  /\ negb (is_upper c) && (is_alnum c || Ascii.eqb c "-") = bucket_char c.
Proof.
  destruct c as [[] [] [] [] [] [] [] []]; vm_compute; intros H;
    try discriminate H; split; reflexivity.
Qed.

Lemma ascii_bucket_chars (l : list ascii) :
  forallb (fun c => Nat.ltb (code c) 128) l = true ->
  existsb is_lower l = existsb ascii_lower l
  /\ forallb (fun c => negb (is_upper c)) l
     && forallb (fun c => is_alnum c || Ascii.eqb c "-") l
     = forallb bucket_char l.
Proof.
  induction l as [|c l IH]; [easy|]. cbn [forallb existsb].
  intros H. apply andb_true_iff in H as [Hc Hl].
  destruct (IH Hl) as [IH1 IH2]. destruct (ascii_classes c Hc) as [H1 H2].
  split; [now rewrite H1, IH1|].
  rewrite <- H2, <- IH2.
  destruct (is_upper c), (is_alnum c || Ascii.eqb c "-"),
    (forallb (fun c => negb (is_upper c)) l); reflexivity.
Qed.

(** X3: on ASCII text, [validate_s3_bucket] accepts exactly the names of 3
    to 63 characters made of lowercase letters, digits and hyphens that
    hold a letter and neither begin nor end with a hyphen: a name made of
    digits only is rejected, as is one with a dot. *)
Theorem validate_s3_bucket_ascii (bucket : string) :
  is_ascii bucket = true ->
  (validate_s3_bucket bucket = true
   <-> 3 <= String.length bucket <= 63
       /\ forallb bucket_char (list_ascii_of_string bucket) = true
       /\ existsb ascii_lower (list_ascii_of_string bucket) = true
       /\ startswith "-" bucket = false /\ endswith "-" bucket = false).
Proof.
  intros Hascii. destruct (ascii_bucket_chars _ Hascii) as [Hex Hall].
  unfold validate_s3_bucket, islower. rewrite Hex, <- Hall.
  destruct (str_empty bucket) eqn:Hempty.
  { apply str_empty_true in Hempty as ->. split; [discriminate|]. cbn. lia. }
  destruct (Nat.leb_spec 3 (String.length bucket)),
    (Nat.leb_spec (String.length bucket) 63); cbn [andb negb];
    try (split; [discriminate|lia]).
  destruct (forallb (fun c => negb (is_upper c)) (list_ascii_of_string bucket));
    cbn [andb negb]; [|split; [discriminate|easy]].
  destruct (existsb ascii_lower (list_ascii_of_string bucket));
    cbn [andb negb]; [|split; [discriminate|easy]].
  destruct (forallb (fun c => is_alnum c || Ascii.eqb c "-")
              (list_ascii_of_string bucket));
    cbn [andb negb]; [|split; [discriminate|easy]].
  destruct (startswith "-" bucket), (endswith "-" bucket); cbn [orb];
    split; try discriminate; try easy; intros _; repeat split; lia.
Qed.

Lemma validate_s3_bucket_ascii_witness :
  validate_s3_bucket "my-bucket-01" = true /\ validate_s3_bucket "123456" = false.
Proof.
  split.
  - apply (validate_s3_bucket_ascii "my-bucket-01"); [reflexivity|].
    vm_compute. repeat split; lia.
  - destruct (validate_s3_bucket "123456") eqn:E; [|reflexivity].
    apply (validate_s3_bucket_ascii "123456") in E; [|reflexivity].
    destruct E as (_ & _ & E & _). discriminate E.
Defined.

(** *** The prompts *)

(** A required value that [get_validated_input] returns was accepted by
    the validator. *)
Lemma get_validated_input_required default validator_func answers v rest :
  get_validated_input default validator_func true answers = (Returned v, rest) ->
  validator_func v = Ok true.
Proof.
  revert v rest. induction answers as [|[value|] answers IH]; intros v rest;
    cbn [get_validated_input]; [discriminate| |discriminate].
  destruct (String.eqb value "?"); [apply IH|].
  destruct (String.eqb value "-"); [apply IH|].
  destruct (String.eqb value "^"); [discriminate|].
  destruct (validator_func _) as [[]|e] eqn:Hv; [|apply IH|discriminate].
  intros H. injection H as <- _. exact Hv.
Qed.

Lemma prompt_bind_returned {A B : Type} (m : prompting A) (k : A -> prompting B)
    answers b rest :
  prompt_bind m k answers = (Returned b, rest) ->
  exists a mid, m answers = (Returned a, mid) /\ k a mid = (Returned b, rest).
Proof.
  unfold prompt_bind. destruct (m answers) as [[a| | | |] mid]; try discriminate.
  intros H. now exists a, mid.
Qed.

Lemma validate_s3_bucket_value_true v :
  validate_s3_bucket_value v = Ok true ->
  exists s, v = VStr s /\ validate_s3_bucket s = true.
Proof.
  destruct v as [s|[]]; cbn; try discriminate. intros H. exists s. split; congruence.
Qed.

Lemma validate_region_value_true v :
  validate_region_value v = Ok true -> exists s, v = VStr s /\ validate_region s = true.
Proof.
  destruct v as [s|[]]; cbn; try discriminate. intros H. exists s. split; congruence.
Qed.

Lemma validate_role_arn_value_true v :
  validate_role_arn_value v = Ok true ->
  exists s, v = VStr s /\ validate_role_arn s = true.
Proof.
  destruct v as [s|[]]; cbn; try discriminate. intros H. exists s. split; congruence.
Qed.

Lemma validate_boolean_value_true v :
  validate_boolean_value v = Ok true ->
  exists s, v = VStr s /\ validate_boolean s = true.
Proof.
  destruct v as [s|[]]; cbn; try discriminate. intros H. exists s. split; congruence.
Qed.

(** X4: whatever the defaults, the environment and the answers, the
    parameters [gather_atlantis_deploy_parameters] returns are strings its
    validators accepted: a bucket name, a region, a boolean in some case,
    and for a pipeline, and only then, a role ARN. *)
Theorem gather_atlantis_deploy_parameters_validated getenv infra_type defaults
    answers params rest :
  gather_atlantis_deploy_parameters getenv infra_type defaults answers
  = (Returned params, rest) ->
  (exists s, dict_get params "s3_bucket" = Some (VStr s)
             /\ validate_s3_bucket s = true)
  /\ (exists s, dict_get params "region" = Some (VStr s) /\ validate_region s = true)
  /\ (exists s, dict_get params "confirm_changeset" = Some (VStr s)
                /\ validate_boolean s = true)
  /\ (if String.eqb infra_type "pipeline"
      then exists s, dict_get params "role_arn" = Some (VStr s)
                     /\ validate_role_arn s = true
      else dict_get params "role_arn" = None).
Proof.
  unfold gather_atlantis_deploy_parameters. intros H.
  match type of H with
  | match ?body answers with _ => _ end = _ =>
      assert (Hbody : body answers = (Returned params, rest))
        by (destruct (body answers) as [[| | | |] ?]; congruence)
  end.
  clear H.
  apply prompt_bind_returned in Hbody as (bucket & a1 & H1 & Hbody).
  apply prompt_bind_returned in Hbody as (region & a2 & H2 & Hbody).
  apply prompt_bind_returned in Hbody as (confirm & a3 & H3 & Hbody).
  apply get_validated_input_required, validate_s3_bucket_value_true in H1
    as (s1 & -> & Hs1).
  apply get_validated_input_required, validate_region_value_true in H2
    as (s2 & -> & Hs2).
  apply get_validated_input_required, validate_boolean_value_true in H3
    as (s3 & -> & Hs3).
  destruct (String.eqb infra_type "pipeline").
  - apply prompt_bind_returned in Hbody as (role & a4 & H4 & Hbody).
    apply get_validated_input_required, validate_role_arn_value_true in H4
      as (s4 & -> & Hs4).
    injection Hbody as <- _.
    split; [exists s1; split; [reflexivity|exact Hs1]|].
    split; [exists s2; split; [reflexivity|exact Hs2]|].
    split; [exists s3; split; [reflexivity|exact Hs3]|].
    exists s4. split; [reflexivity|exact Hs4].
  - injection Hbody as <- _.
    split; [exists s1; split; [reflexivity|exact Hs1]|].
    split; [exists s2; split; [reflexivity|exact Hs2]|].
    split; [exists s3; split; [reflexivity|exact Hs3]|].
    reflexivity.
Qed.

Lemma gather_atlantis_deploy_parameters_validated_witness :
  exists s,
    dict_get
      [("s3_bucket", VStr "acme-deploys"); ("region", VStr "us-east-1");
       ("confirm_changeset", VStr "TRUE");
       ("role_arn", VStr "arn:aws:iam::123456789012:role/deployer")]
      "role_arn" = Some (VStr s)
    /\ validate_role_arn s = true.
Proof.
  assert (E : gather_atlantis_deploy_parameters (fun _ default => default)
                "pipeline" [] example_answers
              = (Returned
                   [("s3_bucket", VStr "acme-deploys"); ("region", VStr "us-east-1");
                    ("confirm_changeset", VStr "TRUE");
                    ("role_arn", VStr "arn:aws:iam::123456789012:role/deployer")],
                 [])) by (vm_compute; reflexivity).
  pose proof (gather_atlantis_deploy_parameters_validated _ _ _ _ _ _ E)
    as (_ & _ & _ & H).
  exact H.
Defined.

(** ** Stage defaults *)

Lemma startswith_char (c : ascii) (s : string) :
  startswith (String c "") s
  = match s with
    | EmptyString => false
    | String x _ => Ascii.eqb x c
    end.
Proof.
  unfold startswith. destruct s as [|x s]; [reflexivity|].
  rewrite prefix_cons, Ascii.eqb_sym.
  replace (String.prefix "" s) with true by (now destruct s). apply andb_true_r.
Qed.

(** X5: for every stage, the two branch defaults are equal, and they are
    [main] exactly for the stages [prod] and [main], any other stage being
    its own branch; the environment is DEV for a stage that begins with [d],
    TEST for one that begins with [t] and PROD for every other one, the
    classes [b] and [s] of the stage order and the empty stage included. *)
Theorem calculate_stage_defaults_spec (stage_id : string) :
  dict_get (calculate_stage_defaults stage_id) "DeployEnvironment"
  = Some (match stage_class stage_id with
          | 0 => "DEV"
          | 1 => "TEST"
          | _ => "PROD"
          end)
  /\ dict_get (calculate_stage_defaults stage_id) "RepositoryBranch"
     = dict_get (calculate_stage_defaults stage_id) "CodeCommitBranch"
  /\ (dict_get (calculate_stage_defaults stage_id) "RepositoryBranch" = Some "main"
      <-> stage_id = "prod" \/ stage_id = "main")
  /\ (stage_id <> "prod" ->
      dict_get (calculate_stage_defaults stage_id) "RepositoryBranch" = Some stage_id).
Proof.
  unfold calculate_stage_defaults. rewrite !startswith_char.
  cbn [dict_set dict_get String.eqb Ascii.eqb Bool.eqb]. repeat split.
  - destruct stage_id as [|c s]; [reflexivity|]. cbn [stage_class].
    destruct (Ascii.eqb_spec c "d") as [->|Hd]; [reflexivity|].
    destruct (Ascii.eqb c "t"); [reflexivity|].
    destruct (Ascii.eqb c "b"), (Ascii.eqb c "s"), (Ascii.eqb c "p"); reflexivity.
  - destruct (String.eqb_spec stage_id "prod") as [->|Hne]; [now left|].
    intros H. right. congruence.
  - intros [->| ->]; reflexivity.
  - intros Hne. apply String.eqb_neq in Hne. now rewrite Hne.
Qed.

Lemma calculate_stage_defaults_spec_witness :
  dict_get (calculate_stage_defaults "beta") "RepositoryBranch" = Some "beta".
Proof.
  pose proof (calculate_stage_defaults_spec "beta") as (_ & _ & _ & H).
  apply H. discriminate.
Defined.

(** ** Tags as text *)

(** On tags with string keys and values, [stringify_tags] writes what
    [stringify_parameter_overrides] writes for the same pairs. *)
Lemma stringify_tags_typed (repr_of : json -> string) (tags : list (string * string)) :
  stringify_tags repr_of (map tag_obj tags) = Ok (stringify_parameter_overrides tags).
Proof.
  unfold stringify_tags, stringify_parameter_overrides.
  assert (H : mapM (stringify_tag repr_of) (map tag_obj tags)
              = Ok (map quote_pair tags)).
  { induction tags as [|[k v] tags IH]; [reflexivity|].
    cbn [map mapM]. rewrite IH. reflexivity. }
  now rewrite H.
Qed.

Lemma str_empty_append_r (a b : string) :
  str_empty b = false -> str_empty (a +:+ b) = false.
Proof.
  intros Hb. destruct a as [|c a]; [now rewrite append_nil|].
  now rewrite append_cons.
Qed.

Lemma parse_tag_token_pair (tags : list (string * string)) (t : string * string) :
  tag_round_trips t ->
  parse_tag_token tags (fst t +:+ "=" +:+ snd t) = Ok (tags ++ [t]).
Proof.
  destruct t as [k v].
  intros (((_ & _ & Hk) & Heq & (_ & _ & Hv)) & Hke & Hve & Hkq & Hvq).
  cbn [fst snd] in *. unfold parse_tag_token.
  rewrite (str_empty_append_r k ("=" +:+ v)) by (now rewrite append_cons).
  rewrite (split_first_pair k v Heq), Hk, Hv, Hkq, Hvq, Hke, Hve. reflexivity.
Qed.

Lemma foldM_parse_tag_pairs (ts : list (string * string)) (tags : list (string * string)) :
  Forall tag_round_trips ts ->
  foldM parse_tag_token (map (fun kv => fst kv +:+ "=" +:+ snd kv) ts) tags
  = Ok (tags ++ ts).
Proof.
  intros H. revert tags. induction H as [|t ts Ht _ IH]; intros tags.
  - cbn. now rewrite app_nil_r.
  - cbn [map foldM]. rewrite (parse_tag_token_pair tags t Ht). cbn.
    rewrite IH, <- app_assoc. reflexivity.
Qed.

Lemma stringify_nonempty (t : string * string) (ts : list (string * string)) :
  str_empty (stringify_parameter_overrides (t :: ts)) = false.
Proof.
  unfold stringify_parameter_overrides, join. cbn [map String.concat].
  destruct (map quote_pair ts); unfold quote_pair; reflexivity.
Qed.

(** X6: the tags [save_config] writes read back: for tags whose keys and
    values are not empty, hold no double quote, no backslash and, in the
    key, no equals sign, and have neither white space nor a quote at either
    end, [parse_tags] gives back the list [stringify_tags] was given, in
    order and with its duplicates. *)
Theorem tags_round_trip (repr_of : json -> string) (tags : list (string * string)) :
  Forall tag_round_trips tags ->
  exists text,
    stringify_tags repr_of (map tag_obj tags) = Ok text
    /\ parse_tags text = Ok tags.
Proof.
  intros H. exists (stringify_parameter_overrides tags).
  split; [apply stringify_tags_typed|].
  destruct tags as [|t ts]; [reflexivity|].
  unfold parse_tags. rewrite stringify_nonempty.
  assert (Hrt : Forall round_trips (t :: ts)).
  { eapply Forall_impl; [exact H|]. now intros x [Hx _]. }
  pose proof (shlex_split_stringify (t :: ts) Hrt) as Htok.
  unfold shlex_split in Htok. rewrite Htok. cbn [mbind result_bind].
  now rewrite (foldM_parse_tag_pairs (t :: ts) [] H).
Qed.

Lemma tags_round_trip_witness :
  exists text,
    stringify_tags (fun _ => "") (map tag_obj [("Owner", "Jane Doe"); ("Stage", "test")])
    = Ok text
    /\ parse_tags text = Ok [("Owner", "Jane Doe"); ("Stage", "test")].
Proof.
  apply (tags_round_trip (fun _ => "") [("Owner", "Jane Doe"); ("Stage", "test")]).
  repeat constructor.
Defined.

(** A token that [parse_tags] refuses ends the loop with [ValueError]
    wherever it stands. *)
Lemma foldM_parse_tag_token_raises (tokens : list string) (token : string) :
  In token tokens ->
  (forall tags, exists msg, parse_tag_token tags token = Raise (ValueError msg)) ->
  forall tags, exists msg, foldM parse_tag_token tokens tags = Raise (ValueError msg).
Proof.
  intros Hin Hbad. induction tokens as [|t tokens IH]; [destruct Hin|].
  intros tags. cbn [foldM].
  destruct Hin as [->|Hin].
  - destruct (Hbad tags) as [msg ->]. now exists msg.
  - destruct (parse_tag_token_cases tags t) as [[tags' ->]|[msg ->]].
    + cbn. apply (IH Hin).
    + now exists msg.
Qed.

(** X7: a tag with an empty value does not read back: when the tags
    otherwise read back between double quotes and one of them has an empty
    value, [parse_tags] raises [ValueError] on what [stringify_tags] wrote
    for them, so a samconfig file saved with such a tag is refused when it
    is read again. *)
Theorem tags_empty_value_raises (repr_of : json -> string)
    (tags : list (string * string)) :
  Forall round_trips tags ->
  Exists (fun t => snd t = "") tags ->
  exists text msg,
    stringify_tags repr_of (map tag_obj tags) = Ok text
    /\ parse_tags text = Raise (ValueError msg).
Proof.
  intros Hrt Hex. exists (stringify_parameter_overrides tags).
  destruct tags as [|t ts]; [inversion Hex|].
  unfold parse_tags. rewrite stringify_nonempty.
  pose proof (shlex_split_stringify (t :: ts) Hrt) as Htok.
  unfold shlex_split in Htok. rewrite Htok. cbn [mbind result_bind].
  apply List.Exists_exists in Hex as ([k v] & Hin & Hv). cbn in Hv. subst v.
  destruct (foldM_parse_tag_token_raises
              (map (fun kv => fst kv +:+ "=" +:+ snd kv) (t :: ts))
              (k +:+ "=" +:+ "")) with (tags := @nil (string * string))
    as [msg Hmsg].
  - apply in_map_iff. exists (k, ""). split; [reflexivity|exact Hin].
  - intros tags. unfold parse_tag_token.
    rewrite (str_empty_append_r k ("=" +:+ "")) by reflexivity.
    rewrite List.Forall_forall in Hrt.
    destruct (Hrt _ Hin) as (_ & Heq & _). cbn in Heq.
    rewrite (split_first_pair k "" Heq). cbn [strip lstrip rstrip strip_chars
      lstrip_chars rstrip_chars str_empty].
    rewrite orb_true_r. eauto.
  - exists ("Error parsing tags: " +:+ msg).
    split; [apply stringify_tags_typed|]. now rewrite Hmsg.
Qed.

Lemma tags_empty_value_raises_witness :
  exists text msg,
    stringify_tags (fun _ => "") (map tag_obj [("Owner", "")]) = Ok text
    /\ parse_tags text = Raise (ValueError msg).
Proof.
  apply (tags_empty_value_raises (fun _ => "") [("Owner", "")]).
  - repeat constructor.
  - constructor. reflexivity.
Defined.

(** ** Automated tags *)

Lemma bind_inv {A B : Type} (m : result A) (k : A -> result B) (r : result B) :
  (x ← m; k x) = r ->
  (exists e, m = Raise e /\ r = Raise e) \/ (exists a, m = Ok a /\ k a = r).
Proof. destruct m as [a|e]; cbn; intros <-; eauto. Qed.

(** The cases of one block [if parameters.get(k): tags.append(...)], read
    off the equation [H] that gives its outcome. *)
Ltac block_cases parameters H :=
  unfold param_item in H;
  repeat first
    [ match type of H with
      | context [if truthy (dict_get parameters ?k) then _ else _] =>
          let T := fresh "T" in
          destruct (truthy (dict_get parameters k)) eqn:T
      end
    | match type of H with
      | context [match dict_get parameters ?k with Some _ => _ | None => _ end] =>
          let E := fresh "E" in
          destruct (dict_get parameters k) eqn:E
      end
    | progress cbn [mbind result_bind] in H ];
  try discriminate H;
  try match goal with
      | T : truthy None = true |- _ => discriminate T
      end.

(** X8: [generate_automated_tags] returns exactly when every parameter it
    subscripts is there: [Prefix] when [ProjectId] is set, [Prefix] and
    [ProjectId] when [StageId] is set, [CodeCommitRepository] when
    [Repository] is set and [CodeCommitBranch] when [RepositoryBranch] is
    set; otherwise it raises [KeyError]. *)
Theorem generate_automated_tags_defined (self : ConfigManager) (info : template_info)
    (parameters : list (string * string)) :
  match generate_automated_tags self info parameters with
  | Ok _ => automated_tags_defined parameters
  | Raise e => ~ automated_tags_defined parameters /\ exists key, e = KeyError key
  end.
Proof.
  destruct (generate_automated_tags self info parameters) as [tags|e] eqn:H;
    unfold generate_automated_tags in H.
  - apply bind_inv in H as [(e & _ & H)|(t1 & H1 & H)]; [discriminate H|].
    apply bind_inv in H as [(e & _ & H)|(t2 & H2 & H)]; [discriminate H|].
    apply bind_inv in H as [(e & _ & H)|(t3 & _ & H)]; [discriminate H|].
    apply bind_inv in H as [(e & _ & H)|(t4 & _ & H)]; [discriminate H|].
    apply bind_inv in H as [(e & _ & H)|(t5 & H5 & H)]; [discriminate H|].
    apply bind_inv in H as [(e & _ & H)|(t6 & H6 & H)]; [discriminate H|].
    clear H. unfold automated_tags_defined, dict_mem.
    split; [|split; [|split]].
    + clear H2 H5 H6. block_cases parameters H1; congruence.
    + clear H1 H5 H6. block_cases parameters H2; try congruence.
      all: intros _; split; reflexivity.
    + clear H1 H2 H6. block_cases parameters H5; congruence.
    + clear H1 H2 H5. block_cases parameters H6; congruence.
  - unfold automated_tags_defined, dict_mem.
    apply bind_inv in H as [(e1 & H1 & [= ->])|(t1 & _ & H)].
    { block_cases parameters H1; injection H1 as <-; (split; [|eauto]);
        intros (HA & _); specialize (HA eq_refl); discriminate HA. }
    apply bind_inv in H as [(e2 & H2 & [= ->])|(t2 & _ & H)].
    { block_cases parameters H2; injection H2 as <-; (split; [|eauto]);
        intros (_ & HB & _); destruct (HB eq_refl) as [HB1 HB2]; discriminate. }
    apply bind_inv in H as [(e3 & H3 & [= ->])|(t3 & _ & H)].
    { now block_cases parameters H3. }
    apply bind_inv in H as [(e4 & H4 & [= ->])|(t4 & _ & H)].
    { now block_cases parameters H4. }
    apply bind_inv in H as [(e5 & H5 & [= ->])|(t5 & _ & H)].
    { block_cases parameters H5; injection H5 as <-; (split; [|eauto]);
        intros (_ & _ & HC & _); specialize (HC eq_refl); discriminate HC. }
    apply bind_inv in H as [(e6 & H6 & [= ->])|(t6 & _ & H)].
    { block_cases parameters H6; injection H6 as <-; (split; [|eauto]);
        intros (_ & _ & _ & HD); specialize (HD eq_refl); discriminate HD. }
    discriminate H.
Qed.

Ltac block_entries parameters H :=
  unfold fixed_entries, application_entries, stage_entries, environment_entries,
    alarm_entries,
    repository_entries, branch_entries, when_set, item, dict_get_default;
  block_cases parameters H; injection H as <-;
  rewrite ?app_nil_r; reflexivity.

(** What [generate_automated_tags] returns, as pairs. *)
Lemma generate_automated_tags_entries (self : ConfigManager) (info : template_info)
    (parameters : list (string * string)) (automated : list json) :
  generate_automated_tags self info parameters = Ok automated ->
  automated = tag_objects (automated_entries self info parameters).
Proof.
  unfold generate_automated_tags. intros H.
  apply bind_inv in H as [(e & _ & H)|(t1 & H1 & H)]; [discriminate H|].
  apply bind_inv in H as [(e & _ & H)|(t2 & H2 & H)]; [discriminate H|].
  apply bind_inv in H as [(e & _ & H)|(t3 & H3 & H)]; [discriminate H|].
  apply bind_inv in H as [(e & _ & H)|(t4 & H4 & H)]; [discriminate H|].
  apply bind_inv in H as [(e & _ & H)|(t5 & H5 & H)]; [discriminate H|].
  apply bind_inv in H as [(e & _ & H)|(t6 & H6 & H)]; [discriminate H|].
  injection H as <-.
  assert (F1 : t1 = tag_objects (fixed_entries self info parameters)
                    ++ tag_objects (application_entries parameters))
    by (clear - H1; block_entries parameters H1).
  assert (F2 : t2 = t1 ++ tag_objects (stage_entries parameters))
    by (clear - H2; block_entries parameters H2).
  assert (F3 : t3 = t2 ++ tag_objects (environment_entries parameters))
    by (clear - H3; block_entries parameters H3).
  assert (F4 : t4 = t3 ++ tag_objects (alarm_entries parameters))
    by (clear - H4; block_entries parameters H4).
  assert (F5 : t5 = t4 ++ tag_objects (repository_entries parameters))
    by (clear - H5; block_entries parameters H5).
  assert (F6 : t6 = t5 ++ tag_objects (branch_entries parameters))
    by (clear - H6; block_entries parameters H6).
  subst. unfold automated_entries, tag_objects.
  rewrite !map_app, <- !app_assoc. reflexivity.
Qed.

Lemma automated_entries_NoDup (self : ConfigManager) (info : template_info)
    (parameters : list (string * string)) :
  List.NoDup (map fst (automated_entries self info parameters)).
Proof.
  unfold automated_entries, fixed_entries, application_entries, stage_entries,
    environment_entries, alarm_entries, repository_entries, branch_entries, when_set.
  destruct (truthy (dict_get parameters "ProjectId")),
    (truthy (dict_get parameters "StageId")),
    (truthy (dict_get parameters "DeployEnvironment")),
    (truthy (dict_get parameters "AlarmNotificationEmail")),
    (truthy (dict_get parameters "Repository")),
    (truthy (dict_get parameters "RepositoryBranch"));
    cbn [map fst app]; apply NoDup_ListNoDup; refine (bool_decide_unpack _ _);
    vm_compute; exact I.
Qed.

(** X9: custom tags never change an automated tag whose key begins with
    [atlantis:] or [Atlantis], and replace any other: when the automated
    tags are defined, [generate_tags] returns tags in which a protected key
    has its automated value (a custom one only if no automated tag has the
    key) and any other key the last custom value given for it, if there is
    one.  So the tag [Atlantis] always names the infrastructure type. *)
Theorem generate_tags_protected (self : ConfigManager) (info : template_info)
    (parameters : list (string * string)) (automated : list json)
    (custom : list (string * json)) :
  generate_automated_tags self info parameters = Ok automated ->
  exists tag_dict,
    generate_tags self info parameters (tag_objects custom) = Ok (map tag_of tag_dict)
    /\ tag_dict_get tag_dict (JStr "Atlantis")
       = Some (JStr (infra_type self +:+ "-infrastructure"))
    /\ forall key,
         tag_dict_get tag_dict (JStr key)
         = if protected key then
             match dict_get (automated_entries self info parameters) key with
             | Some v => Some v
             | None => assoc_first custom key
             end
           else
             match assoc_last custom key with
             | Some v => Some v
             | None => dict_get (automated_entries self info parameters) key
             end.
Proof.
  intros Hgat. pose proof (generate_automated_tags_entries _ _ _ _ Hgat) as ->.
  unfold generate_tags. rewrite Hgat. cbn [mbind result_bind].
  unfold merge_tags, tag_objects.
  rewrite (foldM_tag_dict_add_tag_of
             (map tag_entry (automated_entries self info parameters)) [])
    by (apply tag_dict_ok_entries, automated_entries_NoDup).
  cbn [mbind result_bind app]. rewrite foldM_merge_step_entries.
  cbn [mbind result_bind].
  assert (Hget : forall key,
            tag_dict_get
              (fold_left merge_entry custom
                 (map tag_entry (automated_entries self info parameters)))
              (JStr key)
            = if protected key then
                match dict_get (automated_entries self info parameters) key with
                | Some v => Some v
                | None => assoc_first custom key
                end
              else
                match assoc_last custom key with
                | Some v => Some v
                | None => dict_get (automated_entries self info parameters) key
                end).
  { intros key. now rewrite tag_dict_get_fold_merge, tag_dict_get_entries. }
  eexists. split; [reflexivity|]. split; [|exact Hget].
  rewrite Hget. reflexivity.
Qed.

Lemma generate_tags_protected_witness :
  exists tag_dict,
    generate_tags example_manager example_template example_parameters
      (tag_objects [("Atlantis", JStr "mine"); ("Provisioner", JStr "Terraform")])
    = Ok (map tag_of tag_dict)
    /\ tag_dict_get tag_dict (JStr "Atlantis") = Some (JStr "pipeline-infrastructure")
    /\ tag_dict_get tag_dict (JStr "Provisioner") = Some (JStr "Terraform").
Proof.
  destruct (generate_tags_protected example_manager example_template
              example_parameters _
              [("Atlantis", JStr "mine"); ("Provisioner", JStr "Terraform")] eq_refl)
    as (tag_dict & H1 & H2 & H3).
  exists tag_dict. split; [exact H1|]. split; [exact H2|].
  rewrite H3. reflexivity.
Defined.

(** ** Further properties of the core *)

(** *** The differ *)

Lemma opt_eqb_refl (v : option cfg_value) : opt_eqb v v = true.
Proof.
  destruct v as [[s|b]|]; cbn; [apply String.eqb_refl|apply Bool.eqb_reflx|reflexivity].
Qed.



(** *** The stage order *)

Lemma by_class_perm (stages : list string) : Permutation stages (by_class stages).
Proof.
  unfold by_class. induction stages as [|x l IH]; [constructor|].
  cbn [List.filter]. pose proof (stage_class_le x) as Hle.
  assert (Hx : forall c, in_class c x = Nat.eqb (stage_class x) c) by reflexivity.
  rewrite !Hx.
  destruct (stage_class x) as [|[|[|[|[|[|n]]]]]]; cbn [Nat.eqb app]; try lia.
  - now constructor.
  - now apply Permutation_cons_app.
  - rewrite !app_assoc. apply Permutation_cons_app. now rewrite <- !app_assoc.
  - rewrite !app_assoc. apply Permutation_cons_app. now rewrite <- !app_assoc.
  - rewrite !app_assoc. apply Permutation_cons_app. now rewrite <- !app_assoc.
  - rewrite !app_assoc. apply Permutation_cons_app. now rewrite <- !app_assoc.
Qed.

(** X11: [save_config] loses no deployment: the order it writes the
    stages in is a permutation of the stages of the configuration; and the
    sort fails, with [IndexError] at [x[0]], exactly when a stage
    identifier is empty. *)
Theorem save_config_stage_order_permutation (stages : list string) :
  match save_config_stage_order stages with
  | Ok order => Permutation stages order /\ ~ In "" stages
  | Raise e => e = IndexError /\ In "" stages
  end.
Proof.
  rewrite save_config_stage_order_by_class.
  destruct (forallb (fun x => negb (str_empty x)) stages) eqn:H.
  - split; [apply by_class_perm|].
    rewrite forallb_forall in H. intros Hin. now apply H in Hin.
  - split; [reflexivity|].
    induction stages as [|x l IH]; [discriminate H|].
    cbn [forallb] in H. destruct x as [|c x]; [now left|].
    right. apply IH. exact H.
Qed.

(** *** The keys of a merge *)

Lemma dict_mem_existsb {V : Type} (d : list (string * V)) (k : string) :
  dict_mem k d = existsb (String.eqb k) (map fst d).
Proof.
  unfold dict_mem. induction d as [|[k0 v0] d IH]; [reflexivity|].
  cbn [dict_get map fst existsb]. rewrite (String.eqb_sym k k0).
  destruct (String.eqb k0 k); [reflexivity|exact IH].
Qed.

Lemma dict_set_add_key {V : Type} (d : list (string * V)) (k : string) (v : V) :
  map fst (dict_set d k v) = add_key (map fst d) k.
Proof.
  unfold add_key. rewrite <- dict_mem_existsb.
  unfold dict_mem. induction d as [|[k0 v0] d IH]; [reflexivity|].
  cbn [dict_set dict_get map fst]. destruct (String.eqb k0 k); [reflexivity|].
  cbn [map fst]. rewrite IH. now destruct (dict_get d k).
Qed.

Lemma merge_pair_add_key (d : list (string * string)) (t : string * string) :
  map fst (merge_pair d t) = add_key (map fst d) (fst t).
Proof.
  unfold merge_pair. destruct (dict_mem (fst t) d && protected (fst t)) eqn:H;
    [|apply dict_set_add_key].
  apply andb_true_iff in H as [H _]. unfold add_key.
  now rewrite <- dict_mem_existsb, H.
Qed.

(** X12: [merge_tags] returns one tag for each key, in the order in which
    the keys first appear in [original_tags] followed by [new_tags]: no key
    is lost, none is repeated, and a key of [original_tags] keeps its
    place whichever value it ends with. *)
Theorem merge_tags_keys (base overlay : list (string * string)) :
  exists merged,
    merge_tags (map tag_obj base) (map tag_obj overlay) = Ok (map tag_obj merged)
    /\ map fst merged = first_occurrences (map fst base ++ map fst overlay)
    /\ List.NoDup (map fst merged).
Proof.
  exists (merge_pairs base overlay).
  split; [apply merge_tags_typed|]. split; [|apply merge_pairs_NoDup].
  unfold merge_pairs, first_occurrences. rewrite fold_left_app.
  assert (H1 : forall (l d : list (string * string)),
            map fst (fold_left (fun d t => dict_set d (fst t) (snd t)) l d)
            = fold_left add_key (map fst l) (map fst d)).
  { induction l as [|t l IH]; intros d; [reflexivity|].
    cbn [fold_left map]. now rewrite IH, dict_set_add_key. }
  assert (H2 : forall (l d : list (string * string)),
            map fst (fold_left merge_pair l d)
            = fold_left add_key (map fst l) (map fst d)).
  { induction l as [|t l IH]; intros d; [reflexivity|].
    cbn [fold_left map]. now rewrite IH, merge_pair_add_key. }
  now rewrite H2, H1.
Qed.

(** *** The keys of the defaults *)

Lemma add_key_prefix (keys : list string) (k : string) :
  exists new, add_key keys k = keys ++ new.
Proof.
  unfold add_key. destruct (existsb (String.eqb k) keys).
  - exists []. now rewrite app_nil_r.
  - now exists [k].
Qed.

Lemma add_key_present {V : Type} (d : list (string * V)) (k : string) (v : V) :
  dict_get d k = Some v -> add_key (map fst d) k = map fst d.
Proof.
  intros H. unfold add_key. rewrite <- dict_mem_existsb. unfold dict_mem.
  now rewrite H.
Qed.

Lemma update_items_keys (items original : list (string * json)) :
  (exists new,
     map fst (fst (update_items original items)) = map fst original ++ new)
  /\ (snd (update_items original items) = None ->
      map fst (fst (update_items original items))
      = fold_left add_key (map fst items) (map fst original)).
Proof.
  revert original. induction items as [|[key value] items IH]; intros original.
  - cbn. split; [exists []; now rewrite app_nil_r|reflexivity].
  - assert (Hset : forall v,
              (exists new,
                 map fst (fst (update_items (dict_set original key v) items))
                 = map fst original ++ new)
              /\ (snd (update_items (dict_set original key v) items) = None ->
                  map fst (fst (update_items (dict_set original key v) items))
                  = fold_left add_key (map fst items) (add_key (map fst original) key))).
    { intros v. destruct (IH (dict_set original key v)) as [[new Hnew] Heq].
      rewrite dict_set_add_key in Hnew, Heq. split; [|exact Heq].
      destruct (add_key_prefix (map fst original) key) as [new' Hk].
      exists (new' ++ new). now rewrite Hnew, Hk, app_assoc. }
    assert (Hstop : forall e : exn,
              (exists new, map fst original = map fst original ++ new)
              /\ (Some e = None ->
                  map fst original
                  = fold_left add_key (map fst items) (add_key (map fst original) key))).
    { intros e. split; [exists []; now rewrite app_nil_r|discriminate]. }
    cbn [update_items map fst fold_left].
    destruct (dict_get original key) as [[| | | |old|child]|] eqn:Hget;
      try apply Hset; destruct value as [| | | |new|dv]; try apply Hset.
    + destruct (merge_tags old new) as [merged|e]; [apply Hset|apply Hstop].
    + destruct (deep_update child (JDict dv)) as [child' [e|]]; [|apply Hset].
      cbn [fst snd]. rewrite dict_set_add_key, (add_key_present _ _ _ Hget).
      split; [exists []; now rewrite app_nil_r|discriminate].
Qed.

(** X13: [deep_update] never removes or moves a key of [original]: the
    keys of the result are the keys of [original], in their order,
    followed by new ones; and when the call does not raise, the new ones
    are the keys of [update] that [original] did not have, in the order of
    [update]. *)
Theorem deep_update_keeps_keys (original : list (string * json)) (update : json) :
  (exists new,
     map fst (fst (deep_update original update)) = map fst original ++ new)
  /\ (forall items,
        update = JDict items -> snd (deep_update original update) = None ->
        map fst (fst (deep_update original update))
        = fold_left add_key (map fst items) (map fst original)).
Proof.
  destruct update as [| | | | |items];
    try (split; [exists []; cbn; now rewrite app_nil_r|discriminate]).
  rewrite deep_update_items.
  destruct (update_items_keys items original) as [Hnew Heq].
  split; [exact Hnew|]. intros items' [= <-]. exact Heq.
Qed.

Lemma deep_update_keeps_keys_witness :
  map fst (fst (deep_update example_original example_update))
  = ["atlantis"; "tags"; "parameter_overrides"].
Proof.
  pose proof (deep_update_keeps_keys example_original example_update) as [_ H].
  rewrite (H _ eq_refl eq_refl). reflexivity.
Defined.

(** *** The defaults resolver in the store *)

Lemma run_in_store_refines_witness :
  fst (fst (run_in_store 8 example_original example_update))
  = Ok (snd (Store.alloc (JDict example_original) [])).
Proof.
  rewrite (run_in_store_refines example_original example_update 8);
    [reflexivity|vm_compute; lia|vm_compute; lia].
Defined.

(** ** Template files *)

Lemma split_chr_nonempty (sep : ascii) (s : string) : split_chr sep s <> [].
Proof.
  intros H. pose proof (split_chr_length sep s) as Hlen. rewrite H in Hlen.
  discriminate Hlen.
Qed.

Lemma last_cons {A : Type} (x : A) (l : list A) (d : A) :
  l <> [] -> List.last (x :: l) d = List.last l d.
Proof. destruct l; [congruence|reflexivity]. Qed.

(** A field before a separator is not the last field. *)
Lemma split_chr_last_app (sep : ascii) (a f : string) :
  List.last (split_chr sep (a +:+ String sep f)) "" = List.last (split_chr sep f) "".
Proof.
  induction a as [|c a IH].
  - rewrite append_nil. cbn [split_chr]. rewrite Ascii.eqb_refl.
    apply last_cons, split_chr_nonempty.
  - rewrite append_cons. cbn [split_chr]. destruct (Ascii.eqb c sep).
    + rewrite last_cons by apply split_chr_nonempty. exact IH.
    + pose proof (split_chr_length sep (a +:+ String sep f)) as Hlen.
      rewrite list_ascii_app, List.filter_app in Hlen.
      cbn [list_ascii_of_string List.filter] in Hlen.
      rewrite Ascii.eqb_refl, length_app in Hlen. cbn [length] in Hlen.
      destruct (split_chr sep (a +:+ String sep f)) as [|f0 [|f1 fs]];
        cbn [length] in Hlen; try lia.
      exact IH.
Qed.

Lemma split_chr_no_sep (sep : ascii) (f : string) :
  has_char sep f = false -> split_chr sep f = [f].
Proof.
  induction f as [|c f IH]; [reflexivity|].
  cbn [has_char split_chr]. intros H. apply orb_false_iff in H as [Hc Hf].
  now rewrite Hc, (IH Hf).
Qed.

Lemma split_chr_last_no_sep (sep : ascii) (f : string) :
  has_char sep (List.last (split_chr sep f) "") = false.
Proof.
  induction f as [|c f IH]; [reflexivity|].
  cbn [split_chr]. destruct (Ascii.eqb c sep) eqn:Hc.
  - now rewrite last_cons by apply split_chr_nonempty.
  - destruct (split_chr sep f) as [|f0 [|f1 fs]] eqn:Hs.
    + now apply split_chr_nonempty in Hs.
    + cbn [List.last has_char] in *. now rewrite Hc, IH.
    + exact IH.
Qed.

Lemma startswith_s3_nonempty (f : string) :
  startswith "s3://" f = true -> str_empty f = false.
Proof. now destruct f. Qed.

(** X15: the name of a template survives being stored exactly when it is
    an [s3://] address or a file name without a slash: only then does
    [main] recover it from what [build_config] stores, and from what
    [get_stack_config] rebuilds out of the stack's tag.  Of a local
    template in a subdirectory only the last component comes back. *)
Theorem template_file_round_trip (templates_dir template_file : string) :
  (selected_template_file (config_template_file templates_dir template_file)
   = template_file
   <-> startswith "s3://" template_file = true \/ has_char "/" template_file = false)
  /\ (selected_template_file (stack_template_file template_file) = template_file
      <-> startswith "s3://" template_file = true \/ has_char "/" template_file = false).
Proof.
  unfold config_template_file, stack_template_file, selected_template_file.
  destruct (startswith "s3://" template_file) eqn:Hs3; cbn [negb].
  - rewrite Hs3, (startswith_s3_nonempty _ Hs3). cbn [negb andb].
    split; (split; [now left|reflexivity]).
  - assert (Hlocal : forall a : string,
              List.last (split_chr "/" (a +:+ "/" +:+ template_file)) ""
              = template_file
              <-> has_char "/" template_file = false).
    { intros a. rewrite append_cons, append_nil, split_chr_last_app. split.
      - intros <-. apply split_chr_last_no_sep.
      - intros H. now rewrite (split_chr_no_sep _ _ H). }
    assert (Hlit : forall (p : string) (x : string),
              p = "../../" \/ p = "./templates/" ->
              negb (str_empty (p +:+ x)) && startswith "s3://" (p +:+ x) = false).
    { intros p x [->| ->]; reflexivity. }
    split.
    + rewrite Hlit by now left.
      rewrite <- (append_assoc "../../" templates_dir).
      rewrite (Hlocal ("../../" +:+ templates_dir)). split; [now right|].
      now intros [H|H].
    + rewrite Hlit by now right.
      change ("./templates/" +:+ template_file)
        with ("./templates" +:+ "/" +:+ template_file).
      rewrite (Hlocal "./templates"). split; [now right|].
      now intros [H|H].
Qed.

Lemma template_file_round_trip_witness :
  selected_template_file
    (config_template_file "local-templates/pipeline" "template-pipeline.yml")
  = "template-pipeline.yml"
  /\ selected_template_file
       (config_template_file "local-templates/pipeline" "v2/template-pipeline.yml")
     <> "v2/template-pipeline.yml".
Proof.
  split.
  - apply (template_file_round_trip "local-templates/pipeline" "template-pipeline.yml").
    right. reflexivity.
  - intros H.
    apply (template_file_round_trip "local-templates/pipeline" "v2/template-pipeline.yml")
      in H.
    destruct H as [H|H]; discriminate H.
Defined.

(** ** The deployed stack *)

Lemma assoc_last_map {A B : Type} (g : A -> B) (l : list (string * A)) (k : string) :
  assoc_last (map (fun t => (fst t, g (snd t))) l) k = option_map g (assoc_last l k).
Proof.
  induction l as [|[k0 v0] l IH]; [reflexivity|].
  cbn [map assoc_last fst snd]. rewrite IH.
  destruct (assoc_last l k); [reflexivity|]. now destruct (String.eqb k0 k).
Qed.

Lemma fold_set_map {A B : Type} (g : A -> B) (l : list (string * A))
    (d : list (string * B)) :
  fold_left (fun d t => dict_set d (fst t) (g (snd t))) l d
  = fold_left (fun d t => dict_set d (fst t) (snd t))
      (map (fun t => (fst t, g (snd t))) l) d.
Proof.
  revert d. induction l as [|t l IH]; intros d; [reflexivity|].
  cbn [fold_left map fst snd]. apply IH.
Qed.

(** The loop over the tags that looks for the template. *)
Lemma template_tag_fold (stack_tags : list (string * string))
    (a : list (string * cfg_value)) (k : string) :
  dict_get
    (fold_left
       (fun a tag =>
          if String.eqb (fst tag) "atlantis:TemplateFile"
          then dict_set a "template_file" (VStr (stack_template_file (snd tag)))
          else a)
       stack_tags a) k
  = if String.eqb "template_file" k
    then match assoc_last stack_tags "atlantis:TemplateFile" with
         | Some v => Some (VStr (stack_template_file v))
         | None => dict_get a k
         end
    else dict_get a k.
Proof.
  revert a. induction stack_tags as [|[k0 v0] l IH]; intros a.
  - cbn [fold_left assoc_last]. now destruct (String.eqb "template_file" k).
  - cbn [fold_left assoc_last fst snd]. rewrite IH.
    destruct (String.eqb "template_file" k) eqn:Hk; [|
      destruct (String.eqb k0 "atlantis:TemplateFile"); [|reflexivity];
      now rewrite dict_get_set, Hk].
    destruct (assoc_last l "atlantis:TemplateFile"); [reflexivity|].
    destruct (String.eqb k0 "atlantis:TemplateFile"); [|reflexivity].
    now rewrite dict_get_set, Hk.
Qed.

(** The template in what [get_stack_config] returns. *)
Lemma get_stack_config_template_file (stage : string) (s : stack) (cfg : config) :
  get_stack_config stage s = Returned cfg ->
  dict_get (atlantis cfg) "template_file"
  = option_map (fun v => VStr (stack_template_file v))
      (assoc_last (Tags s) "atlantis:TemplateFile").
Proof.
  unfold get_stack_config.
  destruct (nth_error (split_chr ":" (StackId s)) 3) as [region|]; [|discriminate].
  intros [= <-]. cbn [atlantis]. rewrite template_tag_fold.
  cbn [String.eqb Ascii.eqb Bool.eqb].
  now destruct (assoc_last (Tags s) "atlantis:TemplateFile").
Qed.

(** X16: [get_stack_config] returns exactly when the stack identifier has
    at least three colons, and leaves with status 1 otherwise.  What it
    returns has the fourth field of the identifier as region, the template
    of the last tag [atlantis:TemplateFile] (none without such a tag) as
    [template_file], and for the stage each parameter and each tag with the
    last value the stack gives it. *)
Theorem get_stack_config_spec (stage : string) (s : stack) :
  match get_stack_config stage s with
  | Returned cfg =>
      3 <= length (List.filter (Ascii.eqb ":") (list_ascii_of_string (StackId s)))
      /\ option_map VStr (nth_error (split_chr ":" (StackId s)) 3)
         = dict_get (atlantis cfg) "region"
      /\ dict_get (atlantis cfg) "template_file"
         = option_map (fun v => VStr (stack_template_file v))
             (assoc_last (Tags s) "atlantis:TemplateFile")
      /\ (forall k,
            dict_get (parameter_overrides (stage_parameters stage cfg)) k
            = option_map VStr (assoc_last (Parameters s) k))
      /\ (forall k,
            dict_get (tags_dict (tags (stage_parameters stage cfg))) k
            = option_map VStr (assoc_last (Tags s) k))
  | Exited status =>
      status = 1%Z
      /\ length (List.filter (Ascii.eqb ":") (list_ascii_of_string (StackId s))) < 3
  | _ => False
  end.
Proof.
  unfold get_stack_config.
  pose proof (split_chr_length ":" (StackId s)) as Hlen.
  destruct (nth_error (split_chr ":" (StackId s)) 3) as [region|] eqn:Hnth.
  - assert (Hlt : 3 < length (split_chr ":" (StackId s)))
      by (apply nth_error_Some; congruence).
    split; [lia|].
    unfold stage_parameters. cbn [atlantis deployments dict_get].
    rewrite String.eqb_refl. cbn [parameter_overrides tags].
    rewrite !template_tag_fold. cbn [String.eqb Ascii.eqb Bool.eqb].
    split; [reflexivity|]. split.
    + now destruct (assoc_last (Tags s) "atlantis:TemplateFile").
    + split; intros k.
      * rewrite (fold_set_map VStr), dict_get_fold_set, assoc_last_map.
        now destruct (assoc_last (Parameters s) k).
      * unfold tags_dict. rewrite dict_get_fold_set, assoc_last_map.
        now destruct (assoc_last (Tags s) k).
  - split; [reflexivity|]. apply nth_error_None in Hnth. lia.
Qed.

(** X17: a configuration built for a local template never compares equal
    to the deployed stack: [build_config] stores the template below
    [../../], [get_stack_config] rebuilds it below [./templates/] (or finds
    no tag, or an [s3://] address), so [compare_configurations] sets
    [differences] whatever else the two hold. *)
Theorem compare_configurations_local_template (stage templates_dir template_file : string)
    (s : stack) (local_config stack_config : config) :
  startswith "s3://" template_file = false ->
  dict_get (atlantis local_config) "template_file"
  = Some (VStr (config_template_file templates_dir template_file)) ->
  get_stack_config stage s = Returned stack_config ->
  fst (compare_configurations stage local_config stack_config) = true.
Proof.
  intros Hs3 Hlocal Hstack.
  pose proof (get_stack_config_template_file _ _ _ Hstack) as Htpl.
  unfold compare_configurations. rewrite !compare_domain_differences.
  left. right. exists "template_file". split.
  - left. apply dict_get_keys. rewrite Hlocal. discriminate.
  - unfold copy_non_essentials. rewrite !copy_key_get. cbn [String.eqb Ascii.eqb Bool.eqb].
    rewrite Hlocal, Htpl. unfold config_template_file, stack_template_file.
    rewrite Hs3. cbn [negb].
    destruct (assoc_last (Tags s) "atlantis:TemplateFile") as [v|]; [|discriminate].
    cbn [option_map]. destruct (startswith "s3://" v) eqn:Hv; cbn [negb].
    + destruct v as [|c v]; [discriminate Hv|].
      rewrite append_cons. intros [= <-]. discriminate Hv.
    + rewrite !append_cons. discriminate.
Qed.

Lemma compare_configurations_local_template_witness :
  exists stack_config,
    get_stack_config "test" example_stack = Returned stack_config
    /\ fst (compare_configurations "test" example_local stack_config) = true.
Proof.
  eexists. split; [reflexivity|].
  apply (compare_configurations_local_template "test" "local-templates/pipeline"
           "template-pipeline.yml" example_stack); reflexivity.
Defined.

(** ** The samconfig file *)

Lemma dict_set_twice {V : Type} (d : list (string * V)) (k : string) (a b : V) :
  dict_set (dict_set d k a) k b = dict_set d k b.
Proof.
  induction d as [|[k0 v0] d IH]; cbn [dict_set].
  - now rewrite String.eqb_refl.
  - destruct (String.eqb k0 k) eqn:E; cbn [dict_set]; rewrite E;
      [reflexivity|now rewrite IH].
Qed.


Lemma section_deploy_parameters_with (s d p : list (string * json)) :
  section_deploy_parameters (with_parameters s d p) = Ok (JDict p).
Proof.
  unfold section_deploy_parameters, with_parameters, dict_get_default.
  now rewrite !dict_get_set_eq.
Qed.

Lemma set_deploy_parameter_with (s d p : list (string * json)) (name : string)
    (v : json) :
  set_deploy_parameter (with_parameters s d p) name v
  = Ok (with_parameters s d (dict_set p name v)).
Proof.
  unfold set_deploy_parameter, with_parameters, getitem.
  rewrite dict_get_set_eq. cbn [mbind result_bind].
  rewrite dict_get_set_eq. cbn [mbind result_bind].
  now rewrite !dict_set_twice.
Qed.

Lemma with_parameters_same (s d p : list (string * json)) :
  dict_get s "deploy" = Some (JDict d) ->
  dict_get d "parameters" = Some (JDict p) ->
  with_parameters s d p = s.
Proof.
  intros Hd Hp. unfold with_parameters.
  now rewrite (dict_set_same d "parameters" _ Hp), (dict_set_same s "deploy" _ Hd).
Qed.

(** What [read_samconfig] makes of a section whose deploy parameters are
    a table. *)
Lemma read_section_with (s d p : list (string * json)) :
  read_section (with_parameters s d p)
  = let p1 :=
      match nonempty_str (dict_get_default p "parameter_overrides" (JStr "")) with
      | Some text =>
          dict_set p "parameter_overrides"
            (parameters_json (fst (parse_parameter_overrides text)))
      | None => p
      end in
    match nonempty_str (dict_get_default p "tags" (JStr "")) with
    | Some text =>
        tags ← parse_tags text;
        Ok (Some (with_parameters s d (dict_set p1 "tags" (tags_json tags))))
    | None => Ok (Some (with_parameters s d p1))
    end.
Proof.
  unfold read_section. rewrite section_deploy_parameters_with.
  cbn [mbind result_bind].
  destruct (nonempty_str (dict_get_default p "parameter_overrides" (JStr "")));
    [rewrite set_deploy_parameter_with|]; cbn [mbind result_bind];
    (destruct (nonempty_str (dict_get_default p "tags" (JStr ""))) as [text|];
     [|reflexivity]);
    (destruct (parse_tags text) as [tags|e]; cbn [mbind result_bind]; [|reflexivity]);
    now rewrite set_deploy_parameter_with.
Qed.







(** *** What makes [read_samconfig] give up *)

Lemma read_tokens_error_kind (input : string) :
  forall state quoted token e,
    read_tokens state quoted token input = Raise e -> exists msg, e = ValueError msg.
Proof.
  induction input as [|c rest IH]; intros state quoted token e; cbn [read_tokens].
  - destruct state; try (intros [= <-]; eauto);
      destruct (negb (str_empty token) || quoted); discriminate.
  - destruct state;
      repeat match goal with
             | |- context [if ?b then _ else _] => destruct b
             end;
      try apply IH;
      intros H; apply bind_inv in H as [(e' & H1 & [= ->])|(a & _ & H)];
      try discriminate H; apply (IH _ _ _ _ H1).
Qed.

Lemma foldM_parse_tag_token_error_kind (tokens : list string) :
  forall tags e,
    foldM parse_tag_token tokens tags = Raise e -> exists msg, e = ValueError msg.
Proof.
  induction tokens as [|t tokens IH]; intros tags e; cbn [foldM]; [discriminate|].
  destruct (parse_tag_token_cases tags t) as [[tags' ->]|[msg ->]];
    cbn [mbind result_bind]; [apply IH|intros [= <-]; eauto].
Qed.

(** [parse_tags] raises nothing but [ValueError]. *)
Lemma parse_tags_error_kind (text : string) (e : exn) :
  parse_tags text = Raise e -> exists msg, e = ValueError msg.
Proof.
  unfold parse_tags. destruct (str_empty text); [discriminate|].
  destruct (tokens ← read_tokens InSpace false "" text; foldM parse_tag_token tokens [])
    as [tags|e'] eqn:H; [discriminate|].
  apply bind_inv in H as [(e1 & H1 & [= ->])|(toks & _ & H)].
  - apply read_tokens_error_kind in H1 as [msg ->]. intros [= <-]. eauto.
  - apply foldM_parse_tag_token_error_kind in H as [msg ->]. intros [= <-]. eauto.
Qed.

Lemma dict_get_default_some {V : Type} (d : list (string * V)) (k : string)
    (v default : V) :
  dict_get d k = Some v -> dict_get_default d k default = v.
Proof. unfold dict_get_default. now intros ->. Qed.

Lemma nonempty_str_get (p : list (string * json)) (name text : string) :
  nonempty_str (dict_get_default p name (JStr "")) = Some text ->
  dict_get p name = Some (JStr text).
Proof.
  unfold dict_get_default, nonempty_str.
  destruct (dict_get p name) as [[| | |s| |]|]; try discriminate.
  destruct (str_empty s); [discriminate|]. now intros [= ->].
Qed.

(** The handler of the loop lets through exactly what [parse_tags]
    raises. *)
Lemma read_section_guarded_raises (value : list (string * json)) (e : exn) :
  read_section_guarded value = Raise e <-> refused_tags value e.
Proof.
  unfold refused_tags. split.
  - unfold read_section_guarded.
    destruct (dict_get value "deploy") as [deploy|] eqn:Hd.
    2:{ unfold read_section, section_deploy_parameters, dict_get_default.
        rewrite Hd. cbn. discriminate. }
    destruct (is_jdict deploy) eqn:Hjd.
    2:{ unfold read_section, section_deploy_parameters, dict_get_default.
        rewrite Hd. destruct deploy; try discriminate Hjd; cbn; discriminate. }
    destruct deploy as [| | | | |deploy]; try discriminate Hjd. clear Hjd.
    destruct (dict_get deploy "parameters") as [params|] eqn:Hp.
    2:{ unfold read_section, section_deploy_parameters, dict_get_default.
        rewrite Hd, Hp. cbn. discriminate. }
    destruct (is_jdict params) eqn:Hjp.
    2:{ unfold read_section, section_deploy_parameters, dict_get_default.
        rewrite Hd, Hp. destruct params; try discriminate Hjp; cbn; discriminate. }
    destruct params as [| | | | |params]; try discriminate Hjp. clear Hjp.
    rewrite <- (with_parameters_same _ _ _ Hd Hp), read_section_with. cbn zeta.
    destruct (nonempty_str (dict_get_default params "tags" (JStr "")))
      as [text|] eqn:Ht; [|discriminate].
    apply nonempty_str_get in Ht.
    destruct (parse_tags text) as [tags|e'] eqn:Hpt; cbn [mbind result_bind];
      [discriminate|].
    destruct (parse_tags_error_kind _ _ Hpt) as [msg ->]. intros [= <-].
    exists deploy, params, text. rewrite ?(with_parameters_same _ _ _ Hd Hp). auto.
  - intros (deploy & params & text & Hd & Hp & Ht & Hpt).
    unfold read_section_guarded.
    rewrite <- (with_parameters_same _ _ _ Hd Hp), read_section_with. cbn zeta.
    rewrite (dict_get_default_some _ _ _ (JStr "") Ht).
    destruct text as [|c text]; [discriminate Hpt|]. cbn [nonempty_str str_empty].
    rewrite Hpt. cbn [mbind result_bind].
    now destruct (parse_tags_error_kind _ _ Hpt) as [msg ->].
Qed.

Lemma foldM_read_item_raises (samconfig : list (string * json)) :
  forall deployments,
    (exists e, foldM read_item samconfig deployments = Raise e)
    <-> exists stage value e,
          In (stage, JDict value) samconfig /\ stage <> "atlantis"
          /\ read_section_guarded value = Raise e.
Proof.
  induction samconfig as [|[k v] l IH]; intros a; cbn [foldM].
  - split; [intros [e H]; discriminate H|intros (? & ? & ? & [] & _)].
  - assert (Hskip : forall a',
              (forall value e, v = JDict value -> k <> "atlantis" ->
                               read_section_guarded value <> Raise e) ->
              (exists e, foldM read_item l a' = Raise e)
              <-> exists stage value e,
                    In (stage, JDict value) ((k, v) :: l) /\ stage <> "atlantis"
                    /\ read_section_guarded value = Raise e).
    { intros a' Hno. rewrite IH. split.
      - intros (stage & value & e & Hin & Hr). exists stage, value, e.
        split; [now right|exact Hr].
      - intros (stage & value & e & [[= -> ->]|Hin] & Hne & Hr).
        + now destruct (Hno value e eq_refl Hne).
        + now exists stage, value, e. }
    remember (read_item a (k, v)) as r eqn:Er.
    unfold read_item in Er. cbn [fst snd] in Er. subst r.
    destruct v as [| | | | |value]; cbn [mbind result_bind];
      try (apply Hskip; discriminate).
    destruct (String.eqb_spec k "atlantis") as [->|Hk]; cbn [negb].
    + cbn [mbind result_bind]. apply Hskip. congruence.
    + destruct (read_section_guarded value) as [[stored|]|e] eqn:Hr;
        cbn [mbind result_bind].
      * apply Hskip. intros value' e' [= <-] _. congruence.
      * apply Hskip. intros value' e' [= <-] _. congruence.
      * split; [intros _|eauto]. exists k, value, e. split; [now left|now split].
Qed.

(** X19: [read_samconfig] gives up the whole file, and returns [None],
    exactly when some deployment section has tags that [parse_tags]
    refuses; a section of any other shape is kept or skipped, and the
    rest of the file is read. *)
Theorem read_samconfig_none (samconfig : list (string * json)) :
  read_samconfig samconfig = None
  <-> exists stage value deploy params text msg,
        In (stage, JDict value) samconfig /\ stage <> "atlantis"
        /\ dict_get value "deploy" = Some (JDict deploy)
        /\ dict_get deploy "parameters" = Some (JDict params)
        /\ dict_get params "tags" = Some (JStr text)
        /\ parse_tags text = Raise (ValueError msg).
Proof.
  unfold read_samconfig.
  destruct (foldM read_item samconfig []) as [deployments|e] eqn:H.
  - split; [discriminate|].
    intros (stage & value & deploy & params & text & msg & Hin & Hne & Hd & Hp & Ht & Hpt).
    assert (Hr : exists e, foldM read_item samconfig [] = Raise e).
    { apply foldM_read_item_raises. exists stage, value, (ValueError msg).
      split; [exact Hin|]. split; [exact Hne|].
      apply read_section_guarded_raises. now exists deploy, params, text. }
    destruct Hr as [e He]. congruence.
  - split; [intros _|reflexivity].
    assert (Hr : exists e, foldM read_item samconfig [] = Raise e) by eauto.
    apply foldM_read_item_raises in Hr as (stage & value & e' & Hin & Hne & Hr).
    apply read_section_guarded_raises in Hr as (deploy & params & text & Hd & Hp & Ht & Hpt).
    destruct (parse_tags_error_kind _ _ Hpt) as [msg ->].
    now exists stage, value, deploy, params, text, msg.
Qed.





(** ** Templates kept in S3 *)

Lemma join_split_chr (sep : ascii) (s : string) :
  join (String sep "") (split_chr sep s) = s.
Proof.
  unfold join. induction s as [|c s IH]; [reflexivity|].
  cbn [split_chr]. pose proof (split_chr_nonempty sep s) as Hne.
  destruct (Ascii.eqb_spec c sep) as [->|Hc].
  - destruct (split_chr sep s) as [|f fs]; [congruence|].
    cbn [String.concat] in *. now rewrite IH.
  - destruct (split_chr sep s) as [|f [|f' fs]]; [congruence| |].
    + cbn [String.concat] in *. now rewrite IH.
    + cbn [String.concat] in *. now rewrite append_cons, IH.
Qed.

Lemma split_chr_first (sep : ascii) (b k : string) :
  has_char sep b = false ->
  split_chr sep (b +:+ String sep k) = b :: split_chr sep k.
Proof.
  induction b as [|c b IH]; intros Hb.
  - rewrite append_nil. cbn [split_chr]. now rewrite Ascii.eqb_refl.
  - cbn [has_char] in Hb. apply orb_false_iff in Hb as [Hc Hb].
    rewrite append_cons. cbn [split_chr]. now rewrite Hc, (IH Hb).
Qed.

Lemma split_chr_head_no_sep (sep : ascii) (s f : string) (fs : list string) :
  split_chr sep s = f :: fs -> has_char sep f = false.
Proof.
  revert f fs. induction s as [|c s IH]; intros f fs; cbn [split_chr].
  - now intros [= <- <-].
  - destruct (Ascii.eqb c sep) eqn:Hc; [now intros [= <- <-]|].
    destruct (split_chr sep s) as [|f0 fs0] eqn:Hs; intros [= <- <-];
      cbn [has_char]; rewrite Hc; [reflexivity|]. now apply (IH f0 fs0).
Qed.

(** X21: every template path that begins with [s3://] has a bucket and a
    key: [read_template_file] never fails at [split('/')[2]], the bucket is
    what stands between [s3://] and the next slash, and the key is all that
    follows that slash (empty when there is none).  So the path
    [s3://<bucket>/<key>] is taken apart into exactly that bucket and key,
    whatever slashes the key holds. *)
Theorem s3_location_spec (template_path : string) :
  startswith "s3://" template_path = true ->
  exists bucket_name key,
    s3_location template_path = Ok (bucket_name, key)
    /\ has_char "/" bucket_name = false
    /\ (template_path = "s3://" +:+ bucket_name +:+ "/" +:+ key
        \/ (key = "" /\ template_path = "s3://" +:+ bucket_name))
    /\ forall bucket key',
         has_char "/" bucket = false ->
         s3_location ("s3://" +:+ bucket +:+ "/" +:+ key') = Ok (bucket, key').
Proof.
  intros H. apply prefix_spec in H as [rest ->].
  assert (Hsplit : forall r, split_chr "/" ("s3://" +:+ r)
                             = "s3:" :: "" :: split_chr "/" r).
  { intros r. rewrite !append_cons, append_nil. cbn [split_chr].
    change (Ascii.eqb "s" "/") with false. change (Ascii.eqb "3" "/") with false.
    change (Ascii.eqb ":" "/") with false. change (Ascii.eqb "/" "/") with true.
    cbv iota. destruct (split_chr "/" r); reflexivity. }
  unfold s3_location.
  destruct (split_chr "/" rest) as [|b tl] eqn:Hrest;
    [now apply split_chr_nonempty in Hrest|].
  exists b, (join "/" tl). rewrite Hsplit, Hrest. cbn [nth_error skipn].
  split; [reflexivity|]. split; [apply (split_chr_head_no_sep _ _ _ _ Hrest)|].
  split.
  - pose proof (join_split_chr "/" rest) as Hj. rewrite Hrest in Hj.
    unfold join in *. destruct tl as [|t tl].
    + right. cbn [String.concat] in *. now subst.
    + left. rewrite <- Hj at 1. reflexivity.
  - intros bucket key' Hb. rewrite Hsplit.
    change ("/" +:+ key') with (String "/" key').
    rewrite (split_chr_first _ _ _ Hb). cbn [nth_error skipn].
    now rewrite skipn_O, (join_split_chr "/" key').
Qed.

Lemma s3_location_spec_witness :
  s3_location "s3://acme-templates/atlantis/v2/template-pipeline.yml"
  = Ok ("acme-templates", "atlantis/v2/template-pipeline.yml").
Proof.
  destruct (s3_location_spec "s3://acme-templates/x" eq_refl) as (_ & _ & _ & _ & _ & H).
  apply (H "acme-templates" "atlantis/v2/template-pipeline.yml"). reflexivity.
Defined.
